(** * fplutil intrusive_list: a shallow embedding over an explicit heap

    The source is [libfplutil/include/fplutil/intrusive_list.h].  An
    [intrusive_list_node] is a pair of pointers; a list is a header node
    ([data_]) closing a circular doubly-linked chain.  Pointers are
    addresses into a finite heap, and every member function is a state
    transformer that fails on a dangling dereference or a failed [assert].

    An object is identified with the address of its embedded node:
    [node_from_object] and [object_from_node] differ by a fixed offset and
    are mutually inverse, so the model takes the offset to be zero. *)

From stdpp Require Import gmap list sorting.

#[local] Set Warnings "-clear-no-such-hyp".

Abbreviation addr := nat (only parsing).

(** ** Nodes and the heap *)

Record intrusive_list_node := Node { next_ : addr; previous_ : addr }.

Global Instance node_eq_dec : EqDecision intrusive_list_node.
Proof. solve_decision. Defined.

Abbreviation heap := (gmap nat intrusive_list_node) (only parsing).

(** ** The state-and-failure monad of member functions *)

Definition M (A : Type) : Type := heap → option (A * heap).

Definition ret {A} (a : A) : M A := λ h, Some (a, h).

Definition bind {A B} (m : M A) (k : A → M B) : M B :=
  λ h, match m h with
       | Some (a, h') => k a h'
       | None => None
       end.

Definition fail {A} : M A := λ _, None.

Declare Scope m_scope.
Delimit Scope m_scope with M.
Notation "x <- c1 ;; c2" := (bind c1 (λ x, c2))
  (at level 100, c1 at next level, right associativity) : m_scope.
Notation "c1 ;; c2" := (bind c1 (λ _, c2))
  (at level 100, right associativity) : m_scope.
Local Open Scope m_scope.

(** Reads and writes of the two pointer fields. *)

Definition get_next (a : addr) : M addr :=
  λ h, match h !! a with Some n => Some (next_ n, h) | None => None end.

Definition get_previous (a : addr) : M addr :=
  λ h, match h !! a with Some n => Some (previous_ n, h) | None => None end.

Definition upd_next (a v : addr) (h : heap) : heap :=
  alter (λ n, Node v (previous_ n)) a h.

Definition upd_previous (a v : addr) (h : heap) : heap :=
  alter (λ n, Node (next_ n) v) a h.

Definition set_next (a v : addr) : M unit :=
  λ h, match h !! a with Some _ => Some (tt, upd_next a v h) | None => None end.

Definition set_previous (a v : addr) : M unit :=
  λ h, match h !! a with Some _ => Some (tt, upd_previous a v h) | None => None end.

(** [std::swap] on two [next_] fields, and on two [previous_] fields. *)

Definition std_swap_next (a b : addr) : M unit :=
  x <- get_next a ;; y <- get_next b ;; set_next a y ;; set_next b x.

Definition std_swap_previous (a b : addr) : M unit :=
  x <- get_previous a ;; y <- get_previous b ;;
  set_previous a y ;; set_previous b x.

(** The storage of a destroyed object is given back. *)
Definition free (a : addr) : M unit := λ h, Some (tt, delete a h).

(** ** [class intrusive_list_node] *)

Module node.

(** [intrusive_list_node() : next_(this), previous_(this)]: the object is
    placed at an address that holds no live node. *)
Definition construct (this : addr) : M unit :=
  λ h, match h !! this with
       | None => Some (tt, <[this := Node this this]> h)
       | Some _ => None
       end.

Definition in_list (this : addr) : M bool :=
  n <- get_next this ;; ret (negb (n =? this)).

Definition clear (this : addr) : M unit :=
  set_next this this ;; set_previous this this.

Definition remove (this : addr) : M addr :=
  n <- get_next this ;; p <- get_previous this ;; set_previous n p ;;
  p <- get_previous this ;; n <- get_next this ;; set_next p n ;;
  clear this ;;
  ret this.

Definition move (this other : addr) : M unit :=
  b <- in_list other ;;
  if b : bool then
    n <- get_next other ;; set_next this n ;;
    p <- get_previous other ;; set_previous this p ;;
    n <- get_next other ;; set_previous n this ;;
    p <- get_previous other ;; set_next p this ;;
    clear other
  else
    set_next this this ;; set_previous this this.

(** Move constructor: the new node's fields are uninitialised until
    [move] assigns them; the slot is modelled as freshly allocated. *)
Definition move_construct (this other : addr) : M unit :=
  construct this ;; move this other.

(** Move assignment operator. *)
Definition move_assign (this other : addr) : M unit :=
  n <- get_next this ;; p <- get_previous this ;; set_previous n p ;;
  p <- get_previous this ;; n <- get_next this ;; set_next p n ;;
  move this other.

Definition insert_before (this node : addr) : M unit :=
  p <- get_previous this ;; set_next p node ;;
  p <- get_previous this ;; set_previous node p ;;
  set_next node this ;;
  set_previous this node.

Definition insert_after (this node : addr) : M unit :=
  n <- get_next this ;; set_previous n node ;;
  n <- get_next this ;; set_next node n ;;
  set_previous node this ;;
  set_next this node.

(** [~intrusive_list_node() { remove(); }]; the storage of the object
    ends with it. *)
Definition destroy (this : addr) : M unit :=
  remove this ;; free this.

End node.

(** ** [class intrusive_list]

    A list is named by the address [this] of its header [data_]; an
    iterator is the address [value_] it holds. *)

Module ilist.

Definition construct (this : addr) : M unit := node.construct this.

Definition move_assign (this other : addr) : M unit :=
  node.move_assign this other.

(** [intrusive_list(this_type&& other) { *this = std::move(other); }]:
    [data_] is default-constructed first. *)
Definition move_construct (this other : addr) : M unit :=
  node.construct this ;; move_assign this other.

Definition begin (this : addr) : M addr := get_next this.

Definition end_ (this : addr) : M addr := ret this.

Definition push_front (this value : addr) : M unit :=
  b <- node.in_list value ;;
  if b : bool then fail else node.insert_after this value.

Definition pop_front (this : addr) : M unit :=
  n <- get_next this ;; node.remove n ;; ret tt.

Definition push_back (this value : addr) : M unit :=
  b <- node.in_list value ;;
  if b : bool then fail else node.insert_before this value.

Definition pop_back (this : addr) : M unit :=
  p <- get_previous this ;; node.remove p ;; ret tt.

(** [insert(iterator pos, reference value)]. *)
Definition insert (pos value : addr) : M addr :=
  node.insert_before pos value ;; ret value.

Definition insert_after (pos value : addr) : M addr :=
  node.insert_after pos value ;; ret value.

Definition empty (this : addr) : M bool :=
  b <- node.in_list this ;; ret (negb b).

Definition front (this : addr) : M addr := get_next this.

Definition back (this : addr) : M addr := get_previous this.

Definition swap (this other : addr) : M unit :=
  std_swap_next this other ;;
  std_swap_previous this other ;;
  (n1 <- get_next this ;; n2 <- get_next other ;; std_swap_previous n1 n2) ;;
  (p1 <- get_previous this ;; p2 <- get_previous other ;; std_swap_next p1 p2).

(** [static reference remove(reference value)]. *)
Definition remove (value : addr) : M addr := node.remove value.

(** [splice(iterator pos, reference other)]. *)
Definition splice_one (pos other : addr) : M unit :=
  v <- remove other ;; insert pos v ;; ret tt.

(** [splice(iterator pos, iterator first, iterator last)]. *)
Definition splice (pos first last : addr) : M unit :=
  if first =? last then ret tt
  else
    before_pos_node <- get_previous pos ;;
    before_first_node <- get_previous first ;;
    before_last_node <- get_previous last ;;
    set_next before_pos_node first ;;
    set_next before_first_node last ;;
    set_next before_last_node pos ;;
    set_previous pos before_last_node ;;
    set_previous first before_pos_node ;;
    set_previous last before_first_node.

(** [splice(iterator pos, this_type& other)]. *)
Definition splice_list (pos other : addr) : M unit :=
  first <- begin other ;; last <- end_ other ;; splice pos first last.

(** [splice(iterator pos, iterator iter)]. *)
Definition splice_iter (pos iter : addr) : M unit :=
  nx <- get_next iter ;; splice pos iter nx.

(** The destructor of a list is implicit: it destroys [data_]. *)
Definition destroy (this : addr) : M unit := node.destroy this.

(** The [for] loop of [clear]: [current = iter++] and then
    [node_from_object( *current)->clear()]; [fuel] bounds its iterations. *)
Fixpoint clear_loop (fuel : nat) (this iter : addr) : M unit :=
  match fuel with
  | 0 => fail
  | S fuel =>
      e <- end_ this ;;
      if iter =? e then ret tt
      else
        current <- ret iter ;;
        iter <- get_next iter ;;
        node.clear current ;;
        clear_loop fuel this iter
  end.

Definition clear (fuel : nat) (this : addr) : M unit :=
  iter <- begin this ;; clear_loop fuel this iter ;; node.clear this.

(** [std::distance] on two iterators of the list: the number of [++]
    that take [first] to [last]. *)
Fixpoint distance (fuel : nat) (first last : addr) : M nat :=
  match fuel with
  | 0 => fail
  | S fuel =>
      if first =? last then ret 0
      else first <- get_next first ;;
           n <- distance fuel first last ;; ret (S n)
  end.

(** [size() { return std::distance(cbegin(), cend()); }]. *)
Definition size (fuel : nat) (this : addr) : M nat :=
  b <- begin this ;; e <- end_ this ;; distance fuel b e.

(** [insert(iterator pos, InputIt first, InputIt last)]; the input range
    is given by the objects [vs] it yields, in order. *)
Fixpoint insert_each (pos : addr) (vs : list addr) : M unit :=
  match vs with
  | [] => ret tt
  | v :: vs => insert pos v ;; insert_each pos vs
  end.

Definition insert_range (pos : addr) (vs : list addr) : M addr :=
  return_value <- ret pos ;; insert_each pos vs ;; ret return_value.

(** [intrusive_list(InputIt first, InputIt last)]. *)
Definition construct_range (this : addr) (vs : list addr) : M unit :=
  construct this ;; b <- begin this ;; insert_range b vs ;; ret tt.

(** The loop [for (iter = begin(); iter != end(); ++iter)] of the
    iterator's documentation, collecting [*iter]. *)
Fixpoint iterate (fuel : nat) (iter last : addr) : M (list addr) :=
  match fuel with
  | 0 => fail
  | S fuel =>
      if iter =? last then ret []
      else
        element <- ret iter ;;
        iter <- get_next iter ;;
        rest <- iterate fuel iter last ;;
        ret (element :: rest)
  end.

Definition elements (fuel : nat) (this : addr) : M (list addr) :=
  b <- begin this ;; e <- end_ this ;; iterate fuel b e.

(** The same loop from [rbegin()] to [rend()].  A [std::reverse_iterator]
    holds an iterator [base]; it starts at [end()], stops at [begin()],
    reads the element in front of [base] and steps with [--base]. *)
Fixpoint reverse_iterate (fuel : nat) (base last : addr) : M (list addr) :=
  match fuel with
  | 0 => fail
  | S fuel =>
      if base =? last then ret []
      else
        element <- get_previous base ;;
        base <- get_previous base ;;
        rest <- reverse_iterate fuel base last ;;
        ret (element :: rest)
  end.

Definition reverse_elements (fuel : nat) (this : addr) : M (list addr) :=
  rb <- end_ this ;; re <- begin this ;; reverse_iterate fuel rb re.

Section algorithms.
(** The comparator and predicate take objects, here node addresses. *)
Variable compare : addr → addr → bool.

(** The [while (true)] loop of [merge]; [fuel] bounds its iterations. *)
Fixpoint merge_loop (fuel : nat) (this other this_iter other_iter : addr)
    : M unit :=
  match fuel with
  | 0 => fail
  | S fuel =>
      e <- end_ this ;;
      if this_iter =? e then
        e <- end_ this ;; oe <- end_ other ;; splice e other_iter oe
      else
        oe <- end_ other ;;
        if other_iter =? oe then ret tt
        else if compare this_iter other_iter then
          this_iter <- get_next this_iter ;;
          merge_loop fuel this other this_iter other_iter
        else
          to_be_removed <- ret other_iter ;;
          other_iter <- get_next other_iter ;;
          v <- remove to_be_removed ;; insert this_iter v ;;
          merge_loop fuel this other this_iter other_iter
  end.

Definition merge (fuel : nat) (this other : addr) : M unit :=
  this_iter <- begin this ;;
  other_iter <- begin other ;;
  merge_loop fuel this other this_iter other_iter.

(** The loop of [unique]. *)
Fixpoint unique_loop (fuel : nat) (this iter : addr) : M unit :=
  match fuel with
  | 0 => fail
  | S fuel =>
      e <- end_ this ;; last <- get_previous e ;;
      if iter =? last then ret tt
      else
        next_iter <- get_next iter ;;
        if compare iter next_iter then
          remove next_iter ;; unique_loop fuel this iter
        else
          iter <- get_next iter ;; unique_loop fuel this iter
  end.

Definition unique (fuel : nat) (this : addr) : M unit :=
  b <- empty this ;;
  if b : bool then ret tt
  else iter <- begin this ;; unique_loop fuel this iter.

(** The inner [while] of [sort]: walk [j] towards the front. *)
Fixpoint sort_scan (fuel : nat) (this i j : addr) : M addr :=
  match fuel with
  | 0 => fail
  | S fuel =>
      b <- begin this ;;
      if j =? b then ret j
      else
        pj <- get_previous j ;;
        if compare i pj then
          j <- get_previous j ;; sort_scan fuel this i j
        else ret j
  end.

(** The outer [for] of [sort]; [scan_fuel] bounds each run of the
    inner loop and [fuel] the outer iterations. *)
Fixpoint sort_loop (scan_fuel fuel : nat) (this i : addr) : M unit :=
  match fuel with
  | 0 => fail
  | S fuel =>
      e <- end_ this ;;
      if i =? e then ret tt
      else
        next <- get_next i ;;
        j <- sort_scan scan_fuel this i i ;;
        (if i =? j then ret tt
         else v <- remove i ;; insert j v ;; ret tt) ;;
        sort_loop scan_fuel fuel this next
  end.

Definition sort (fuel : nat) (this : addr) : M unit :=
  i <- begin this ;; sort_loop fuel fuel this i.

End algorithms.

End ilist.

(** ** Building concrete heaps *)

(** Construct the nodes at the given addresses, one after the other. *)
Fixpoint construct_all (l : list addr) : M unit :=
  match l with
  | [] => ret tt
  | a :: l => node.construct a ;; construct_all l
  end.

(** [push_back] the given objects in order. *)
Fixpoint push_back_all (this : addr) (l : list addr) : M unit :=
  match l with
  | [] => ret tt
  | a :: l => ilist.push_back this a ;; push_back_all this l
  end.

(** The heap holding one list with header [this] and elements [l],
    built by the public interface from the empty heap. *)
Definition build (this : addr) (l : list addr) : M unit :=
  construct_all (this :: l) ;; push_back_all this l.

(** Forward traversal [begin() .. end()], bounded by [fuel]. *)
Fixpoint walk (fuel : nat) (h : heap) (this cur : addr) : option (list addr) :=
  if cur =? this then Some []
  else match fuel with
       | 0 => None
       | S fuel =>
           match h !! cur with
           | Some n => (cur ::.) <$> walk fuel h this (next_ n)
           | None => None
           end
       end.

Definition to_list (h : heap) (this : addr) : option (list addr) :=
  match h !! this with
  | Some n => walk (size h) h this (next_ n)
  | None => None
  end.

(** Backward traversal [rbegin() .. rend()]. *)
Fixpoint walk_back (fuel : nat) (h : heap) (this cur : addr)
    : option (list addr) :=
  if cur =? this then Some []
  else match fuel with
       | 0 => None
       | S fuel =>
           match h !! cur with
           | Some n => (cur ::.) <$> walk_back fuel h this (previous_ n)
           | None => None
           end
       end.

Definition to_rlist (h : heap) (this : addr) : option (list addr) :=
  match h !! this with
  | Some n => walk_back (size h) h this (previous_ n)
  | None => None
  end.

Definition run {A} (m : M A) (h : heap) : option heap := snd <$> m h.

(** ** Reading a heap: successor and predecessor as partial functions *)

Definition nxt (h : heap) (a : addr) : option addr := next_ <$> h !! a.
Definition prv (h : heap) (a : addr) : option addr := previous_ <$> h !! a.
Definition live (h : heap) (a : addr) : Prop := is_Some (h !! a).

(** [a] points forward to [b] and [b] points back to [a]. *)
Definition link (h : heap) (a b : addr) : Prop :=
  nxt h a = Some b ∧ prv h b = Some a.

(** Every consecutive pair of [c] is linked both ways. *)
Fixpoint path (h : heap) (c : list addr) : Prop :=
  match c with
  | a :: c' => match c' with
               | b :: _ => link h a b ∧ path h c'
               | [] => True
               end
  | [] => True
  end.

(** The list with header [this] holds exactly the elements [l], in order:
    the circular chain [this, l, this] is linked in both directions and
    visits every node once. *)
Definition is_list (h : heap) (this : addr) (l : list addr) : Prop :=
  NoDup (this :: l) ∧ path h (this :: l ++ [this]).

(** A node whose two pointers are its own address. *)
Definition self_linked (h : heap) (a : addr) : Prop :=
  h !! a = Some (Node a a).

(** Doubly-linked consistency of every live link field. *)
Definition consistent (h : heap) : Prop :=
  ∀ f nd, h !! f = Some nd →
    prv h (next_ nd) = Some f ∧ nxt h (previous_ nd) = Some f.

(** The same, as a test on the finitely many live nodes. *)
Definition consistentb (h : heap) : bool :=
  forallb (λ '(f, nd),
             bool_decide (prv h (next_ nd) = Some f) &&
             bool_decide (nxt h (previous_ nd) = Some f))
          (map_to_list h).

(** [x] occurs strictly before [y] in [l]. *)
Definition before (x y : addr) (l : list addr) : Prop :=
  ∃ l1 l2 l3, l = l1 ++ x :: l2 ++ y :: l3.

(** ** Basic facts about field reads and writes *)

Section heap_facts.
Implicit Types (h : gmap nat intrusive_list_node) (a b x v : nat).

Lemma nxt_Some_live h a b : nxt h a = Some b → live h a.
Proof. unfold nxt, live. destruct (h !! a); naive_solver. Qed.

Lemma prv_Some_live h a b : prv h a = Some b → live h a.
Proof. unfold prv, live. destruct (h !! a); naive_solver. Qed.



Lemma live_upd_next h a v x : live (upd_next a v h) x ↔ live h x.
Proof.
  unfold live, upd_next. destruct (decide (a = x)) as [->|].
  - rewrite lookup_alter_eq, fmap_is_Some. done.
  - by rewrite lookup_alter_ne.
Qed.

Lemma live_upd_previous h a v x : live (upd_previous a v h) x ↔ live h x.
Proof.
  unfold live, upd_previous. destruct (decide (a = x)) as [->|].
  - rewrite lookup_alter_eq, fmap_is_Some. done.
  - by rewrite lookup_alter_ne.
Qed.

Lemma live_upd_next_2 h a v x : live h x → live (upd_next a v h) x.
Proof. apply live_upd_next. Qed.

Lemma live_upd_previous_2 h a v x : live h x → live (upd_previous a v h) x.
Proof. apply live_upd_previous. Qed.

Lemma nxt_upd_next h a v x :
  live h a →
  nxt (upd_next a v h) x = if decide (x = a) then Some v else nxt h x.
Proof.
  intros [n Hn]. unfold nxt, upd_next. case_decide as E.
  - subst. by rewrite lookup_alter_eq, Hn.
  - by rewrite lookup_alter_ne.
Qed.

Lemma prv_upd_next h a v x : prv (upd_next a v h) x = prv h x.
Proof.
  unfold prv, upd_next. destruct (decide (a = x)) as [->|].
  - rewrite lookup_alter_eq. by destruct (h !! x).
  - by rewrite lookup_alter_ne.
Qed.

Lemma nxt_upd_previous h a v x : nxt (upd_previous a v h) x = nxt h x.
Proof.
  unfold nxt, upd_previous. destruct (decide (a = x)) as [->|].
  - rewrite lookup_alter_eq. by destruct (h !! x).
  - by rewrite lookup_alter_ne.
Qed.

Lemma prv_upd_previous h a v x :
  live h a →
  prv (upd_previous a v h) x = if decide (x = a) then Some v else prv h x.
Proof.
  intros [n Hn]. unfold prv, upd_previous. case_decide as E.
  - subst. by rewrite lookup_alter_eq, Hn.
  - by rewrite lookup_alter_ne.
Qed.

(** Two heaps with the same live nodes and the same two pointer maps
    are equal. *)
Lemma heap_eq h1 h2 :
  (∀ x, nxt h1 x = nxt h2 x) → (∀ x, prv h1 x = prv h2 x) → h1 = h2.
Proof.
  intros Hn Hp. apply map_eq. intros x.
  specialize (Hn x). specialize (Hp x). unfold nxt, prv in *.
  destruct (h1 !! x) as [[]|], (h2 !! x) as [[]|]; naive_solver.
Qed.

Lemma self_linked_nxt_prv h a :
  self_linked h a ↔ nxt h a = Some a ∧ prv h a = Some a.
Proof.
  unfold self_linked, nxt, prv. destruct (h !! a) as [[n p]|]; simpl.
  - split; [by intros [= -> ->] | by intros [[= ->] [= ->]]].
  - split; [done | by intros [? _]].
Qed.

(** Stepping through a computation one field access at a time. *)

Lemma exec_get_next {B} h a v (k : nat → M B) :
  nxt h a = Some v → bind (get_next a) k h = k v h.
Proof.
  unfold nxt, bind, get_next. destruct (h !! a); naive_solver.
Qed.

Lemma exec_get_previous {B} h a v (k : nat → M B) :
  prv h a = Some v → bind (get_previous a) k h = k v h.
Proof.
  unfold prv, bind, get_previous. destruct (h !! a); naive_solver.
Qed.

Lemma exec_set_next {B} h a v (k : unit → M B) :
  live h a → bind (set_next a v) k h = k tt (upd_next a v h).
Proof. unfold bind, set_next. by intros [n ->]. Qed.

Lemma exec_set_previous {B} h a v (k : unit → M B) :
  live h a → bind (set_previous a v) k h = k tt (upd_previous a v h).
Proof. unfold bind, set_previous. by intros [n ->]. Qed.

Lemma run_set_next h a v :
  live h a → set_next a v h = Some (tt, upd_next a v h).
Proof. unfold set_next. by intros [n ->]. Qed.

Lemma run_set_previous h a v :
  live h a → set_previous a v h = Some (tt, upd_previous a v h).
Proof. unfold set_previous. by intros [n ->]. Qed.

Lemma bind_bind {A B C} (m : M A) (f : A → M B) (g : B → M C) h :
  bind (bind m f) g h = bind m (λ r, bind (f r) g) h.
Proof. unfold bind. destruct (m h) as [[]|]; done. Qed.

Lemma bind_ret {A B} (r : A) (k : A → M B) h : bind (ret r) k h = k r h.
Proof. done. Qed.

Lemma bind_Some {A B} (m : M A) (k : A → M B) h (r : A) h' :
  m h = Some (r, h') → bind m k h = k r h'.
Proof. unfold bind. by intros ->. Qed.

End heap_facts.

Create HintDb heap.
Global Hint Resolve nxt_Some_live prv_Some_live : heap.
Global Hint Resolve live_upd_next_2 live_upd_previous_2 : heap.

(** Normalise reads of an updated heap. *)
Ltac heap_reads :=
  repeat first
    [ rewrite prv_upd_next
    | rewrite nxt_upd_previous
    | rewrite nxt_upd_next by eauto 10 with heap
    | rewrite prv_upd_previous by eauto 10 with heap ].

Ltac heap_solve :=
  heap_reads; repeat case_decide; simplify_eq; eauto 10 with heap; try congruence.

(** Run the next field access of the computation in the goal. *)
Ltac exec1 :=
  first
    [ rewrite bind_bind
    | rewrite bind_ret
    | erewrite exec_get_next by (heap_solve; fail)
    | erewrite exec_get_previous by (heap_solve; fail)
    | rewrite exec_set_next by eauto 10 with heap
    | rewrite exec_set_previous by eauto 10 with heap
    | rewrite run_set_next by eauto 10 with heap
    | rewrite run_set_previous by eauto 10 with heap ].

Ltac exec := repeat exec1.

Section node_exec.
Implicit Types (h : gmap nat intrusive_list_node) (a b x v n p : nat).

(** The heap [remove] leaves behind. *)
Definition removed (x n p : nat) h :=
  upd_previous x x (upd_next x x (upd_next p n (upd_previous n p h))).

Lemma remove_exec h x n p :
  nxt h x = Some n → prv h x = Some p → live h n → live h p →
  node.remove x h = Some (x, removed x n p h).
Proof.
  intros Hn Hp Ln Lp. unfold node.remove, node.clear, removed.
  exec. done.
Qed.
End node_exec.

(** ** What each node operation does to the two pointer maps *)

Section node_effects.
Implicit Types (h : gmap nat intrusive_list_node) (a b x y v n p : nat).

Lemma live_removed h x n p y : live (removed x n p h) y ↔ live h y.
Proof.
  unfold removed.
  by rewrite live_upd_previous, !live_upd_next, live_upd_previous.
Qed.

Lemma nxt_removed h x n p y :
  live h x → live h p →
  nxt (removed x n p h) y =
    if decide (y = x) then Some x
    else if decide (y = p) then Some n else nxt h y.
Proof. intros. unfold removed. heap_solve. Qed.

Lemma prv_removed h x n p y :
  live h x → live h n →
  prv (removed x n p h) y =
    if decide (y = x) then Some x
    else if decide (y = n) then Some p else prv h y.
Proof. intros. unfold removed. heap_solve. Qed.

(** The heap [pos.insert_before(x)] leaves behind, [p] being the old
    predecessor of [pos]. *)
Definition inserted_before (pos p x : nat) h :=
  upd_previous pos x (upd_next x pos (upd_previous x p (upd_next p x h))).

Lemma insert_before_exec h pos p x :
  prv h pos = Some p → live h p → live h x →
  node.insert_before pos x h = Some (tt, inserted_before pos p x h).
Proof.
  intros Hp Lp Lx. unfold node.insert_before, inserted_before.
  exec. done.
Qed.

Lemma live_inserted_before h pos p x y :
  live (inserted_before pos p x h) y ↔ live h y.
Proof.
  unfold inserted_before.
  by rewrite live_upd_previous, live_upd_next, live_upd_previous,
    live_upd_next.
Qed.

Lemma nxt_inserted_before h pos p x y :
  live h p → live h x →
  nxt (inserted_before pos p x h) y =
    if decide (y = x) then Some pos
    else if decide (y = p) then Some x else nxt h y.
Proof. intros. unfold inserted_before. heap_solve. Qed.

Lemma prv_inserted_before h pos p x y :
  live h pos → live h x →
  prv (inserted_before pos p x h) y =
    if decide (y = pos) then Some x
    else if decide (y = x) then Some p else prv h y.
Proof. intros. unfold inserted_before. heap_solve. Qed.

(** The heap [pos.insert_after(x)] leaves behind, [n] being the old
    successor of [pos]. *)
Definition inserted_after (pos n x : nat) h :=
  upd_next pos x (upd_previous x pos (upd_next x n (upd_previous n x h))).

Lemma insert_after_exec h pos n x :
  nxt h pos = Some n → live h n → live h x →
  node.insert_after pos x h = Some (tt, inserted_after pos n x h).
Proof.
  intros Hn Ln Lx. unfold node.insert_after, inserted_after.
  exec. done.
Qed.

Lemma live_inserted_after h pos n x y :
  live (inserted_after pos n x h) y ↔ live h y.
Proof.
  unfold inserted_after.
  by rewrite live_upd_next, live_upd_previous, live_upd_next,
    live_upd_previous.
Qed.

Lemma nxt_inserted_after h pos n x y :
  live h pos → live h x →
  nxt (inserted_after pos n x h) y =
    if decide (y = pos) then Some x
    else if decide (y = x) then Some n else nxt h y.
Proof. intros. unfold inserted_after. heap_solve. Qed.

Lemma prv_inserted_after h pos n x y :
  live h n → live h x →
  prv (inserted_after pos n x h) y =
    if decide (y = x) then Some pos
    else if decide (y = n) then Some x else prv h y.
Proof. intros. unfold inserted_after. heap_solve. Qed.

(** The heap the six assignments of [splice] leave behind. *)
Definition spliced (pos first last bp bf bl : nat) h :=
  upd_previous last bf (upd_previous first bp (upd_previous pos bl
    (upd_next bl pos (upd_next bf last (upd_next bp first h))))).

Lemma splice_exec h pos first last bp bf bl :
  first ≠ last →
  prv h pos = Some bp → prv h first = Some bf → prv h last = Some bl →
  live h bp → live h bf → live h bl →
  ilist.splice pos first last h =
    Some (tt, spliced pos first last bp bf bl h).
Proof.
  intros Hne Hp Hf Hl Lp Lf Ll. unfold ilist.splice, spliced.
  apply Nat.eqb_neq in Hne. rewrite Hne.
  exec. done.
Qed.

Lemma live_spliced h pos first last bp bf bl y :
  live (spliced pos first last bp bf bl h) y ↔ live h y.
Proof.
  unfold spliced. by rewrite !live_upd_previous, !live_upd_next.
Qed.

Lemma nxt_spliced h pos first last bp bf bl y :
  live h bp → live h bf → live h bl →
  nxt (spliced pos first last bp bf bl h) y =
    if decide (y = bl) then Some pos
    else if decide (y = bf) then Some last
    else if decide (y = bp) then Some first else nxt h y.
Proof. intros. unfold spliced. heap_solve. Qed.

Lemma prv_spliced h pos first last bp bf bl y :
  live h pos → live h first → live h last →
  prv (spliced pos first last bp bf bl h) y =
    if decide (y = last) then Some bf
    else if decide (y = first) then Some bp
    else if decide (y = pos) then Some bl else prv h y.
Proof. intros. unfold spliced. heap_solve. Qed.

End node_effects.

(** ** Linked paths and the list representation *)

Section paths.
Implicit Types (h : gmap nat intrusive_list_node) (a b x y p q : nat).
Implicit Types (c l : list nat).

Lemma snoc_view a l : ∃ l' p, a :: l = l' ++ [p].
Proof.
  revert a. induction l as [|b l IH]; intros a.
  - by exists [], a.
  - destruct (IH b) as (l' & p & E). exists (a :: l'), p. by rewrite E.
Qed.

Lemma path_cons h a b c : path h (a :: b :: c) ↔ link h a b ∧ path h (b :: c).
Proof. done. Qed.

Lemma path_tail h a c : path h (a :: c) → path h c.
Proof. destruct c; simpl; tauto. Qed.

Lemma path_app h c1 x c2 :
  path h (c1 ++ x :: c2) ↔ path h (c1 ++ [x]) ∧ path h (x :: c2).
Proof.
  induction c1 as [|a c1 IH].
  - simpl. tauto.
  - destruct c1 as [|b c1].
    + simpl. destruct c2; tauto.
    + change (path h ((a :: b :: c1) ++ x :: c2))
        with (link h a b ∧ path h ((b :: c1) ++ x :: c2)).
      change (path h ((a :: b :: c1) ++ [x]))
        with (link h a b ∧ path h ((b :: c1) ++ [x])).
      tauto.
Qed.

Lemma path_pair h a b : path h [a; b] ↔ link h a b.
Proof. simpl. tauto. Qed.

(** A path survives any change that keeps the forward pointers of all
    its nodes but the last and the backward pointers of all but the
    first. *)
Lemma path_frame h h' c :
  path h c →
  (∀ y, y ∈ removelast c → nxt h' y = nxt h y) →
  (∀ y, y ∈ tail c → prv h' y = prv h y) →
  path h' c.
Proof.
  induction c as [|a c IH]; [done|].
  destruct c as [|b c]; [done|].
  intros [[Hn Hp] Hc] Fn Fp. split.
  - split.
    + rewrite Fn; [done|]. simpl. apply list_elem_of_here.
    + rewrite Fp; [done|]. simpl. apply list_elem_of_here.
  - apply IH; [done| |].
    + intros y Hy. apply Fn. simpl. apply list_elem_of_further. exact Hy.
    + intros y Hy. apply Fp. simpl. apply list_elem_of_further. exact Hy.
Qed.

Lemma removelast_snoc c x : removelast (c ++ [x]) = c.
Proof. apply removelast_last. Qed.

Lemma path_live h c x : path h c → 2 ≤ length c → x ∈ c → live h x.
Proof.
  induction c as [|a c IH]; [by intros _ _ ?%elem_of_nil|].
  destruct c as [|b c]; [simpl; lia|].
  intros [[Hn Hp] Hc] _ Hx.
  apply elem_of_cons in Hx as [->|Hx]; [eauto with heap|].
  destruct c as [|b' c].
  - apply list_elem_of_singleton in Hx as ->. eauto with heap.
  - apply IH; [done|simpl; lia|done].
Qed.

Lemma is_list_live h a l x : is_list h a l → x ∈ a :: l → live h x.
Proof.
  intros [_ Hp] Hx. apply (path_live h (a :: l ++ [a])); [done| |].
  - simpl. rewrite length_app. simpl. lia.
  - set_solver.
Qed.

Lemma is_list_nil h a : is_list h a [] ↔ self_linked h a.
Proof.
  rewrite self_linked_nxt_prv. unfold is_list. simpl. split.
  - intros (_ & H & _). exact H.
  - intros ?. split; [apply NoDup_singleton|]. split; [|done]. done.
Qed.

Lemma is_list_begin h a l : is_list h a l → nxt h a = Some (hd a l).
Proof.
  intros [_ Hp]. destruct l; simpl in *; unfold link in *; tauto.
Qed.

Lemma is_list_back h a l : is_list h a l → prv h a = Some (List.last l a).
Proof.
  intros [_ Hp]. destruct (snoc_view a l) as (c & p & E).
  change (a :: l ++ [a]) with ((a :: l) ++ [a]) in Hp. rewrite E in Hp.
  rewrite <- (app_assoc c [p] [a]) in Hp. apply path_app in Hp as [_ Hp].
  apply path_pair in Hp as [_ Hp]. rewrite Hp. f_equal.
  destruct c as [|a' c]; simplify_eq/=; [done|].
  by rewrite last_last.
Qed.

(** The successor of an element is the next element, or the header. *)
Lemma is_list_nxt h a l1 x l2 :
  is_list h a (l1 ++ x :: l2) → nxt h x = Some (hd a l2).
Proof.
  intros [_ Hp].
  replace (a :: (l1 ++ x :: l2) ++ [a])
    with ((a :: l1) ++ x :: (l2 ++ [a])) in Hp
    by (simpl; by rewrite <- app_assoc).
  apply path_app in Hp as [_ Hp].
  destruct l2; simpl in *; unfold link in *; tauto.
Qed.

(** The predecessor of an element is the previous element, or the
    header. *)
Lemma is_list_prv h a l1 x l2 :
  is_list h a (l1 ++ x :: l2) → prv h x = Some (List.last l1 a).
Proof.
  intros [_ Hp].
  replace (a :: (l1 ++ x :: l2) ++ [a])
    with ((a :: l1) ++ x :: (l2 ++ [a])) in Hp
    by (simpl; by rewrite <- app_assoc).
  apply path_app in Hp as [Hp _].
  destruct (snoc_view a l1) as (c & p & E). rewrite E in Hp.
  rewrite <- (app_assoc c [p] [x]) in Hp. apply path_app in Hp as [_ Hp].
  apply path_pair in Hp as [_ Hp]. rewrite Hp. f_equal.
  destruct c as [|a' c]; simplify_eq/=; [done|].
  by rewrite last_last.
Qed.

Lemma hd_elem a l : hd a l ∈ a :: l.
Proof. destruct l; simpl; set_solver. Qed.

Lemma last_elem a l : List.last l a ∈ a :: l.
Proof.
  destruct (snoc_view a l) as (c & p & E).
  destruct c as [|a' c]; simplify_eq/=; [set_solver|].
  rewrite last_last. set_solver.
Qed.

(** A member of a list is never self-linked. *)
Lemma is_list_elem_in_list h a l x :
  is_list h a l → x ∈ l → nxt h x ≠ Some x.
Proof.
  intros Hl Hx. apply list_elem_of_split in Hx as (l1 & l2 & ->).
  rewrite (is_list_nxt _ _ _ _ _ Hl). intros [= E].
  destruct Hl as [Hnd _].
  apply NoDup_cons in Hnd as [Ha Hnd].
  apply NoDup_app in Hnd as (_ & _ & Hnd).
  apply NoDup_cons in Hnd as [Hx _].
  destruct l2 as [|y l2]; simpl in E; subst; set_solver.
Qed.

(** Every link field of a list is consistent with its neighbours. *)
Lemma path_consistent_inner h c1 x c2 p n :
  path h (c1 ++ [p; x; n] ++ c2) →
  nxt h x = Some n ∧ prv h x = Some p ∧
  prv h n = Some x ∧ nxt h p = Some x.
Proof.
  intros Hp. apply path_app in Hp as [_ Hp].
  destruct Hp as [[? ?] Hp]. simpl in Hp.
  destruct c2; unfold link in *; tauto.
Qed.

End paths.

(** ** Lists seen as a prefix, a gap or an element, and a suffix *)

Definition same_outside (S : list nat) (h h' : gmap nat intrusive_list_node) : Prop :=
  ∀ y, y ∉ S → h' !! y = h !! y.

(** Turn a [NoDup] hypothesis into its membership facts. *)
Ltac nodup_facts H :=
  simpl app in H;
  repeat first
    [ apply NoDup_cons in H as [? H]
    | apply NoDup_app in H as (? & ? & H) ].

Section zipper.
Implicit Types (h : gmap nat intrusive_list_node) (a b x y p q : nat).
Implicit Types (c l : list nat).

Lemma last_cons_default a l d : List.last (a :: l) d = List.last l a.
Proof.
  revert a d. induction l as [|b l IH]; intros a d; [done|].
  change (List.last (a :: b :: l) d) with (List.last (b :: l) d).
  rewrite IH. symmetry. apply (IH b).
Qed.

Lemma path_snoc_last h a l x :
  path h (a :: l ++ [x]) ↔ path h (a :: l) ∧ link h (List.last l a) x.
Proof.
  destruct (snoc_view a l) as (c & p & E).
  change (a :: l ++ [x]) with ((a :: l) ++ [x]).
  assert (List.last l a = p) as ->.
  { rewrite <- (last_cons_default a l 0), E. apply last_last. }
  rewrite E, <- (app_assoc c [p] [x]). simpl app.
  rewrite (path_app h c p [x]), path_pair. done.
Qed.

Lemma path_cons_hd h x l a :
  path h (x :: l ++ [a]) ↔ link h x (hd a l) ∧ path h (l ++ [a]).
Proof. destruct l; simpl; tauto. Qed.

Lemma path_gap h a l1 l2 :
  path h (a :: (l1 ++ l2) ++ [a]) ↔
  path h (a :: l1) ∧ link h (List.last l1 a) (hd a l2) ∧ path h (l2 ++ [a]).
Proof.
  destruct l2 as [|q l2]; simpl hd.
  - rewrite app_nil_r, path_snoc_last. simpl. tauto.
  - rewrite <- app_assoc.
    change (a :: l1 ++ (q :: l2) ++ [a])
      with ((a :: l1) ++ q :: (l2 ++ [a])).
    rewrite path_app. change ((a :: l1) ++ [q]) with (a :: l1 ++ [q]).
    rewrite path_snoc_last. simpl app. tauto.
Qed.

Lemma path_elem h a l1 x l2 :
  path h (a :: (l1 ++ x :: l2) ++ [a]) ↔
  path h (a :: l1) ∧ link h (List.last l1 a) x ∧
  link h x (hd a l2) ∧ path h (l2 ++ [a]).
Proof.
  rewrite <- app_assoc.
  change (a :: l1 ++ (x :: l2) ++ [a]) with ((a :: l1) ++ x :: (l2 ++ [a])).
  rewrite path_app. change ((a :: l1) ++ [x]) with (a :: l1 ++ [x]).
  rewrite path_snoc_last, path_cons_hd. tauto.
Qed.

Lemma removelast_elem c y d :
  NoDup c → y ∈ removelast c → y ∈ c ∧ y ≠ List.last c d.
Proof.
  destruct c as [|a l]; [by intros _ ?%elem_of_nil|].
  destruct (snoc_view a l) as (c & p & ->).
  rewrite removelast_last, last_last. intros Hnd Hy.
  apply NoDup_app in Hnd as (_ & Hd & _). split; [set_solver|].
  intros ->. apply (Hd _ Hy). set_solver.
Qed.

Lemma tail_elem l a y :
  NoDup (l ++ [a]) → y ∈ tail (l ++ [a]) → y ∈ l ++ [a] ∧ y ≠ hd a l.
Proof.
  destruct l as [|b l]; simpl; [by intros _ ?%elem_of_nil|].
  intros Hnd Hy. apply NoDup_cons in Hnd as [Hb _]. split; [set_solver|].
  by intros ->.
Qed.

(** The prefix of a list survives a change away from its nodes. *)
Lemma path_frame_front h h' a l :
  NoDup (a :: l) → path h (a :: l) →
  (∀ y, y ∈ a :: l → y ≠ List.last l a → nxt h' y = nxt h y) →
  (∀ y, y ∈ l → prv h' y = prv h y) →
  path h' (a :: l).
Proof.
  intros Hnd Hp Fn Fp. apply (path_frame h); [done| |done].
  intros y Hy. apply (removelast_elem _ _ 0) in Hy as [? Hy]; [|done].
  rewrite last_cons_default in Hy. by apply Fn.
Qed.

(** The suffix of a list survives a change away from its nodes. *)
Lemma path_frame_back h h' a l :
  NoDup (l ++ [a]) → path h (l ++ [a]) →
  (∀ y, y ∈ l → nxt h' y = nxt h y) →
  (∀ y, y ∈ l ++ [a] → y ≠ hd a l → prv h' y = prv h y) →
  path h' (l ++ [a]).
Proof.
  intros Hnd Hp Fn Fp. apply (path_frame h); [done| |].
  - intros y Hy. rewrite removelast_last in Hy. by apply Fn.
  - intros y Hy. apply tail_elem in Hy as [? Hy]; [|done]. by apply Fp.
Qed.

Lemma same_outside_nxt S h h' y :
  same_outside S h h' → y ∉ S → nxt h' y = nxt h y.
Proof. intros HS Hy. unfold nxt. by rewrite HS. Qed.

Lemma same_outside_prv S h h' y :
  same_outside S h h' → y ∉ S → prv h' y = prv h y.
Proof. intros HS Hy. unfold prv. by rewrite HS. Qed.

Lemma same_outside_intro S h h' :
  (∀ y, y ∉ S → nxt h' y = nxt h y) →
  (∀ y, y ∉ S → prv h' y = prv h y) →
  same_outside S h h'.
Proof.
  intros Hn Hp y Hy. specialize (Hn y Hy). specialize (Hp y Hy).
  unfold nxt, prv in *.
  destruct (h' !! y) as [[]|], (h !! y) as [[]|]; naive_solver.
Qed.

Lemma same_outside_refl S h : same_outside S h h.
Proof. by intros y _. Qed.

Lemma same_outside_trans S1 S2 S h1 h2 h3 :
  same_outside S1 h1 h2 → same_outside S2 h2 h3 →
  (∀ y, y ∈ S1 → y ∈ S) → (∀ y, y ∈ S2 → y ∈ S) →
  same_outside S h1 h3.
Proof.
  intros H1 H2 I1 I2 y Hy. rewrite H2, H1; [done| |]; naive_solver.
Qed.

(** A list disjoint from the changed nodes is untouched. *)
Lemma is_list_frame S h h' b l :
  is_list h b l → same_outside S h h' →
  (∀ y, y ∈ b :: l → y ∉ S) →
  is_list h' b l.
Proof.
  intros [Hnd Hp] HS Hd. split; [done|].
  apply (path_frame h); [done| |].
  - intros y Hy. apply (same_outside_nxt S); [done|]. apply Hd.
    change (b :: l ++ [b]) with ((b :: l) ++ [b]) in Hy.
    by rewrite removelast_last in Hy.
  - intros y Hy. apply (same_outside_prv S); [done|]. apply Hd.
    simpl in Hy. set_solver.
Qed.

End zipper.

(** ** Node operations on a represented list *)

(** *** A solver for membership in pairwise disjoint segments *)

Definition disj (L R : list nat) : Prop := ∀ x, x ∈ L → x ∉ R.

Lemma disj_cons_l a L R : disj (a :: L) R → (a ∉ R) ∧ disj L R.
Proof. unfold disj. set_solver. Qed.

Lemma disj_app_l L1 L2 R : disj (L1 ++ L2) R → disj L1 R ∧ disj L2 R.
Proof. unfold disj. set_solver. Qed.

Lemma disj_cons_r a L R : disj L (a :: R) → (a ∉ L) ∧ disj L R.
Proof. unfold disj. set_solver. Qed.

Lemma disj_app_r L R1 R2 : disj L (R1 ++ R2) → disj L R1 ∧ disj L R2.
Proof. unfold disj. set_solver. Qed.

Lemma disj_intro L R : (∀ x, x ∈ L → x ∈ R → False) → disj L R.
Proof. unfold disj. set_solver. Qed.

(** Keep the membership facts only. *)
Ltac mem_clean :=
  repeat match goal with
    | H : path _ _ |- _ => clear H
    | H : live _ _ |- _ => clear H
    | H : link _ _ _ |- _ => clear H
    | H : nxt _ _ = _ |- _ => clear H
    | H : prv _ _ = _ |- _ => clear H
    | H : NoDup _ |- _ => clear H
    | H : is_list _ _ _ |- _ => clear H
    | H : self_linked _ _ |- _ => clear H
    | H : same_outside _ _ _ |- _ => clear H
    end;
  simpl app in *.

(** Break the negative facts down to single segments (no case split). *)
Ltac mem_neg :=
  repeat match goal with
    | H : ∀ x, x ∈ ?L → x ∉ ?R |- _ => change (disj L R) in H
    | H : disj (_ :: _) _ |- _ => apply disj_cons_l in H as [? H]
    | H : disj (_ ++ _) _ |- _ => apply disj_app_l in H as [? H]
    | H : disj _ (_ :: _) |- _ => apply disj_cons_r in H as [? H]
    | H : disj _ (_ ++ _) |- _ => apply disj_app_r in H as [? H]
    | H : disj [] _ |- _ => clear H
    | H : disj _ [] |- _ => clear H
    | H : _ ∉ _ :: _ |- _ => apply not_elem_of_cons in H as [? H]
    | H : _ ∉ _ ++ _ |- _ => apply not_elem_of_app in H as [? H]
    | H : _ ∉ [] |- _ => clear H
    end.

(** Find two facts that contradict each other. *)
Ltac mem_close :=
  solve
    [ done
    | match goal with
      | H1 : ?v ∈ ?l, H2 : ?v ∉ ?l |- _ => exact (H2 H1)
      | H1 : ?v ∈ ?l1, H2 : ?v ∈ ?l2, D : disj ?l1 ?l2 |- _ =>
          exact (D v H1 H2)
      | H : ?v ∈ [] |- _ => by apply elem_of_nil in H
      | H : ?v ≠ ?v |- _ => by destruct H
      end ].

(** Break the positive facts down, closing each case. *)
Ltac mem_pos :=
  first
    [ mem_close
    | match goal with
      | H : _ ∈ _ :: _ |- _ =>
          apply elem_of_cons in H as [H|H]; [subst|]; mem_pos
      | H : _ ∈ _ ++ _ |- _ =>
          apply elem_of_app in H as [H|H]; mem_pos
      end ].

(** The neighbours of a position are named, and only their membership
    facts are kept, before a membership goal is solved. *)
Ltac name_ends :=
  cbn [hd List.last] in *;
  repeat match goal with
    | |- context [hd ?a ?l] =>
        let n := fresh "n" in set (n := hd a l) in *; clearbody n
    | |- context [List.last ?l ?a] =>
        let p := fresh "p" in set (p := List.last l a) in *; clearbody p
    | H : context [hd ?a ?l] |- _ =>
        let n := fresh "n" in set (n := hd a l) in *; clearbody n
    | H : context [List.last ?l ?a] |- _ =>
        let p := fresh "p" in set (p := List.last l a) in *; clearbody p
    end.

Ltac mem_goal :=
  repeat match goal with
    | |- _ ∉ _ => intros ?
    | |- _ ≠ _ => intros ?
    | |- disj _ _ => apply disj_intro; intros ? ? ?
    | |- ∀ _, _ => intros ?
    | |- _ ∧ _ => split
    end.

Ltac mem_refute := exfalso; mem_clean; subst; mem_neg; mem_pos.

Ltac mem_solve :=
  name_ends; mem_goal;
  lazymatch goal with
  | |- ?v ∈ ?L => destruct (decide (v ∈ L)); [assumption | mem_refute]
  | |- NoDup _ => assumption
  | |- _ => mem_refute
  end.

(** Rebuild a [NoDup] from those of the segments. *)
Ltac nodup_goal :=
  simpl app;
  repeat first
    [ assumption
    | apply NoDup_nil_2
    | apply NoDup_cons; split
    | apply NoDup_app; split; [|split] ];
  mem_solve.

(** Close a side condition "this node is none of the rewired ones". *)
Ltac frame_tac :=
  intros; name_ends;
  rewrite ?nxt_removed, ?prv_removed, ?nxt_inserted_before,
    ?prv_inserted_before, ?nxt_inserted_after, ?prv_inserted_after,
    ?nxt_spliced, ?prv_spliced by done;
  repeat case_decide; subst; try done; exfalso; mem_solve.

Section list_prims.
Implicit Types (h : gmap nat intrusive_list_node) (a b x y p q : nat).
Implicit Types (c l : list nat).

Lemma NoDup_front a l1 l2 : NoDup (a :: l1 ++ l2) → NoDup (a :: l1).
Proof.
  intros H. apply NoDup_cons in H as [H1 H].
  apply NoDup_app in H as (H2 & H3 & H4).
  apply NoDup_cons. mem_solve.
Qed.

Lemma NoDup_back a l1 l2 : NoDup (a :: l1 ++ l2) → NoDup (l2 ++ [a]).
Proof.
  intros H. apply NoDup_cons in H as [H1 H].
  apply NoDup_app in H as (H2 & H3 & H4).
  apply NoDup_app. split; [done|]. split; [|apply NoDup_singleton].
  mem_solve.
Qed.

(** Unlinking an element. *)
Lemma remove_elem h a l1 x l2 :
  is_list h a (l1 ++ x :: l2) →
  ∃ h', node.remove x h = Some (x, h') ∧
        is_list h' a (l1 ++ l2) ∧ self_linked h' x ∧
        same_outside (a :: l1 ++ x :: l2) h h'.
Proof.
  intros Hl.
  pose proof (is_list_nxt _ _ _ _ _ Hl) as Hn.
  pose proof (is_list_prv _ _ _ _ _ Hl) as Hp.
  pose proof (hd_elem a l2) as En. pose proof (last_elem a l1) as Ep.
  assert (live h x) as Lx by eauto with heap.
  assert (live h (hd a l2)) as Ln
    by (apply (is_list_live _ _ _ _ Hl); mem_solve).
  assert (live h (List.last l1 a)) as Lp
    by (apply (is_list_live _ _ _ _ Hl); mem_solve).
  exists (removed x (hd a l2) (List.last l1 a) h).
  split; [by apply remove_exec|].
  destruct Hl as [Hnd Hpath].
  apply path_elem in Hpath as (P1 & L1 & L2 & P2).
  assert (NoDup (a :: l1)) as N1 by (by apply NoDup_front in Hnd).
  assert (NoDup (l2 ++ [a])) as N2.
  { apply (NoDup_back a (l1 ++ [x])). by rewrite <- app_assoc. }
  assert (NoDup (a :: l1 ++ l2)) as N3.
  { apply NoDup_cons in Hnd as [H1 Hnd].
    apply NoDup_app in Hnd as (H2 & H3 & Hnd).
    apply NoDup_cons in Hnd as [H4 Hnd].
    apply NoDup_cons. split; [mem_solve|].
    apply NoDup_app. mem_solve. }
  nodup_facts Hnd.
  split; [split|split]; [done| | |].
  - apply path_gap. split; [|split].
    + apply (path_frame_front h); [done|done|frame_tac|frame_tac].
    + split; frame_tac.
    + apply (path_frame_back h); [done|done|frame_tac|frame_tac].
  - apply self_linked_nxt_prv. split; frame_tac.
  - apply same_outside_intro; frame_tac.
Qed.

(** Linking a node in front of a position: the position is the first
    element of [l2], or the header when [l2] is empty. *)
Lemma insert_before_gap h a l1 l2 x :
  is_list h a (l1 ++ l2) → live h x → x ∉ a :: l1 ++ l2 →
  ∃ h', node.insert_before (hd a l2) x h = Some (tt, h') ∧
        is_list h' a (l1 ++ x :: l2) ∧
        same_outside (x :: a :: l1 ++ l2) h h'.
Proof.
  intros Hl Lx Hx.
  pose proof (hd_elem a l2) as En. pose proof (last_elem a l1) as Ep.
  assert (live h (hd a l2)) as Ln
    by (apply (is_list_live _ _ _ _ Hl); mem_solve).
  assert (live h (List.last l1 a)) as Lp
    by (apply (is_list_live _ _ _ _ Hl); mem_solve).
  destruct Hl as [Hnd Hpath].
  apply path_gap in Hpath as (P1 & [L1 L2] & P2).
  exists (inserted_before (hd a l2) (List.last l1 a) x h).
  split; [by apply insert_before_exec|].
  assert (NoDup (a :: l1)) as N1 by (by apply NoDup_front in Hnd).
  assert (NoDup (l2 ++ [a])) as N2 by (by apply NoDup_back in Hnd).
  assert (NoDup (a :: l1 ++ x :: l2)) as N3.
  { apply NoDup_cons in Hnd as [H1 Hnd].
    apply NoDup_app in Hnd as (H2 & H3 & Hnd).
    apply NoDup_cons. split; [mem_solve|].
    apply NoDup_app. split; [done|]. split; [mem_solve|].
    apply NoDup_cons. mem_solve. }
  nodup_facts Hnd.
  split; [split|]; [done| |].
  - apply path_elem. split; [|split; [|split]].
    + apply (path_frame_front h); [done|done|frame_tac|frame_tac].
    + split; frame_tac.
    + split; frame_tac.
    + apply (path_frame_back h); [done|done|frame_tac|frame_tac].
  - apply same_outside_intro; frame_tac.
Qed.

(** Linking a node behind a position: the position is the last element
    of [l1], or the header when [l1] is empty. *)
Lemma insert_after_gap h a l1 l2 x :
  is_list h a (l1 ++ l2) → live h x → x ∉ a :: l1 ++ l2 →
  ∃ h', node.insert_after (List.last l1 a) x h = Some (tt, h') ∧
        is_list h' a (l1 ++ x :: l2) ∧
        same_outside (x :: a :: l1 ++ l2) h h'.
Proof.
  intros Hl Lx Hx.
  pose proof (hd_elem a l2) as En. pose proof (last_elem a l1) as Ep.
  assert (live h (hd a l2)) as Ln
    by (apply (is_list_live _ _ _ _ Hl); mem_solve).
  assert (live h (List.last l1 a)) as Lp
    by (apply (is_list_live _ _ _ _ Hl); mem_solve).
  destruct Hl as [Hnd Hpath].
  apply path_gap in Hpath as (P1 & [L1 L2] & P2).
  exists (inserted_after (List.last l1 a) (hd a l2) x h).
  split; [by apply insert_after_exec|].
  assert (NoDup (a :: l1)) as N1 by (by apply NoDup_front in Hnd).
  assert (NoDup (l2 ++ [a])) as N2 by (by apply NoDup_back in Hnd).
  assert (NoDup (a :: l1 ++ x :: l2)) as N3.
  { apply NoDup_cons in Hnd as [H1 Hnd].
    apply NoDup_app in Hnd as (H2 & H3 & Hnd).
    apply NoDup_cons. split; [mem_solve|].
    apply NoDup_app. split; [done|]. split; [mem_solve|].
    apply NoDup_cons. mem_solve. }
  nodup_facts Hnd.
  split; [split|]; [done| |].
  - apply path_elem. split; [|split; [|split]].
    + apply (path_frame_front h); [done|done|frame_tac|frame_tac].
    + split; frame_tac.
    + split; frame_tac.
    + apply (path_frame_back h); [done|done|frame_tac|frame_tac].
  - apply same_outside_intro; frame_tac.
Qed.

Lemma last_app_cons l1 x l2 d : List.last (l1 ++ x :: l2) d = List.last l2 x.
Proof.
  revert d. induction l1 as [|b l1 IH]; intros d; simpl app.
  - apply last_cons_default.
  - rewrite last_cons_default. apply IH.
Qed.

Lemma path_range h a l1 f m l2 :
  path h (a :: (l1 ++ (f :: m) ++ l2) ++ [a]) ↔
  path h (a :: l1) ∧ link h (List.last l1 a) f ∧ path h (f :: m) ∧
  link h (List.last m f) (hd a l2) ∧ path h (l2 ++ [a]).
Proof.
  rewrite app_assoc, path_gap, (last_app_cons l1 f m a).
  change (a :: l1 ++ f :: m) with ((a :: l1) ++ f :: m).
  rewrite path_app. change ((a :: l1) ++ [f]) with (a :: l1 ++ [f]).
  rewrite path_snoc_last. tauto.
Qed.

(** Splicing a range of one list in front of a position of another. *)
Lemma splice_lists h a l1 l2 b m1 f m2 m3 :
  is_list h a (l1 ++ l2) → is_list h b (m1 ++ (f :: m2) ++ m3) →
  (∀ y, y ∈ a :: l1 ++ l2 → y ∉ b :: m1 ++ (f :: m2) ++ m3) →
  ∃ h', ilist.splice (hd a l2) f (hd b m3) h = Some (tt, h') ∧
        is_list h' a (l1 ++ (f :: m2) ++ l2) ∧ is_list h' b (m1 ++ m3) ∧
        same_outside ((a :: l1 ++ l2) ++ (b :: m1 ++ (f :: m2) ++ m3)) h h'.
Proof.
  intros Ha Hb Hd.
  pose proof (hd_elem a l2) as Ena. pose proof (last_elem a l1) as Epa.
  pose proof (hd_elem b m3) as Enb. pose proof (last_elem b m1) as Epb.
  pose proof (last_elem f m2) as Epf.
  assert (live h (hd a l2)) as Lna
    by (apply (is_list_live _ _ _ _ Ha); mem_solve).
  assert (live h (List.last l1 a)) as Lpa
    by (apply (is_list_live _ _ _ _ Ha); mem_solve).
  assert (live h (hd b m3)) as Lnb
    by (apply (is_list_live _ _ _ _ Hb); mem_solve).
  assert (live h (List.last m1 b)) as Lpb
    by (apply (is_list_live _ _ _ _ Hb); mem_solve).
  assert (live h (List.last m2 f)) as Lpf
    by (apply (is_list_live _ _ _ _ Hb); mem_solve).
  assert (live h f) as Lf
    by (apply (is_list_live _ _ _ _ Hb); mem_solve).
  destruct Ha as [Hnda Hpa]. destruct Hb as [Hndb Hpb].
  apply path_gap in Hpa as (P1 & [L1 L2] & P2).
  apply path_range in Hpb as (Q1 & [K1 K2] & Q2 & [K3 K4] & Q3).
  assert (NoDup (a :: l1)) as N1 by (by apply NoDup_front in Hnda).
  assert (NoDup (l2 ++ [a])) as N2 by (by apply NoDup_back in Hnda).
  assert (NoDup (b :: m1)) as N3 by (by apply NoDup_front in Hndb).
  assert (NoDup (m3 ++ [b])) as N4.
  { apply (NoDup_back b (m1 ++ f :: m2)). by rewrite <- app_assoc. }
  assert (NoDup (f :: m2)) as N5.
  { apply NoDup_cons in Hndb as [_ Hndb].
    apply NoDup_app in Hndb as (_ & _ & Hndb).
    by apply NoDup_app in Hndb as (Hndb & _ & _). }
  nodup_facts Hnda. nodup_facts Hndb.
  assert (f ≠ hd b m3) as Hfl.
  { name_ends. intros ->. mem_solve. }
  exists (spliced (hd a l2) f (hd b m3) (List.last l1 a) (List.last m1 b)
            (List.last m2 f) h).
  split; [by apply splice_exec|].
  split; [split|split; [split|]].
  - nodup_goal.
  - apply path_range. split; [|split; [|split; [|split]]].
    + apply (path_frame_front h); [done|done|frame_tac|frame_tac].
    + split; frame_tac.
    + apply (path_frame_front h); [done|done|frame_tac|frame_tac].
    + split; frame_tac.
    + apply (path_frame_back h); [done|done|frame_tac|frame_tac].
  - nodup_goal.
  - apply path_gap. split; [|split].
    + apply (path_frame_front h); [done|done|frame_tac|frame_tac].
    + split; frame_tac.
    + apply (path_frame_back h); [done|done|frame_tac|frame_tac].
  - apply same_outside_intro; frame_tac.
Qed.

End list_prims.

(** ** [merge]: the loop and the sequence it computes *)

Lemma same_outside_weaken S S' (h h' : gmap nat intrusive_list_node) :
  same_outside S h h' → (∀ y, y ∈ S → y ∈ S') → same_outside S' h h'.
Proof. intros H HS y Hy. apply H. intros ?. apply Hy. by apply HS. Qed.

(** Reduce the binds of pure steps. *)
Ltac mret := repeat (rewrite bind_ret; cbn beta).

(** Run a step whose outcome [E] is known. *)
Ltac mstep E :=
  cbn beta; repeat (rewrite bind_bind; cbn beta);
  rewrite (bind_Some _ _ _ _ _ E); cbn beta.

Section merge_seq.
Variable compare : nat → nat → bool.

(** The element sequence the loop of [merge] produces from the two
    sequences still ahead of [this_iter] and [other_iter]. *)
Fixpoint merge_seq (la : list nat) : list nat → list nat :=
  fix go (lb : list nat) : list nat :=
    match la, lb with
    | [], _ => lb
    | _, [] => la
    | x :: la', y :: lb' =>
        if compare x y then x :: merge_seq la' lb else y :: go lb'
    end.

Lemma merge_seq_nil_l lb : merge_seq [] lb = lb.
Proof. by destruct lb. Qed.

Lemma merge_seq_nil_r la : merge_seq la [] = la.
Proof. by destruct la. Qed.

Lemma merge_seq_cons x la y lb :
  merge_seq (x :: la) (y :: lb) =
    if compare x y then x :: merge_seq la (y :: lb)
    else y :: merge_seq (x :: la) lb.
Proof. done. Qed.

Arguments merge_seq : simpl never.

Lemma merge_loop_spec fuel :
  ∀ (h : gmap nat intrusive_list_node) a b pre la lb,
  is_list h a (pre ++ la) → is_list h b lb →
  disj (a :: pre ++ la) (b :: lb) →
  length la + length lb < fuel →
  ∃ h', ilist.merge_loop compare fuel a b (hd a la) (hd b lb) h
          = Some (tt, h') ∧
        is_list h' a (pre ++ merge_seq la lb) ∧ is_list h' b [] ∧
        same_outside ((a :: pre ++ la) ++ (b :: lb)) h h'.
Proof.
  induction fuel as [|fuel IH]; intros h a b pre la lb Ha Hb Hd Hf; [lia|].
  simpl ilist.merge_loop. unfold ilist.end_. mret.
  destruct la as [|x la].
  - (* this_iter == end() *)
    cbn [hd]. rewrite Nat.eqb_refl. mret.
    destruct lb as [|y lb].
    + cbn [hd]. unfold ilist.splice. rewrite Nat.eqb_refl.
      exists h. rewrite merge_seq_nil_l.
      split; [done|]. split; [done|]. split; [done|].
      apply same_outside_refl.
    + destruct (splice_lists h a pre [] b [] y lb [])
        as (h' & E & Ha' & Hb' & Hout); [done|by rewrite app_nil_r| |].
      { simpl. rewrite !app_nil_r in *. exact Hd. }
      exists h'. rewrite merge_seq_nil_l. simpl in *.
      rewrite !app_nil_r in *. done.
  - assert (x ≠ a) as Hxa by (destruct Ha as [Hnd _]; nodup_facts Hnd; mem_solve).
    cbn [hd]. apply Nat.eqb_neq in Hxa. rewrite Hxa. mret.
    destruct lb as [|y lb].
    + cbn [hd]. rewrite Nat.eqb_refl. exists h. rewrite merge_seq_nil_r.
      split; [done|]. split; [done|]. split; [done|].
      apply same_outside_refl.
    + assert (y ≠ b) as Hyb
        by (destruct Hb as [Hnd _]; nodup_facts Hnd; mem_solve).
      cbn [hd]. apply Nat.eqb_neq in Hyb. rewrite Hyb.
      rewrite merge_seq_cons. destruct (compare x y).
      * (* ++this_iter *)
        erewrite exec_get_next by (eapply is_list_nxt; exact Ha).
        destruct (IH h a b (pre ++ [x]) la (y :: lb))
          as (h' & E & Ha' & Hb' & Hout).
        { by rewrite <- app_assoc. }
        { done. }
        { by rewrite <- app_assoc. }
        { simpl in *. lia. }
        exists h'. rewrite <- !app_assoc in *. simpl in *. done.
      * (* insert(this_iter, remove( *other_iter++)) *)
        mret.
        erewrite exec_get_next
          by (eapply (is_list_nxt _ _ []); exact Hb).
        destruct (remove_elem h b [] y lb Hb)
          as (h1 & E1 & Hb1 & Hy1 & Hout1).
        unfold ilist.remove. rewrite (bind_Some _ _ _ _ _ E1).
        assert (is_list h1 a (pre ++ x :: la)) as Ha1.
        { eapply is_list_frame; [exact Ha|exact Hout1|].
          unfold disj in Hd. simpl app. intros z Hz. by apply Hd. }
        destruct (insert_before_gap h1 a pre (x :: la) y Ha1)
          as (h2 & E2 & Ha2 & Hout2).
        { apply self_linked_nxt_prv in Hy1 as [? _]. eauto with heap. }
        { intros Hy. apply (Hd _ Hy). mem_solve. }
        unfold ilist.insert. cbn [hd] in E2.
        rewrite bind_bind, (bind_Some _ _ _ _ _ E2). mret.
        assert (is_list h2 b lb) as Hb2.
        { eapply is_list_frame; [exact Hb1|exact Hout2|].
          destruct Hb as [Hnd _]. nodup_facts Hnd. clear IH.
          intros z Hz Hz'. apply elem_of_cons in Hz' as [->|Hz'].
          - mem_solve.
          - apply (Hd _ Hz'). mem_solve. }
        destruct (IH h2 a b (pre ++ [y]) (x :: la) lb)
          as (h' & E & Ha' & Hb' & Hout).
        { by rewrite <- app_assoc. }
        { done. }
        { rewrite <- app_assoc. simpl app.
          destruct Hb as [Hnd _]. nodup_facts Hnd. clear IH.
          apply disj_intro. intros z Hz Hz'.
          assert (z = y ∨ z ∈ a :: pre ++ x :: la) as [->|Hz2] by mem_solve.
          - mem_solve.
          - apply (Hd _ Hz2). mem_solve. }
        { simpl in *. lia. }
        exists h'. cbn [hd] in E. rewrite E.
        rewrite <- !app_assoc in *. simpl app in *.
        split; [done|]. split; [done|]. split; [done|].
        clear IH.
        assert (same_outside ((a :: pre ++ x :: la) ++ b :: y :: lb) h h1)
          as F1 by (eapply same_outside_weaken; [exact Hout1|mem_solve]).
        assert (same_outside ((a :: pre ++ x :: la) ++ b :: y :: lb) h1 h2)
          as F2 by (eapply same_outside_weaken; [exact Hout2|mem_solve]).
        assert (same_outside ((a :: pre ++ x :: la) ++ b :: y :: lb) h2 h')
          as F3 by (eapply same_outside_weaken; [exact Hout|mem_solve]).
        intros z Hz. by rewrite F3, F2, F1.
Qed.

End merge_seq.

(** ** Comparators that are strict weak orders *)

Section strict_weak_order.
Variable compare : nat → nat → bool.

(** Neither element precedes the other. *)
Definition equivalent (x y : nat) : Prop :=
  compare x y = false ∧ compare y x = false.

Record strict_weak_order : Prop := {
  swo_irrefl : ∀ x, compare x x = false;
  swo_trans : ∀ x y z,
    compare x y = true → compare y z = true → compare x z = true;
  swo_equiv_trans : ∀ x y z,
    equivalent x y → equivalent y z → equivalent x z
}.

(** [y] does not precede [x]. *)
Definition not_after (x y : nat) : Prop := compare y x = false.

(** Ascending order, as [std::is_sorted] tests it: no element precedes
    its left neighbour. *)
Definition sorted (l : list nat) : Prop := Sorted not_after l.

(** Ascending order between every two positions. *)
Definition fully_sorted (l : list nat) : Prop := StronglySorted not_after l.

Hypothesis swo : strict_weak_order.

Lemma swo_asym x y : compare x y = true → compare y x = false.
Proof.
  intros Hxy. destruct (compare y x) eqn:Hyx; [|done].
  pose proof (swo_trans swo _ _ _ Hxy Hyx) as H.
  by rewrite (swo_irrefl swo) in H.
Qed.

Lemma not_after_trans x y z : not_after x y → not_after y z → not_after x z.
Proof.
  unfold not_after. intros Hyx Hzy.
  destruct (compare z x) eqn:Hzx; [|done]. exfalso.
  destruct (compare x y) eqn:Hxy.
  { pose proof (swo_trans swo _ _ _ Hzx Hxy). congruence. }
  destruct (compare y z) eqn:Hyz.
  { pose proof (swo_trans swo _ _ _ Hyz Hzx). congruence. }
  destruct (swo_equiv_trans swo x y z) as [_ ?]; [done|done|congruence].
Qed.

Global Instance not_after_transitive : Transitive not_after.
Proof. intros x y z. apply not_after_trans. Qed.

Lemma sorted_fully_sorted l : sorted l ↔ fully_sorted l.
Proof.
  split.
  - apply Sorted_StronglySorted. apply not_after_transitive.
  - apply StronglySorted_Sorted.
Qed.

Lemma fully_sorted_cons x l :
  fully_sorted (x :: l) ↔ Forall (not_after x) l ∧ fully_sorted l.
Proof.
  split.
  - intros H. by apply StronglySorted_inv in H as [? ?].
  - intros [? ?]. by constructor.
Qed.

(** *** [merge_seq] on sorted sequences *)

Lemma merge_seq_perm la lb : merge_seq compare la lb ≡ₚ la ++ lb.
Proof.
  revert lb. induction la as [|x la IHa]; intros lb.
  - by rewrite merge_seq_nil_l.
  - induction lb as [|y lb IHb].
    + by rewrite merge_seq_nil_r, app_nil_r.
    + rewrite merge_seq_cons. destruct (compare x y).
      * simpl. by rewrite IHa.
      * rewrite IHb. apply Permutation_middle.
Qed.

Lemma merge_seq_Forall (P : nat → Prop) la lb :
  Forall P la → Forall P lb → Forall P (merge_seq compare la lb).
Proof.
  intros Ha Hb. rewrite merge_seq_perm. by apply Forall_app.
Qed.

Lemma merge_seq_fully_sorted la lb :
  fully_sorted la → fully_sorted lb →
  fully_sorted (merge_seq compare la lb).
Proof.
  revert lb. induction la as [|x la IHa]; intros lb Ha Hb.
  - by rewrite merge_seq_nil_l.
  - induction lb as [|y lb IHb].
    + by rewrite merge_seq_nil_r.
    + rewrite merge_seq_cons.
      apply fully_sorted_cons in Ha as [Hxa Ha'].
      apply fully_sorted_cons in Hb as [Hyb Hb'].
      destruct (compare x y) eqn:Hxy.
      * apply fully_sorted_cons. split.
        -- apply merge_seq_Forall; [done|]. constructor.
           ++ by apply swo_asym.
           ++ eapply Forall_impl; [exact Hyb|]. intros z Hz.
              eapply not_after_trans; [|exact Hz]. by apply swo_asym.
        -- apply IHa; [done|]. by apply fully_sorted_cons.
      * apply fully_sorted_cons. split.
        -- apply merge_seq_Forall; [|done]. constructor; [done|].
           eapply Forall_impl; [exact Hxa|]. intros z Hz.
           eapply not_after_trans; [|exact Hz]. done.
        -- apply IHb. done.
Qed.

(** *** Where [merge_seq] puts equivalent elements *)

Lemma before_cons x y z l : before x y l → before x y (z :: l).
Proof. intros (l1 & l2 & l3 & ->). by exists (z :: l1), l2, l3. Qed.

Lemma before_head x y l : y ∈ l → before x y (x :: l).
Proof.
  intros (l2 & l3 & ->)%list_elem_of_split. by exists [], l2, l3.
Qed.

Lemma before_app_l x y l l' : before x y l → before x y (l' ++ l).
Proof.
  intros (l1 & l2 & l3 & ->). exists (l' ++ l1), l2, l3.
  by rewrite <- app_assoc.
Qed.

(** An element of [lb] is placed ahead of every element of [la] that
    does not precede it. *)
Lemma merge_seq_other_first la lb x y :
  fully_sorted lb → x ∈ la → y ∈ lb → compare x y = false →
  before y x (merge_seq compare la lb).
Proof.
  revert lb. induction la as [|x1 la IHa]; intros lb Hb Hx Hy Hxy.
  { by apply elem_of_nil in Hx. }
  induction lb as [|y1 lb IHb].
  { by apply elem_of_nil in Hy. }
  rewrite merge_seq_cons.
  pose proof Hb as Hb0.
  apply fully_sorted_cons in Hb as [Hyb Hb'].
  destruct (compare x1 y1) eqn:H1.
  - apply before_cons. apply IHa; [done| |done|done].
    apply elem_of_cons in Hx as [<-|Hx]; [exfalso|done].
    apply elem_of_cons in Hy as [<-|Hy]; [congruence|].
    rewrite Forall_forall in Hyb. specialize (Hyb _ Hy).
    assert (not_after y1 x) as Hc
      by (eapply not_after_trans; [exact Hyb|exact Hxy]).
    unfold not_after in Hc. congruence.
  - apply elem_of_cons in Hy as [->|Hy].
    + apply before_head. rewrite merge_seq_perm.
      apply elem_of_app. by left.
    + apply before_cons. by apply IHb.
Qed.

End strict_weak_order.

(** ** [sort]: the two loops and the sequence they compute *)

Section sort_seq.
Variable compare : nat → nat → bool.

(** Where the inner loop stops.  [rp] holds the elements in front of
    [j], nearest first; [q] those from [j] up to [i], excluded.  The
    result is what is left in front of the final [j], and the elements
    from it on. *)
Fixpoint scan (i : nat) (rp q : list nat) : list nat * list nat :=
  match rp with
  | [] => ([], q)
  | e :: rp' => if compare i e then scan i rp' (e :: q) else (rp, q)
  end.

(** One iteration of the outer loop: [i] moves in front of [j]. *)
Definition place (i : nat) (pre : list nat) : list nat :=
  rev (scan i (rev pre) []).1 ++ i :: (scan i (rev pre) []).2.

(** The outer loop, [pre] being the elements already visited. *)
Fixpoint sort_from (pre rest : list nat) : list nat :=
  match rest with
  | [] => pre
  | i :: rest' => sort_from (place i pre) rest'
  end.

Definition sort_seq (l : list nat) : list nat := sort_from [] l.

Lemma scan_app i rp q :
  rev (scan i rp q).1 ++ (scan i rp q).2 = rev rp ++ q.
Proof.
  revert q. induction rp as [|e rp IH]; intros q; simpl; [done|].
  destruct (compare i e); simpl; [|done].
  rewrite IH, <- app_assoc. done.
Qed.

Lemma hd_app_cons (q : list nat) i rest :
  ∃ l2, q ++ i :: rest = hd i q :: l2.
Proof. destruct q; simpl; eauto. Qed.

Lemma sort_scan_spec (h : gmap nat intrusive_list_node) a i rest rp :
  ∀ q fuel,
  is_list h a (rev rp ++ q ++ i :: rest) → length rp < fuel →
  ilist.sort_scan compare fuel a i (hd i q) h
    = Some (hd i (scan i rp q).2, h).
Proof.
  induction rp as [|e rp IH]; intros q fuel Hl Hf;
    (destruct fuel as [|fuel]; [simpl in Hf; lia|]);
    simpl ilist.sort_scan; unfold ilist.begin.
  - erewrite exec_get_next by (eapply is_list_begin; exact Hl).
    simpl rev. simpl app.
    destruct (hd_app_cons q i rest) as (l2 & ->). cbn [hd].
    by rewrite Nat.eqb_refl.
  - erewrite exec_get_next by (eapply is_list_begin; exact Hl).
    destruct (hd_app_cons q i rest) as (l2 & E).
    simpl rev in *. rewrite E in Hl. rewrite E.
    assert (hd a ((rev rp ++ [e]) ++ hd i q :: l2) ≠ hd i q) as Hne.
    { destruct Hl as [Hnd _]. nodup_facts Hnd.
      assert (hd a ((rev rp ++ [e]) ++ hd i q :: l2) ∈ rev rp ++ [e]) as Hin.
      { destruct (rev rp); simpl; [apply list_elem_of_here..]. }
      mem_solve. }
    cbn [rev].
    assert ((hd i q =? hd a ((rev rp ++ [e]) ++ hd i q :: l2)) = false)
      as -> by (apply Nat.eqb_neq; congruence).
    assert (prv h (hd i q) = Some e) as Hp.
    { rewrite (is_list_prv _ _ _ _ _ Hl). by rewrite last_last. }
    erewrite exec_get_previous by exact Hp.
    simpl scan. destruct (compare i e).
    + erewrite exec_get_previous by exact Hp.
      apply (IH (e :: q)); [|simpl in Hf; lia].
      simpl app. rewrite E. rewrite <- app_assoc in Hl. exact Hl.
    + done.
Qed.

Lemma sort_loop_spec (a : nat) rest :
  ∀ pre fuel sf (h : gmap nat intrusive_list_node),
  is_list h a (pre ++ rest) →
  length rest < fuel → length (pre ++ rest) < sf →
  ∃ h', ilist.sort_loop compare sf fuel a (hd a rest) h = Some (tt, h') ∧
        is_list h' a (sort_from pre rest) ∧
        same_outside (a :: pre ++ rest) h h'.
Proof.
  induction rest as [|i rest IH]; intros pre fuel sf h Hl Hf Hsf;
    (destruct fuel as [|fuel]; [simpl in Hf; lia|]);
    simpl ilist.sort_loop; unfold ilist.end_; mret; cbn [hd].
  - rewrite Nat.eqb_refl. exists h. rewrite app_nil_r in *.
    split; [done|]. split; [done|]. apply same_outside_refl.
  - assert (i ≠ a) as Hia
      by (destruct Hl as [Hnd _]; nodup_facts Hnd; mem_solve).
    apply Nat.eqb_neq in Hia. rewrite Hia.
    erewrite exec_get_next by (eapply is_list_nxt; exact Hl).
    erewrite bind_Some; cycle 1.
    { apply (sort_scan_spec h a i rest (rev pre) []).
      - by rewrite rev_involutive.
      - rewrite length_rev. rewrite length_app in Hsf. lia. }
    pose proof (scan_app i (rev pre) []) as Hsc.
    rewrite rev_involutive, app_nil_r in Hsc.
    simpl sort_from. unfold place.
    destruct (scan i (rev pre) []) as [rq q2]. simpl fst in *. simpl snd in *.
    destruct q2 as [|j q2]; cbn [hd].
    + (* i == j: nothing moves *)
      rewrite Nat.eqb_refl. mret.
      rewrite app_nil_r in Hsc. rewrite Hsc.
      destruct (IH (pre ++ [i]) fuel sf h) as (h' & E & Hl' & Hout).
      { by rewrite <- app_assoc. }
      { simpl in Hf. lia. }
      { rewrite <- app_assoc. done. }
      exists h'. split; [done|]. split; [done|].
      by rewrite <- app_assoc in Hout.
    + (* insert(j, remove( *i)) *)
      subst pre.
      assert (i ≠ j) as Hij
        by (destruct Hl as [Hnd _]; nodup_facts Hnd; mem_solve).
      apply Nat.eqb_neq in Hij. rewrite Hij.
      destruct (remove_elem h a (rev rq ++ j :: q2) i rest Hl)
        as (h1 & E1 & Hl1 & Hi1 & Hout1).
      unfold ilist.remove, ilist.insert. mstep E1.
      destruct (insert_before_gap h1 a (rev rq) ((j :: q2) ++ rest) i)
        as (h2 & E2 & Hl2 & Hout2).
      { by rewrite <- app_assoc in Hl1. }
      { apply self_linked_nxt_prv in Hi1 as [? _]. eauto with heap. }
      { destruct Hl as [Hnd _]. nodup_facts Hnd. mem_solve. }
      cbn [hd app] in E2. mstep E2. mret.
      destruct (IH (rev rq ++ i :: j :: q2) fuel sf h2)
        as (h' & E & Hl' & Hout).
      { rewrite <- app_assoc. exact Hl2. }
      { simpl in Hf. lia. }
      { clear -Hsf. rewrite !length_app in *. simpl in *.
        rewrite ?length_app in *. simpl in *. lia. }
      exists h'. split; [done|]. split; [done|].
      clear IH.
      assert (same_outside (a :: (rev rq ++ j :: q2) ++ i :: rest) h1 h2)
        as F2 by (eapply same_outside_weaken; [exact Hout2|mem_solve]).
      assert (same_outside (a :: (rev rq ++ j :: q2) ++ i :: rest) h2 h')
        as F3 by (eapply same_outside_weaken; [exact Hout|mem_solve]).
      intros z Hz. by rewrite F3, F2, Hout1.
Qed.

End sort_seq.

(** ** [sort_seq] under a strict weak order *)

Section sort_props.
Variable compare : nat → nat → bool.
Hypothesis swo : strict_weak_order compare.

Global Instance equivalent_dec x y : Decision (equivalent compare x y).
Proof. unfold equivalent. apply _. Defined.

Lemma equivalent_refl x : equivalent compare x x.
Proof. split; apply (swo_irrefl _ swo). Qed.

Lemma equivalent_sym x y : equivalent compare x y → equivalent compare y x.
Proof. intros [? ?]. by split. Qed.

(** What [scan] returns: the elements it passed are all preceded by
    [i], and the one it stopped at is not. *)
Lemma scan_passed i rp q :
  Forall (λ e, compare i e = true) q →
  Forall (λ e, compare i e = true) (scan compare i rp q).2.
Proof.
  revert q. induction rp as [|e rp IH]; intros q Hq; simpl; [done|].
  destruct (compare i e) eqn:E; simpl; [|done].
  apply IH. by constructor.
Qed.

Lemma scan_stopped i rp q e rq :
  (scan compare i rp q).1 = e :: rq → compare i e = false.
Proof.
  revert q. induction rp as [|e' rp IH]; intros q; simpl; [done|].
  destruct (compare i e') eqn:E; simpl.
  - apply IH.
  - by intros [= -> ->].
Qed.

Lemma place_perm i pre : place compare i pre ≡ₚ i :: pre.
Proof.
  unfold place. rewrite <- Permutation_middle.
  by rewrite scan_app, rev_involutive, app_nil_r.
Qed.

Lemma sort_from_perm pre rest : sort_from compare pre rest ≡ₚ pre ++ rest.
Proof.
  revert pre. induction rest as [|i rest IH]; intros pre; simpl.
  - by rewrite app_nil_r.
  - rewrite IH, place_perm. by rewrite <- Permutation_middle.
Qed.

Lemma place_fully_sorted i pre :
  fully_sorted compare pre → fully_sorted compare (place compare i pre).
Proof.
  intros Hs. unfold place.
  pose proof (scan_app compare i (rev pre) []) as Hsc.
  rewrite rev_involutive, app_nil_r in Hsc.
  pose proof (scan_passed i (rev pre) [] (Forall_nil_2 _)) as Hq.
  pose proof (scan_stopped i (rev pre) []) as Hst.
  destruct (scan compare i (rev pre) []) as [rq q2]. simpl in *.
  rewrite <- Hsc in Hs. unfold fully_sorted in *.
  apply StronglySorted_app in Hs as (Hx & H1 & H2).
  apply StronglySorted_app. split; [|split; [done|]].
  - intros x1 x2 Hx1 Hx2. apply elem_of_cons in Hx2 as [->|Hx2]; [|auto].
    destruct rq as [|e rq]; [by apply elem_of_nil in Hx1|].
    specialize (Hst e rq eq_refl).
    simpl in Hx1. apply elem_of_app in Hx1 as [Hx1|Hx1].
    + eapply (not_after_trans compare swo); [|exact Hst].
      simpl in H1. apply StronglySorted_app in H1 as (H1 & _ & _).
      apply H1; [done|]. apply list_elem_of_here.
    + apply list_elem_of_singleton in Hx1 as ->. exact Hst.
  - apply StronglySorted_cons. split; [|done].
    eapply Forall_impl; [exact Hq|]. intros e He.
    by apply (swo_asym compare swo).
Qed.

Lemma sort_from_fully_sorted pre rest :
  fully_sorted compare pre →
  fully_sorted compare (sort_from compare pre rest).
Proof.
  revert pre. induction rest as [|i rest IH]; intros pre Hs; simpl.
  - done.
  - apply IH. by apply place_fully_sorted.
Qed.

(** *** Stability: each class of equivalent elements keeps its order *)

Lemma filter_none (P : nat → Prop) `{∀ x, Decision (P x)} l :
  Forall (λ e, ¬ P e) l → filter P l = [].
Proof.
  induction 1 as [|e l He _ IH]; [done|].
  by rewrite filter_cons_False.
Qed.

Lemma place_filter v i pre :
  filter (equivalent compare v) (place compare i pre) =
  filter (equivalent compare v) (pre ++ [i]).
Proof.
  unfold place.
  pose proof (scan_app compare i (rev pre) []) as Hsc.
  rewrite rev_involutive, app_nil_r in Hsc.
  pose proof (scan_passed i (rev pre) [] (Forall_nil_2 _)) as Hq.
  destruct (scan compare i (rev pre) []) as [rq q2]. simpl in *.
  rewrite <- Hsc, !filter_app, filter_cons, <- app_assoc. f_equal.
  rewrite filter_cons, filter_nil.
  destruct (decide (equivalent compare v i)) as [Hv|Hv].
  - assert (filter (equivalent compare v) q2 = []) as ->; [|done].
    apply filter_none. eapply Forall_impl; [exact Hq|].
    intros e He He'.
    destruct (swo_equiv_trans _ swo i v e) as [? _];
      [by apply equivalent_sym|done|congruence].
  - by rewrite app_nil_r.
Qed.

Lemma sort_from_filter v pre rest :
  filter (equivalent compare v) (sort_from compare pre rest) =
  filter (equivalent compare v) (pre ++ rest).
Proof.
  revert pre. induction rest as [|i rest IH]; intros pre; simpl.
  - by rewrite app_nil_r.
  - rewrite IH, !filter_app, place_filter, filter_app, <- app_assoc.
    f_equal. by rewrite (filter_cons _ i rest), filter_cons, filter_nil;
      destruct (decide (equivalent compare v i)).
Qed.

Lemma before_filter (P : nat → Prop) `{∀ x, Decision (P x)} x y l :
  before x y l → P x → P y → before x y (filter P l).
Proof.
  intros (l1 & l2 & l3 & ->) Hx Hy.
  exists (filter P l1), (filter P l2), (filter P l3).
  rewrite filter_app, filter_cons_True, filter_app, filter_cons_True; done.
Qed.

Lemma before_filter_inv (P : nat → Prop) `{∀ x, Decision (P x)} x y l :
  before x y (filter P l) → before x y l.
Proof.
  induction l as [|a l IH]; [done|].
  rewrite filter_cons. destruct (decide (P a)); [|by intros; apply before_cons, IH].
  intros (l1 & l2 & l3 & E). destruct l1 as [|a' l1]; simplify_eq/=.
  - apply before_head.
    assert (y ∈ filter P l) as Hy by (rewrite H1; set_solver).
    by apply list_elem_of_filter in Hy as [_ ?].
  - apply before_cons, IH. by exists l1, l2, l3.
Qed.

Lemma sort_seq_stable l x y :
  equivalent compare x y → before x y l → before x y (sort_seq compare l).
Proof.
  intros Hxy Hb.
  apply (before_filter_inv (equivalent compare x)).
  unfold sort_seq. rewrite sort_from_filter. simpl.
  apply before_filter; [done|apply equivalent_refl|done].
Qed.

Lemma sort_seq_perm l : sort_seq compare l ≡ₚ l.
Proof. apply sort_from_perm. Qed.

Lemma sort_seq_fully_sorted l : fully_sorted compare (sort_seq compare l).
Proof. apply sort_from_fully_sorted. constructor. Qed.

End sort_props.

(** ** [unique]: the loop and the sequence it computes *)

Section unique_seq.
Variable pred : nat → nat → bool.

(** The loop of [unique] with [iter] at [x] and [rest] behind it. *)
Fixpoint unique_from (x : nat) (rest : list nat) : list nat :=
  match rest with
  | [] => [x]
  | y :: rest' =>
      if pred x y then unique_from x rest' else x :: unique_from y rest'
  end.

Definition unique_seq (l : list nat) : list nat :=
  match l with
  | [] => []
  | x :: rest => unique_from x rest
  end.

Lemma unique_from_elem x rest z : z ∈ unique_from x rest → z ∈ x :: rest.
Proof.
  revert x. induction rest as [|y rest IH]; intros x; simpl; [done|].
  destruct (pred x y).
  - intros Hz%IH. apply elem_of_cons in Hz as [->|Hz];
      [apply list_elem_of_here|by do 2 apply list_elem_of_further].
  - intros [->|Hz%IH]%elem_of_cons;
      [apply list_elem_of_here|by apply list_elem_of_further].
Qed.

Lemma unique_from_hd x rest : ∃ t, unique_from x rest = x :: t.
Proof.
  induction rest as [|y rest IH]; simpl; [by eexists|].
  destruct (pred x y); [done|by eexists].
Qed.

Lemma unique_loop_spec (a : nat) rest :
  ∀ x pre fuel (h : gmap nat intrusive_list_node),
  is_list h a (pre ++ x :: rest) → length rest < fuel →
  ∃ h', ilist.unique_loop pred fuel a x h = Some (tt, h') ∧
        is_list h' a (pre ++ unique_from x rest) ∧
        (∀ z, z ∈ rest → z ∉ unique_from x rest → self_linked h' z) ∧
        same_outside (a :: pre ++ x :: rest) h h'.
Proof.
  induction rest as [|y rest IH]; intros x pre fuel h Hl Hf;
    (destruct fuel as [|fuel]; [simpl in Hf; lia|]);
    simpl ilist.unique_loop; unfold ilist.end_; mret;
    erewrite exec_get_previous by (eapply is_list_back; exact Hl);
    rewrite last_app_cons.
  - simpl. rewrite Nat.eqb_refl. exists h.
    split; [done|]. split; [done|].
    split; [by intros z ?%elem_of_nil|]. apply same_outside_refl.
  - assert (x ≠ List.last (y :: rest) x) as Hne.
    { pose proof (last_elem y rest) as Hin.
      rewrite <- (last_cons_default y rest x) in Hin.
      destruct Hl as [Hnd _]. nodup_facts Hnd. mem_solve. }
    apply Nat.eqb_neq in Hne. rewrite Hne.
    erewrite exec_get_next by (eapply is_list_nxt; exact Hl).
    cbn [hd]. simpl unique_from. destruct (pred x y).
    + (* remove( *next_iter) *)
      pose proof Hl as [Hnd _].
      replace (pre ++ x :: y :: rest) with ((pre ++ [x]) ++ y :: rest) in Hl
        by (by rewrite <- app_assoc).
      destruct (remove_elem h a (pre ++ [x]) y rest Hl)
        as (h1 & E1 & Hl1 & Hy1 & Hout1).
      unfold ilist.remove. mstep E1.
      rewrite <- app_assoc in Hl1.
      destruct (IH x pre fuel h1) as (h' & E & Hl' & Hsl & Hout);
        [done|simpl in Hf; lia|].
      exists h'. split; [done|]. split; [done|]. clear IH.
      assert (same_outside (a :: pre ++ x :: y :: rest) h h1)
        as F1 by (eapply same_outside_weaken; [exact Hout1|mem_solve]).
      assert (same_outside (a :: pre ++ x :: y :: rest) h1 h')
        as F2 by (eapply same_outside_weaken; [exact Hout|mem_solve]).
      split; [|intros z Hz; by rewrite F2, F1].
      intros z Hz Hnz. apply elem_of_cons in Hz as [->|Hz]; [|by apply Hsl].
      unfold self_linked. rewrite Hout; [done|].
      nodup_facts Hnd. mem_solve.
    + (* ++iter *)
      erewrite exec_get_next by (eapply is_list_nxt; exact Hl).
      cbn [hd].
      destruct (IH y (pre ++ [x]) fuel h) as (h' & E & Hl' & Hsl & Hout).
      { by rewrite <- app_assoc. }
      { simpl in Hf. lia. }
      exists h'. rewrite <- !app_assoc in *.
      split; [done|]. split; [done|]. split; [|done].
      intros z Hz Hnz. apply Hsl.
      * apply elem_of_cons in Hz as [->|Hz]; [|done].
        exfalso. apply Hnz. apply list_elem_of_further.
        destruct (unique_from_hd y rest) as (t & ->).
        apply list_elem_of_here.
      * intros ?. apply Hnz. by apply list_elem_of_further.
Qed.

(** *** The same result said with runs *)

(** The maximal runs of consecutive elements related by [pred]. *)
Fixpoint runs (l : list nat) : list (list nat) :=
  match l with
  | [] => []
  | x :: l' =>
      match runs l' with
      | (y :: g) :: gs => if pred x y then (x :: y :: g) :: gs
                          else [x] :: (y :: g) :: gs
      | _ => [[x]]
      end
  end.

(** Keep the first element of every run. *)
Definition run_heads (l : list nat) : list nat :=
  omap head (runs l).

Hypothesis pred_refl : ∀ x, pred x x = true.
Hypothesis pred_sym : ∀ x y, pred x y = true → pred y x = true.
Hypothesis pred_trans : ∀ x y z,
  pred x y = true → pred y z = true → pred x z = true.

Lemma pred_congr x y z : pred x y = true → pred x z = pred y z.
Proof.
  intros Hxy. destruct (pred y z) eqn:Hyz.
  - by apply (pred_trans x y z).
  - destruct (pred x z) eqn:Hxz; [|done].
    rewrite <- Hyz. symmetry. apply (pred_trans y x z); [|done].
    by apply pred_sym.
Qed.

Lemma unique_from_equiv x y rest :
  pred x y = true → unique_from x rest = x :: tail (unique_from y rest).
Proof.
  intros Hxy. induction rest as [|z rest IH]; simpl; [done|].
  rewrite (pred_congr x y z Hxy). destruct (pred y z); [done|].
  done.
Qed.

Lemma runs_cons x l : ∃ g gs, runs (x :: l) = (x :: g) :: gs.
Proof.
  simpl. destruct (runs l) as [|[|y g] gs]; [by eexists _, _..|].
  destruct (pred x y); by eexists _, _.
Qed.

Lemma unique_from_run_heads x rest :
  unique_from x rest = run_heads (x :: rest).
Proof.
  revert x. induction rest as [|y rest IH]; intros x; [done|].
  unfold run_heads in *. specialize (IH y).
  destruct (runs_cons y rest) as (g & gs & E).
  change (runs (x :: y :: rest))
    with (match runs (y :: rest) with
          | (y :: g) :: gs => if pred x y then (x :: y :: g) :: gs
                              else [x] :: (y :: g) :: gs
          | _ => [[x]]
          end).
  rewrite E in *. simpl unique_from.
  destruct (pred x y) eqn:Hxy.
  - rewrite (unique_from_equiv x y rest Hxy), IH. done.
  - rewrite IH. done.
Qed.

Lemma unique_seq_run_heads l : unique_seq l = run_heads l.
Proof. destruct l as [|x rest]; [done|]. apply unique_from_run_heads. Qed.

End unique_seq.

(** ** Doubly-linked consistency under the node operations *)

Section consistency.
Implicit Types (h : gmap nat intrusive_list_node) (a b x y f g n p : nat).

Definition fwd_back h : Prop := ∀ f g, nxt h f = Some g → prv h g = Some f.
Definition back_fwd h : Prop := ∀ f g, prv h f = Some g → nxt h g = Some f.

Lemma consistent_alt h : consistent h ↔ fwd_back h ∧ back_fwd h.
Proof.
  unfold consistent, fwd_back, back_fwd, nxt, prv. split.
  - intros H. split; intros f g Hf;
      destruct (h !! f) as [nd|] eqn:E; simplify_eq/=;
      by destruct (H _ _ E).
  - intros [H1 H2] f nd E. split; [apply H1|apply H2]; by rewrite E.
Qed.

Lemma consistent_live_nxt h x :
  consistent h → live h x →
  ∃ n p, nxt h x = Some n ∧ prv h x = Some p ∧
         prv h n = Some x ∧ nxt h p = Some x.
Proof.
  intros H [nd E]. destruct (H _ _ E) as [? ?].
  exists (next_ nd), (previous_ nd). unfold nxt, prv. rewrite E. done.
Qed.


End consistency.

(** Add the partner of every known link, then decide by equalities. *)
Ltac link_saturate F B :=
  repeat match goal with
    | H : nxt ?h ?a = Some ?b |- _ =>
        lazymatch goal with
        | _ : prv h b = Some a |- _ => fail
        | _ => pose proof (F _ _ H)
        end
    | H : prv ?h ?a = Some ?b |- _ =>
        lazymatch goal with
        | _ : nxt h b = Some a |- _ => fail
        | _ => pose proof (B _ _ H)
        end
    end.

Ltac link_solve F B :=
  repeat case_decide; simplify_eq; link_saturate F B;
  first [ done | congruence | by apply F | by apply B ].

Section consistency_ops.
Implicit Types (h : gmap nat intrusive_list_node) (a b x y f g n p : nat).


Lemma consistent_removed h x n p :
  consistent h → nxt h x = Some n → prv h x = Some p →
  consistent (removed x n p h).
Proof.
  intros [F B]%consistent_alt Hn Hp.
  assert (live h x) by eauto with heap.
  assert (live h n) by (apply F in Hn; eauto with heap).
  assert (live h p) by (apply B in Hp; eauto with heap).
  apply consistent_alt. split; intros f g;
    rewrite nxt_removed, prv_removed by done; intros Hfg;
    link_solve F B.
Qed.




End consistency_ops.

(** ** Moving a node *)

Section move.
Implicit Types (h : gmap nat intrusive_list_node) (a b x y f g n p : nat).

(** The heap after the two unlinking assignments of move assignment. *)
Definition unlinked (n p : nat) h := upd_next p n (upd_previous n p h).

(** The heap [this.move(other)] leaves when [other] is in a list. *)
Definition moved (this other n p : nat) h :=
  upd_previous other other (upd_next other other
    (upd_next p this (upd_previous n this
      (upd_previous this p (upd_next this n h))))).

(** The heap [this.move(other)] leaves when [other] is in no list. *)
Definition reset (this : nat) h := upd_previous this this (upd_next this this h).

Lemma move_exec_in_list h this other n p :
  this ≠ other → live h this →
  nxt h other = Some n → prv h other = Some p → n ≠ other →
  live h n → live h p →
  node.move this other h = Some (tt, moved this other n p h).
Proof.
  intros Hne Lt Hn Hp Hno Ln Lp.
  unfold node.move, node.in_list, node.clear, moved.
  exec. rewrite (proj2 (Nat.eqb_neq n other) Hno). cbn [negb].
  exec. done.
Qed.

Lemma move_exec_not_in_list h this other :
  live h this → nxt h other = Some other →
  node.move this other h = Some (tt, reset this h).
Proof.
  intros Lt Hn. unfold node.move, node.in_list, reset.
  exec. rewrite Nat.eqb_refl. cbn [negb].
  exec. done.
Qed.

Lemma unlink_exec {B} h this n p (k : M B) :
  nxt h this = Some n → prv h this = Some p → live h n → live h p →
  (n' <- get_next this ;; p' <- get_previous this ;; set_previous n' p' ;;
   p' <- get_previous this ;; n' <- get_next this ;; set_next p' n' ;; k) h
  = k (unlinked n p h).
Proof. intros Hn Hp Ln Lp. unfold unlinked. exec. done. Qed.

Lemma nxt_unlinked h n p y :
  live h p →
  nxt (unlinked n p h) y = if decide (y = p) then Some n else nxt h y.
Proof. intros. unfold unlinked. heap_solve. Qed.

Lemma prv_unlinked h n p y :
  live h n →
  prv (unlinked n p h) y = if decide (y = n) then Some p else prv h y.
Proof. intros. unfold unlinked. heap_solve. Qed.

Lemma live_unlinked h n p y : live (unlinked n p h) y ↔ live h y.
Proof. unfold unlinked. by rewrite live_upd_next, live_upd_previous. Qed.

Lemma nxt_moved h this other n p y :
  live h this → live h other → live h p →
  nxt (moved this other n p h) y =
    if decide (y = other) then Some other
    else if decide (y = p) then Some this
    else if decide (y = this) then Some n else nxt h y.
Proof. intros. unfold moved. heap_solve. Qed.

Lemma prv_moved h this other n p y :
  live h this → live h other → live h n →
  prv (moved this other n p h) y =
    if decide (y = other) then Some other
    else if decide (y = n) then Some this
    else if decide (y = this) then Some p else prv h y.
Proof. intros. unfold moved. heap_solve. Qed.

Lemma live_moved h this other n p y :
  live (moved this other n p h) y ↔ live h y.
Proof. unfold moved. by rewrite !live_upd_previous, !live_upd_next,
  !live_upd_previous, live_upd_next. Qed.

Lemma nxt_reset h this y :
  live h this →
  nxt (reset this h) y = if decide (y = this) then Some this else nxt h y.
Proof. intros. unfold reset. heap_solve. Qed.

Lemma prv_reset h this y :
  live h this →
  prv (reset this h) y = if decide (y = this) then Some this else prv h y.
Proof. intros. unfold reset. heap_solve. Qed.

Lemma get_next_Some_live {B} x (k : nat → M B) h r :
  bind (get_next x) k h = Some r → live h x.
Proof.
  unfold bind, get_next, live. destruct (h !! x); [eauto|done].
Qed.




End move.

(** ** Moving and swapping whole lists *)

Ltac move_frame_tac :=
  intros; name_ends;
  rewrite ?nxt_moved, ?prv_moved, ?nxt_reset, ?prv_reset,
    ?nxt_unlinked, ?prv_unlinked by (done || by apply live_unlinked);
  repeat case_decide; subst; try done; exfalso; mem_solve.

Section list_move.
Implicit Types (h : gmap nat intrusive_list_node) (a b x y f g n p : nat).
Implicit Types (l : list nat).

Lemma move_assign_lists h dst ld src ls :
  is_list h dst ld → is_list h src ls → disj (dst :: ld) (src :: ls) →
  ∃ h', ilist.move_assign dst src h = Some (tt, h') ∧
        is_list h' dst ls ∧ is_list h' src [] ∧
        same_outside ((dst :: ld) ++ (src :: ls)) h h'.
Proof.
  intros Hd Hs Hdisj.
  pose proof (is_list_begin _ _ _ Hd) as Hn.
  pose proof (is_list_back _ _ _ Hd) as Hp.
  pose proof (is_list_begin _ _ _ Hs) as Hsn.
  pose proof (is_list_back _ _ _ Hs) as Hsp.
  pose proof (hd_elem dst ld) as En. pose proof (last_elem dst ld) as Ep.
  pose proof (hd_elem src ls) as Esn. pose proof (last_elem src ls) as Esp.
  assert (live h dst) as Ld by eauto with heap.
  assert (live h src) as Ls by eauto with heap.
  assert (live h (hd dst ld)) as Ln by (by apply (is_list_live _ _ _ _ Hd)).
  assert (live h (List.last ld dst)) as Lp
    by (by apply (is_list_live _ _ _ _ Hd)).
  assert (live h (hd src ls)) as Lsn by (by apply (is_list_live _ _ _ _ Hs)).
  assert (live h (List.last ls src)) as Lsp
    by (by apply (is_list_live _ _ _ _ Hs)).
  assert (dst ≠ src) as Hne by mem_solve.
  unfold ilist.move_assign, node.move_assign.
  rewrite (unlink_exec h dst (hd dst ld) (List.last ld dst)) by done.
  assert (nxt (unlinked (hd dst ld) (List.last ld dst) h) src
          = Some (hd src ls)) as Hsn1.
  { rewrite nxt_unlinked by done. rewrite <- Hsn. move_frame_tac. }
  assert (prv (unlinked (hd dst ld) (List.last ld dst) h) src
          = Some (List.last ls src)) as Hsp1.
  { rewrite prv_unlinked by done. rewrite <- Hsp. move_frame_tac. }
  destruct Hs as [Hnds Hps]. destruct Hd as [Hndd Hpd].
  destruct ls as [|f ls].
  - (* the source is empty *)
    rewrite (move_exec_not_in_list _ dst src);
      [|by apply live_unlinked|done].
    eexists. split; [done|]. simpl in *.
    nodup_facts Hndd. 
    split; [|split].
    + apply is_list_nil, self_linked_nxt_prv. split; move_frame_tac.
    + apply is_list_nil, self_linked_nxt_prv.
      destruct Hps as [[? ?] _]. split.
      * rewrite nxt_reset, nxt_unlinked by (done || by apply live_unlinked).
        repeat case_decide; subst; try done; exfalso; name_ends; mem_solve.
      * rewrite prv_reset, prv_unlinked by (done || by apply live_unlinked).
        repeat case_decide; subst; try done; exfalso; name_ends; mem_solve.
    + apply same_outside_intro; move_frame_tac.
  - (* the source has a first element [f] *)
    cbn [hd] in *. rewrite last_cons_default in *.
    assert (f ≠ src) as Hf by (nodup_facts Hnds; mem_solve).
    pose proof (last_elem f ls) as Ee.
    rewrite (move_exec_in_list _ dst src f (List.last ls f));
      [|done|by apply live_unlinked|done|done|done
       |by apply live_unlinked|by apply live_unlinked].
    eexists. split; [done|].
    apply (path_gap h src [] (f :: ls)) in Hps as (_ & _ & Hps).
    change ((f :: ls) ++ [src]) with (f :: ls ++ [src]) in Hps.
    apply path_snoc_last in Hps as [Hps _].
    assert (NoDup (f :: ls)) as Nf by (by apply NoDup_cons_1_2 in Hnds).
    assert (NoDup (dst :: f :: ls)) as Nd.
    { apply NoDup_cons. split; [mem_solve|done]. }
    nodup_facts Hndd. nodup_facts Hnds.
    split; [|split].
    + split; [done|].
      apply (path_gap _ dst [] (f :: ls)). split; [done|]. split.
      * split; move_frame_tac.
      * change ((f :: ls) ++ [dst]) with (f :: ls ++ [dst]).
        apply path_snoc_last. split.
        -- apply (path_frame_front h); [done|done| |]; move_frame_tac.
        -- split; move_frame_tac.
    + apply is_list_nil, self_linked_nxt_prv. split; move_frame_tac.
    + apply same_outside_intro; move_frame_tac.
Qed.

End list_move.

(** ** Removing, popping and pushing *)

Section remove_facts.
Implicit Types (h : gmap nat intrusive_list_node) (a b x y f g n p : nat).
Implicit Types (l : list nat).

(** Unlinking a self-linked node writes back what is already there. *)
Lemma removed_self h x : self_linked h x → removed x x x h = h.
Proof.
  intros Hx. pose proof Hx as [Hn Hp]%self_linked_nxt_prv.
  assert (live h x) by eauto with heap.
  apply heap_eq; intros y;
    rewrite ?nxt_removed, ?prv_removed by done;
    repeat case_decide; by subst.
Qed.

Lemma remove_self_linked h x :
  self_linked h x → node.remove x h = Some (x, h).
Proof.
  intros Hx. pose proof Hx as [Hn Hp]%self_linked_nxt_prv.
  rewrite (remove_exec h x x x) by eauto with heap.
  by rewrite removed_self.
Qed.

Lemma self_linked_removed h x n p :
  live h x → live h n → live h p → self_linked (removed x n p h) x.
Proof.
  intros. apply self_linked_nxt_prv.
  rewrite nxt_removed, prv_removed by done. by rewrite !decide_True.
Qed.

Lemma in_list_self_linked h x :
  self_linked h x → node.in_list x h = Some (false, h).
Proof.
  intros [Hn _]%self_linked_nxt_prv. unfold node.in_list.
  erewrite exec_get_next by exact Hn. unfold ret.
  by rewrite Nat.eqb_refl.
Qed.

Lemma in_list_elem h a l x :
  is_list h a l → x ∈ l → node.in_list x h = Some (true, h).
Proof.
  intros Hl Hx. pose proof (is_list_elem_in_list _ _ _ _ Hl Hx) as Hne.
  apply list_elem_of_split in Hx as (l1 & l2 & ->).
  pose proof (is_list_nxt _ _ _ _ _ Hl) as Hn. unfold node.in_list.
  erewrite exec_get_next by exact Hn. unfold ret.
  assert (hd a l2 ≠ x) as E%Nat.eqb_neq by congruence. by rewrite E.
Qed.

(** [push_back] of a node that is in no list. *)
Lemma push_back_spec h this l x :
  is_list h this l → self_linked h x → x ≠ this →
  ∃ h', ilist.push_back this x h = Some (tt, h') ∧
        is_list h' this (l ++ [x]) ∧
        same_outside (x :: this :: l) h h'.
Proof.
  intros Hl Hx Hne.
  assert (x ∉ l) as Hxl.
  { intros Hin. apply (is_list_elem_in_list _ _ _ _ Hl Hin).
    by apply self_linked_nxt_prv in Hx as [? _]. }
  destruct (insert_before_gap h this l [] x) as (h' & E & Hl' & Hout).
  - by rewrite app_nil_r.
  - apply self_linked_nxt_prv in Hx as [? _]. eauto with heap.
  - rewrite app_nil_r. by apply not_elem_of_cons.
  - exists h'. unfold ilist.push_back.
    rewrite (bind_Some _ _ _ _ _ (in_list_self_linked _ _ Hx)).
    cbn [hd] in E. rewrite app_nil_r in Hout. done.
Qed.

(** [push_front] of a node that is in no list. *)
Lemma push_front_spec h this l x :
  is_list h this l → self_linked h x → x ≠ this →
  ∃ h', ilist.push_front this x h = Some (tt, h') ∧
        is_list h' this (x :: l) ∧
        same_outside (x :: this :: l) h h'.
Proof.
  intros Hl Hx Hne.
  assert (x ∉ l) as Hxl.
  { intros Hin. apply (is_list_elem_in_list _ _ _ _ Hl Hin).
    by apply self_linked_nxt_prv in Hx as [? _]. }
  destruct (insert_after_gap h this [] l x) as (h' & E & Hl' & Hout).
  - done.
  - apply self_linked_nxt_prv in Hx as [? _]. eauto with heap.
  - by apply not_elem_of_cons.
  - exists h'. unfold ilist.push_front.
    rewrite (bind_Some _ _ _ _ _ (in_list_self_linked _ _ Hx)).
    cbn [List.last] in E. done.
Qed.

(** Popping an empty list removes the header from its own chain. *)
Lemma pop_front_empty h this :
  is_list h this [] → ilist.pop_front this h = Some (tt, h).
Proof.
  intros Hx%is_list_nil. pose proof Hx as [Hn Hp]%self_linked_nxt_prv.
  unfold ilist.pop_front. erewrite exec_get_next by exact Hn.
  by rewrite (bind_Some _ _ _ _ _ (remove_self_linked _ _ Hx)).
Qed.

Lemma pop_back_empty h this :
  is_list h this [] → ilist.pop_back this h = Some (tt, h).
Proof.
  intros Hx%is_list_nil. pose proof Hx as [Hn Hp]%self_linked_nxt_prv.
  unfold ilist.pop_back. erewrite exec_get_previous by exact Hp.
  by rewrite (bind_Some _ _ _ _ _ (remove_self_linked _ _ Hx)).
Qed.

(** Popping a non-empty list. *)
Lemma pop_front_spec h this x l :
  is_list h this (x :: l) →
  ∃ h', ilist.pop_front this h = Some (tt, h') ∧ is_list h' this l ∧
        self_linked h' x ∧ same_outside (this :: x :: l) h h'.
Proof.
  intros Hl. destruct (remove_elem h this [] x l Hl) as (h' & E & ?).
  exists h'. unfold ilist.pop_front.
  erewrite exec_get_next by (eapply is_list_begin; exact Hl).
  cbn [hd]. by rewrite (bind_Some _ _ _ _ _ E).
Qed.

Lemma pop_back_spec h this l x :
  is_list h this (l ++ [x]) →
  ∃ h', ilist.pop_back this h = Some (tt, h') ∧ is_list h' this l ∧
        self_linked h' x ∧ same_outside (this :: l ++ [x]) h h'.
Proof.
  intros Hl. destruct (remove_elem h this l x [] Hl) as (h' & E & Hl' & ?).
  exists h'. unfold ilist.pop_back.
  erewrite exec_get_previous by (eapply is_list_back; exact Hl).
  rewrite last_last. rewrite (bind_Some _ _ _ _ _ E).
  by rewrite app_nil_r in Hl'.
Qed.

(** The elements of a list are determined by the heap. *)
Lemma path_unique h a s l l' :
  a ∉ l → a ∉ l' →
  path h (s :: l ++ [a]) → path h (s :: l' ++ [a]) → l = l'.
Proof.
  revert s l'. induction l as [|x l IH]; intros s [|y l'] Ha Ha' P P'.
  - done.
  - destruct P as [[E _] _]. destruct P' as [[E' _] _].
    exfalso. apply Ha'. rewrite E in E'. simplify_eq. apply list_elem_of_here.
  - destruct P as [[E _] _]. destruct P' as [[E' _] _].
    exfalso. apply Ha. rewrite E in E'. simplify_eq. apply list_elem_of_here.
  - destruct P as [[E _] P]. destruct P' as [[E' _] P'].
    rewrite E in E'. simplify_eq. f_equal.
    apply (IH y); [| |done|done].
    + intros ?. apply Ha. by apply list_elem_of_further.
    + intros ?. apply Ha'. by apply list_elem_of_further.
Qed.

Lemma is_list_unique h a l l' : is_list h a l → is_list h a l' → l = l'.
Proof.
  intros [N P] [N' P']. apply NoDup_cons in N as [? _].
  apply NoDup_cons in N' as [? _]. by apply (path_unique h a a).
Qed.

End remove_facts.

(** ** [swap] *)

Section swap.
Implicit Types (h : gmap nat intrusive_list_node) (a b x y f g n p : nat).
Implicit Types (l : list nat).

(** The heap the four [std::swap]s leave when both lists have a first
    element ([fa], [fb]) and a last element ([ea], [eb]). *)
Definition swapped (a b fa fb ea eb : nat) h :=
  upd_next ea b (upd_next eb a
    (upd_previous fa b (upd_previous fb a
      (upd_previous b ea (upd_previous a eb
        (upd_next b fa (upd_next a fb h))))))).

Lemma swap_exec h a b fa fb ea eb :
  nxt h a = Some fa → nxt h b = Some fb →
  prv h a = Some ea → prv h b = Some eb →
  prv h fa = Some a → prv h fb = Some b →
  nxt h ea = Some a → nxt h eb = Some b →
  a ≠ b → fa ≠ a → fa ≠ b → fb ≠ a → fb ≠ b →
  ea ≠ a → ea ≠ b → eb ≠ a → eb ≠ b →
  ilist.swap a b h = Some (tt, swapped a b fa fb ea eb h).
Proof.
  intros. unfold ilist.swap, std_swap_next, std_swap_previous, swapped.
  exec. done.
Qed.

Lemma nxt_swapped h a b fa fb ea eb y :
  live h a → live h b → live h ea → live h eb →
  nxt (swapped a b fa fb ea eb h) y =
    if decide (y = ea) then Some b
    else if decide (y = eb) then Some a
    else if decide (y = b) then Some fa
    else if decide (y = a) then Some fb else nxt h y.
Proof. intros. unfold swapped. heap_solve. Qed.

Lemma prv_swapped h a b fa fb ea eb y :
  live h a → live h b → live h fa → live h fb →
  prv (swapped a b fa fb ea eb h) y =
    if decide (y = fa) then Some b
    else if decide (y = fb) then Some a
    else if decide (y = b) then Some ea
    else if decide (y = a) then Some eb else prv h y.
Proof. intros. unfold swapped. heap_solve. Qed.

Lemma swap_empty_exec h a b :
  self_linked h a → self_linked h b → a ≠ b →
  ilist.swap a b h = Some (tt, h).
Proof.
  intros [Ha1 Ha2]%self_linked_nxt_prv [Hb1 Hb2]%self_linked_nxt_prv Hne.
  assert (live h a) by eauto with heap.
  assert (live h b) by eauto with heap.
  unfold ilist.swap, std_swap_next, std_swap_previous.
  exec. do 2 f_equal.
  apply heap_eq; intros y; heap_solve.
Qed.

End swap.

Ltac swap_frame_tac :=
  intros; name_ends;
  rewrite ?nxt_swapped, ?prv_swapped by done;
  repeat case_decide; subst; try done; exfalso; mem_solve.

Section swap_lists.
Implicit Types (h : gmap nat intrusive_list_node) (a b x y f g n p : nat).
Implicit Types (l : list nat).

Lemma path_inner h a f l :
  path h (a :: (f :: l) ++ [a]) ↔
  link h a f ∧ path h (f :: l) ∧ link h (List.last l f) a.
Proof.
  change (a :: (f :: l) ++ [a]) with (a :: f :: l ++ [a]).
  rewrite path_cons, path_snoc_last. tauto.
Qed.

(** Swapping two lists that both hold elements. *)
Lemma swap_lists h a fa la b fb lb :
  is_list h a (fa :: la) → is_list h b (fb :: lb) →
  disj (a :: fa :: la) (b :: fb :: lb) →
  ∃ h', ilist.swap a b h = Some (tt, h') ∧
        is_list h' a (fb :: lb) ∧ is_list h' b (fa :: la) ∧
        same_outside ((a :: fa :: la) ++ (b :: fb :: lb)) h h'.
Proof.
  intros Ha Hb Hd.
  pose proof (last_elem fa la) as Eea. pose proof (last_elem fb lb) as Eeb.
  assert (live h a) as La by (apply (is_list_live _ _ _ _ Ha); mem_solve).
  assert (live h b) as Lb by (apply (is_list_live _ _ _ _ Hb); mem_solve).
  assert (live h fa) as Lfa by (apply (is_list_live _ _ _ _ Ha); mem_solve).
  assert (live h fb) as Lfb by (apply (is_list_live _ _ _ _ Hb); mem_solve).
  assert (live h (List.last la fa)) as Lea
    by (apply (is_list_live _ _ _ _ Ha); mem_solve).
  assert (live h (List.last lb fb)) as Leb
    by (apply (is_list_live _ _ _ _ Hb); mem_solve).
  destruct Ha as [Na Pa]. destruct Hb as [Nb Pb].
  apply path_inner in Pa as ([A1 A2] & Pa & [A3 A4]).
  apply path_inner in Pb as ([B1 B2] & Pb & [B3 B4]).
  assert (NoDup (fa :: la)) as Na' by (by apply NoDup_cons_1_2 in Na).
  assert (NoDup (fb :: lb)) as Nb' by (by apply NoDup_cons_1_2 in Nb).
  nodup_facts Na. nodup_facts Nb.
  exists (swapped a b fa fb (List.last la fa) (List.last lb fb) h).
  split; [|split; [|split]].
  - apply swap_exec; try done; name_ends; mem_solve.
  - split; [nodup_goal|]. apply path_inner. split; [|split].
    + split; swap_frame_tac.
    + apply (path_frame_front h); [done|done| |]; swap_frame_tac.
    + split; swap_frame_tac.
  - split; [nodup_goal|]. apply path_inner. split; [|split].
    + split; swap_frame_tac.
    + apply (path_frame_front h); [done|done| |]; swap_frame_tac.
    + split; swap_frame_tac.
  - apply same_outside_intro; swap_frame_tac.
Qed.

End swap_lists.

(** ** Consistency under the list operations *)

Section consistency_lists.
Implicit Types (h : gmap nat intrusive_list_node) (a b x y f g n p : nat).
Implicit Types (l S : list nat).

Definition consistent_at h f : Prop :=
  ∀ nd, h !! f = Some nd →
    prv h (next_ nd) = Some f ∧ nxt h (previous_ nd) = Some f.

Definition closed h S : Prop :=
  ∀ f nd, f ∈ S → h !! f = Some nd → next_ nd ∈ S ∧ previous_ nd ∈ S.

(** A change confined to a set of nodes that is closed under both
    pointers keeps the heap consistent if it is consistent there. *)
Lemma consistent_update h h' S :
  consistent h → same_outside S h h' → closed h S →
  (∀ f, f ∈ S → consistent_at h' f) →
  consistent h'.
Proof.
  intros Hc Hout Hcl Hat f nd Ef.
  destruct (decide (f ∈ S)) as [Hf|Hf]; [by apply Hat|].
  rewrite Hout in Ef by done. destruct (Hc _ _ Ef) as [H1 H2].
  assert (next_ nd ∉ S) as Hn.
  { intros Hin. unfold prv in H1.
    destruct (h !! next_ nd) as [nd2|] eqn:E2; simplify_eq/=.
    destruct (Hcl _ _ Hin E2) as [_ ?]. done. }
  assert (previous_ nd ∉ S) as Hp.
  { intros Hin. unfold nxt in H2.
    destruct (h !! previous_ nd) as [nd2|] eqn:E2; simplify_eq/=.
    destruct (Hcl _ _ Hin E2) as [? _]. done. }
  unfold nxt, prv in *. by rewrite !Hout.
Qed.

Lemma consistent_at_links h f n p :
  link h f n → link h p f → consistent_at h f.
Proof.
  intros [Hn Hn'] [Hp Hp'] nd E. unfold nxt, prv in Hn, Hp'.
  rewrite E in Hn, Hp'. by simplify_eq/=.
Qed.

Lemma consistent_at_self h f : self_linked h f → consistent_at h f.
Proof.
  intros Hf. pose proof Hf as [? ?]%self_linked_nxt_prv.
  by apply (consistent_at_links h f f f).
Qed.

Lemma is_list_links h a l f :
  is_list h a l → f ∈ a :: l → ∃ n p,
    link h f n ∧ link h p f ∧ n ∈ a :: l ∧ p ∈ a :: l.
Proof.
  intros [Hnd Hp] Hf. apply elem_of_cons in Hf as [->|Hf].
  - pose proof (proj1 (path_gap h a [] l) Hp) as (_ & H1 & _).
    rewrite <- (app_nil_r l) in Hp.
    pose proof (proj1 (path_gap h a l []) Hp) as (_ & H2 & _).
    exists (hd a l), (List.last l a). cbn [hd List.last] in *.
    split; [done|]. split; [done|]. split; [apply hd_elem|apply last_elem].
  - apply list_elem_of_split in Hf as (l1 & l2 & ->).
    apply path_elem in Hp as (_ & H1 & H2 & _).
    exists (hd a l2), (List.last l1 a).
    split; [done|]. split; [done|].
    pose proof (hd_elem a l2). pose proof (last_elem a l1).
    split; mem_solve.
Qed.

Lemma is_list_consistent_at h a l f :
  is_list h a l → f ∈ a :: l → consistent_at h f.
Proof.
  intros Hl Hf. destruct (is_list_links h a l f Hl Hf) as (n & p & ? & ? & _).
  by apply (consistent_at_links h f n p).
Qed.

Lemma is_list_closed h a l : is_list h a l → closed h (a :: l).
Proof.
  intros Hl f nd Hf E.
  destruct (is_list_links h a l f Hl Hf) as (n & p & [Hn _] & [_ Hp] & ? & ?).
  unfold nxt, prv in *. rewrite E in Hn, Hp. by simplify_eq/=.
Qed.

Lemma closed_app h S1 S2 : closed h S1 → closed h S2 → closed h (S1 ++ S2).
Proof.
  intros H1 H2 f nd Hf E. apply elem_of_app in Hf as [Hf|Hf].
  - destruct (H1 _ _ Hf E). split; apply elem_of_app; by left.
  - destruct (H2 _ _ Hf E). split; apply elem_of_app; by right.
Qed.

Lemma closed_self h x : self_linked h x → closed h [x].
Proof.
  intros Hx f nd ->%list_elem_of_singleton E.
  unfold self_linked in Hx. rewrite Hx in E. simplify_eq/=.
  split; apply list_elem_of_here.
Qed.

(** *** The operations that work on any live node *)

Lemma consistent_remove h x r h' :
  consistent h → node.remove x h = Some (r, h') →
  consistent h' ∧ self_linked h' x ∧ r = x.
Proof.
  intros Hc E. pose proof (get_next_Some_live _ _ _ _ E) as Lx.
  destruct (consistent_live_nxt h x Hc Lx) as (n & p & Hn & Hp & Hn' & Hp').
  rewrite (remove_exec h x n p) in E by eauto with heap. simplify_eq.
  split; [by apply consistent_removed|]. split; [|done].
  apply self_linked_removed; eauto with heap.
Qed.


















Lemma construct_self_linked h x h' :
  node.construct x h = Some (tt, h') → self_linked h' x ∧ ¬ live h x.
Proof.
  unfold node.construct, self_linked, live.
  destruct (h !! x) eqn:E; intros; simplify_eq. split.
  - by rewrite lookup_insert_eq.
  - by intros [? ?].
Qed.



End consistency_lists.

(** ** The list algorithms, from call to return *)

Section algorithms_spec.
Implicit Types (h : gmap nat intrusive_list_node) (a b x y f : nat).
Implicit Types (l : list nat).

Lemma merge_spec compare fuel h a la b lb :
  is_list h a la → is_list h b lb → disj (a :: la) (b :: lb) →
  length la + length lb < fuel →
  ∃ h', ilist.merge compare fuel a b h = Some (tt, h') ∧
        is_list h' a (merge_seq compare la lb) ∧ is_list h' b [] ∧
        same_outside ((a :: la) ++ (b :: lb)) h h'.
Proof.
  intros Ha Hb Hd Hf. unfold ilist.merge, ilist.begin.
  erewrite exec_get_next by (eapply is_list_begin; exact Ha).
  erewrite exec_get_next by (eapply is_list_begin; exact Hb).
  by apply (merge_loop_spec compare fuel h a b [] la lb).
Qed.

Lemma sort_spec compare fuel h a l :
  is_list h a l → length l < fuel →
  ∃ h', ilist.sort compare fuel a h = Some (tt, h') ∧
        is_list h' a (sort_seq compare l) ∧
        same_outside (a :: l) h h'.
Proof.
  intros Ha Hf. unfold ilist.sort, ilist.begin.
  erewrite exec_get_next by (eapply is_list_begin; exact Ha).
  by apply (sort_loop_spec compare a l [] fuel fuel h).
Qed.

Lemma unique_spec pred fuel h a l :
  is_list h a l → length l ≤ fuel →
  ∃ h', ilist.unique pred fuel a h = Some (tt, h') ∧
        is_list h' a (unique_seq pred l) ∧
        (∀ z, z ∈ l → z ∉ unique_seq pred l → self_linked h' z) ∧
        same_outside (a :: l) h h'.
Proof.
  intros Ha Hf. unfold ilist.unique, ilist.empty, ilist.begin.
  destruct l as [|x rest].
  - pose proof Ha as Hs%is_list_nil.
    rewrite bind_bind, (bind_Some _ _ _ _ _ (in_list_self_linked _ _ Hs)).
    mret. exists h. split; [done|]. split; [done|].
    split; [by intros z ?%elem_of_nil|]. apply same_outside_refl.
  - assert (node.in_list a h = Some (true, h)) as E.
    { pose proof (is_list_begin _ _ _ Ha) as Hn. cbn [hd] in Hn.
      unfold node.in_list. erewrite exec_get_next by exact Hn. unfold ret.
      assert (x ≠ a) as Hxa%Nat.eqb_neq
        by (destruct Ha as [Hnd _]; nodup_facts Hnd; mem_solve).
      by rewrite Hxa. }
    rewrite bind_bind, (bind_Some _ _ _ _ _ E). mret. cbn [negb].
    erewrite exec_get_next by (eapply is_list_begin; exact Ha).
    cbn [hd].
    destruct (unique_loop_spec pred a rest x [] fuel h)
      as (h' & E' & Hl' & Hsl & Hout); [done|simpl in Hf; lia|].
    exists h'. split; [done|]. split; [done|]. split; [|done].
    intros z Hz Hnz. simpl in Hnz.
    apply elem_of_cons in Hz as [->|Hz]; [|by apply Hsl].
    exfalso. apply Hnz. destruct (unique_from_hd pred x rest) as (t & ->).
    apply list_elem_of_here.
Qed.

(** *** They keep the heap consistent *)





End algorithms_spec.

(** ** Deciding the representation on a concrete heap *)

Definition linkb (h : gmap nat intrusive_list_node) (a b : nat) : bool :=
  bool_decide (nxt h a = Some b) && bool_decide (prv h b = Some a).

Fixpoint pathb (h : gmap nat intrusive_list_node) (c : list nat) : bool :=
  match c with
  | a :: c' => match c' with
               | b :: _ => linkb h a b && pathb h c'
               | [] => true
               end
  | [] => true
  end.

Definition is_listb (h : gmap nat intrusive_list_node) (this : nat)
    (l : list nat) : bool :=
  bool_decide (NoDup (this :: l)) && pathb h (this :: l ++ [this]).

Lemma linkb_spec h a b : linkb h a b = true ↔ link h a b.
Proof.
  unfold linkb, link. rewrite andb_true_iff, !bool_decide_eq_true. done.
Qed.

Lemma pathb_spec h c : pathb h c = true ↔ path h c.
Proof.
  induction c as [|a c IH]; [done|].
  destruct c as [|b c]; [done|].
  change (pathb h (a :: b :: c)) with (linkb h a b && pathb h (b :: c)).
  change (path h (a :: b :: c)) with (link h a b ∧ path h (b :: c)).
  by rewrite andb_true_iff, linkb_spec, IH.
Qed.

Lemma is_listb_spec h this l : is_listb h this l = true ↔ is_list h this l.
Proof.
  unfold is_listb, is_list.
  by rewrite andb_true_iff, bool_decide_eq_true, pathb_spec.
Qed.

Lemma is_listb_false h this l : is_listb h this l = false → ¬ is_list h this l.
Proof. intros E H%is_listb_spec. congruence. Qed.

Lemma consistentb_spec h : consistentb h = true ↔ consistent h.
Proof.
  unfold consistentb, consistent. rewrite forallb_forall. split.
  - intros H f nd E. specialize (H (f, nd)). simpl in H.
    rewrite andb_true_iff, !bool_decide_eq_true in H. apply H.
    apply list_elem_of_In, elem_of_map_to_list. done.
  - intros H [f nd] Hin%list_elem_of_In%elem_of_map_to_list. simpl.
    rewrite andb_true_iff, !bool_decide_eq_true. by apply H.
Qed.

Lemma consistentb_false h : consistentb h = false → ¬ consistent h.
Proof. intros E H%consistentb_spec. congruence. Qed.

Definition self_linkedb (h : gmap nat intrusive_list_node) (a : nat) : bool :=
  bool_decide (h !! a = Some (Node a a)).

(** ** Comparing objects by an integer value *)

Definition by_value (value : nat → nat) (a b : nat) : bool :=
  value a <? value b.

Definition same_value (value : nat → nat) (a b : nat) : bool :=
  value a =? value b.

Lemma by_value_swo value : strict_weak_order (by_value value).
Proof.
  unfold by_value. split.
  - intros x. apply Nat.ltb_irrefl.
  - intros x y z. rewrite !Nat.ltb_lt. lia.
  - intros x y z [H1 H2] [H3 H4]. unfold equivalent in *.
    rewrite !Nat.ltb_ge in *. lia.
Qed.

(** The heap a program leaves when run from the empty heap. *)
Definition heap_of (m : M unit) : gmap nat intrusive_list_node :=
  default ∅ (run m ∅).

Definition value_in (vs : list nat) (a : nat) : nat := nth a vs 0.

(** ** States reachable through well-formed calls *)

(** One well-formed call of the interface.  Besides returning, a call
    meets the preconditions the source leaves to the caller: [insert]
    takes a node that is in no list; [splice] takes a position that is
    neither the first nor the last iterator of the range; [merge],
    [unique], [sort] and [swap] take headers of lists, two distinct ones
    where they take two; a move takes two different objects.  [swap] of
    an empty with a non-empty list is not among the steps, and neither
    are the two [erase] members: they name a field [node_] the iterator
    does not have, so no program can call them. *)
Inductive step (h h' : gmap nat intrusive_list_node) : Prop :=
  | step_construct this :
      node.construct this h = Some (tt, h') → step h h'
  | step_push_front this value :
      ilist.push_front this value h = Some (tt, h') → step h h'
  | step_push_back this value :
      ilist.push_back this value h = Some (tt, h') → step h h'
  | step_pop_front this :
      ilist.pop_front this h = Some (tt, h') → step h h'
  | step_pop_back this :
      ilist.pop_back this h = Some (tt, h') → step h h'
  | step_insert pos value :
      self_linked h value →
      ilist.insert pos value h = Some (value, h') → step h h'
  | step_insert_after pos value :
      self_linked h value →
      ilist.insert_after pos value h = Some (value, h') → step h h'
  | step_remove value :
      ilist.remove value h = Some (value, h') → step h h'
  | step_splice_one pos other :
      ilist.splice_one pos other h = Some (tt, h') → step h h'
  | step_splice pos first last :
      pos ≠ first → pos ≠ last →
      ilist.splice pos first last h = Some (tt, h') → step h h'
  | step_splice_list pos other first :
      nxt h other = Some first → pos ≠ first → pos ≠ other →
      ilist.splice_list pos other h = Some (tt, h') → step h h'
  | step_splice_iter pos iter nx :
      nxt h iter = Some nx → pos ≠ iter → pos ≠ nx →
      ilist.splice_iter pos iter h = Some (tt, h') → step h h'
  | step_merge compare fuel this other la lb :
      is_list h this la → is_list h other lb →
      disj (this :: la) (other :: lb) →
      length la + length lb < fuel →
      ilist.merge compare fuel this other h = Some (tt, h') → step h h'
  | step_unique pred fuel this l :
      is_list h this l → length l ≤ fuel →
      ilist.unique pred fuel this h = Some (tt, h') → step h h'
  | step_sort compare fuel this l :
      is_list h this l → length l < fuel →
      ilist.sort compare fuel this h = Some (tt, h') → step h h'
  | step_swap this other la lb :
      is_list h this la → is_list h other lb →
      disj (this :: la) (other :: lb) →
      (la = [] ↔ lb = []) →
      ilist.swap this other h = Some (tt, h') → step h h'
  | step_move_assign this other :
      this ≠ other →
      node.move_assign this other h = Some (tt, h') → step h h'
  | step_move_construct this other :
      this ≠ other →
      node.move_construct this other h = Some (tt, h') → step h h'
  | step_list_move_construct this other :
      this ≠ other →
      ilist.move_construct this other h = Some (tt, h') → step h h'.

(** The states reachable from the empty heap. *)
Definition reachable (h : gmap nat intrusive_list_node) : Prop :=
  rtc step ∅ h.



(** ** Helper facts for the concrete runs *)

Lemma before_asym x y (l : list nat) : NoDup l → before x y l → ¬ before y x l.
Proof.
  intros Hnd (l1 & l2 & l3 & E) (k1 & k2 & k3 & E').
  assert (y ∉ k1) as Y2.
  { intros H. rewrite E' in Hnd. apply NoDup_app in Hnd as (_ & D & _).
    apply (D _ H). apply list_elem_of_here. }
  rewrite E in Hnd, E'. clear E.
  replace (l1 ++ x :: l2 ++ y :: l3) with ((l1 ++ x :: l2) ++ y :: l3)
    in Hnd, E' by (by rewrite <- app_assoc).
  apply NoDup_app in Hnd as (_ & D & _).
  assert (x ∈ l1 ++ x :: l2) as Hx
    by (apply elem_of_app; right; apply list_elem_of_here).
  assert (y ∉ l1 ++ x :: l2) as Y1.
  { intros H. apply (D _ H). apply list_elem_of_here. }
  destruct (not_elem_of_app_cons_inv_l y y (l1 ++ x :: l2) l3 k1 (k2 ++ x :: k3))
    as (_ & _ & E3); [done|done|done|].
  apply (D _ Hx). rewrite E3. apply list_elem_of_further, elem_of_app.
  right. apply list_elem_of_here.
Qed.

Lemma construct_frame (h : gmap nat intrusive_list_node) x h' a l :
  node.construct x h = Some (tt, h') → is_list h a l → is_list h' a l.
Proof.
  intros E Hl. destruct (construct_self_linked _ _ _ E) as [_ Hx].
  apply (is_list_frame [x] h); [done| |].
  - unfold node.construct in E. destruct (h !! x); simplify_eq.
    intros y Hy. apply lookup_insert_ne. intros ->. apply Hy, list_elem_of_here.
  - intros y Hy ->%list_elem_of_singleton.
    by apply Hx, (is_list_live h a l).
Qed.

Lemma unique_from_tail_sublist pred x rest :
  ∃ t, unique_from pred x rest = x :: t ∧ t `sublist_of` rest.
Proof.
  revert x. induction rest as [|y rest IH]; intros x; simpl.
  - by exists [].
  - destruct (pred x y).
    + destruct (IH x) as (t & -> & Ht). exists t. split; [done|].
      by apply sublist_cons.
    + destruct (IH y) as (t & -> & Ht). exists (y :: t). split; [done|].
      by apply sublist_skip.
Qed.

Lemma unique_seq_sublist pred l : unique_seq pred l `sublist_of` l.
Proof.
  destruct l as [|x rest]; [done|]. simpl.
  destruct (unique_from_tail_sublist pred x rest) as (t & -> & Ht).
  by apply sublist_skip.
Qed.

(** * The claims *)

(** Decide a closed fact by evaluation. *)
Ltac by_eval := vm_compute; reflexivity.
Ltac list_eval := apply is_listb_spec; by_eval.

Ltac decide_eval := apply (bool_decide_unpack _); vm_compute; exact I.

Lemma disj_Forall (L R : list nat) : Forall (λ x, x ∉ R) L → disj L R.
Proof. intros H x Hx. by apply (proj1 (Forall_forall _ _) H). Qed.

Ltac disj_eval := apply disj_Forall; decide_eval.


Lemma reachable_eq h h' : h = h' → reachable h → reachable h'.
Proof. by intros ->. Qed.

(** ** merge *)

(** Every object has the value 5. *)
Definition all_five : nat → nat := λ _, 5.

(** Two lists, with headers 0 and 10, each holding one object. *)
Definition two_singletons : gmap nat intrusive_list_node :=
  heap_of (build 0 [1] ;; build 10 [11]).

(** C1, as stated, fails: merging [1] with the equivalent [11] puts the
    object of [other] first. *)
Lemma merge_stable_counterexample :
  strict_weak_order (by_value all_five) ∧
  is_list two_singletons 0 [1] ∧ is_list two_singletons 10 [11] ∧
  sorted (by_value all_five) [1] ∧ sorted (by_value all_five) [11] ∧
  equivalent (by_value all_five) 1 11 ∧
  ∃ h', ilist.merge (by_value all_five) 3 0 10 two_singletons = Some (tt, h') ∧
        is_list h' 0 [11; 1] ∧ ¬ before 1 11 [11; 1].
Proof.
  split; [apply by_value_swo|].
  split; [list_eval|]. split; [list_eval|].
  split; [repeat constructor|]. split; [repeat constructor|].
  split; [by split|].
  exists (heap_of (build 0 [1] ;; build 10 [11] ;;
                   ilist.merge (by_value all_five) 3 0 10)).
  split; [by_eval|]. split; [list_eval|].
  apply before_asym.
  - decide_eval.
  - by exists [], [], [].
Qed.

(** C1, amended: when [merge] joins two sorted lists that share no node,
    an element [y] of [other] ends up before every element [x] of [this]
    that is equivalent to it. *)
Theorem merge_equivalent_other_first compare fuel h this la other lb x y :
  strict_weak_order compare →
  is_list h this la → is_list h other lb →
  disj (this :: la) (other :: lb) →
  sorted compare la → sorted compare lb →
  length la + length lb < fuel →
  x ∈ la → y ∈ lb → equivalent compare x y →
  ∃ h' l, ilist.merge compare fuel this other h = Some (tt, h') ∧
          is_list h' this l ∧ before y x l.
Proof.
  intros Hswo Ha Hb Hd Hsa Hsb Hf Hx Hy [Hxy _].
  destruct (merge_spec compare fuel h this la other lb)
    as (h' & E & Ha' & _); [done..|].
  exists h', (merge_seq compare la lb). split; [done|]. split; [done|].
  apply merge_seq_other_first; [done| |done|done|done].
  by apply sorted_fully_sorted.
Qed.

Lemma merge_equivalent_other_first_witness :
  ∃ h' l, ilist.merge (by_value all_five) 3 0 10 two_singletons
            = Some (tt, h') ∧
          is_list h' 0 l ∧ before 11 1 l.
Proof.
  apply (merge_equivalent_other_first (by_value all_five) 3 two_singletons
           0 [1] 10 [11] 1 11).
  - apply by_value_swo.
  - list_eval.
  - list_eval.
  - disj_eval.
  - repeat constructor.
  - repeat constructor.
  - simpl. lia.
  - apply list_elem_of_here.
  - apply list_elem_of_here.
  - by split.
Defined.

(** C3: [merge] of two sorted lists that share no node returns, leaves in
    [this] a sorted permutation of the elements of both, and leaves
    [other] empty. *)
Theorem merge_sorted_union compare fuel h this la other lb :
  strict_weak_order compare →
  is_list h this la → is_list h other lb →
  disj (this :: la) (other :: lb) →
  sorted compare la → sorted compare lb →
  length la + length lb < fuel →
  ∃ h' l, ilist.merge compare fuel this other h = Some (tt, h') ∧
          is_list h' this l ∧ l ≡ₚ la ++ lb ∧
          fully_sorted compare l ∧ sorted compare l ∧
          is_list h' other [].
Proof.
  intros Hswo Ha Hb Hd Hsa Hsb Hf.
  destruct (merge_spec compare fuel h this la other lb)
    as (h' & E & Ha' & Hb' & _); [done..|].
  exists h', (merge_seq compare la lb).
  assert (fully_sorted compare (merge_seq compare la lb)) as Hs.
  { apply merge_seq_fully_sorted; [done|..]; by apply sorted_fully_sorted. }
  split; [done|]. split; [done|]. split; [apply merge_seq_perm|].
  split; [done|]. split; [by apply sorted_fully_sorted|done].
Qed.

(** Objects 1, 2, 3 carry their address as value; 11 carries 2. *)
Definition merge_values : nat → nat := λ a, if a =? 11 then 2 else a.

Definition merge_input : gmap nat intrusive_list_node :=
  heap_of (build 0 [1; 3] ;; build 10 [11]).

Lemma merge_sorted_union_witness :
  ∃ h' l, ilist.merge (by_value merge_values) 4 0 10 merge_input
            = Some (tt, h') ∧
          is_list h' 0 l ∧ l ≡ₚ [1; 3] ++ [11] ∧
          fully_sorted (by_value merge_values) l ∧
          sorted (by_value merge_values) l ∧
          is_list h' 10 [].
Proof.
  apply (merge_sorted_union (by_value merge_values) 4 merge_input
           0 [1; 3] 10 [11]).
  - apply by_value_swo.
  - list_eval.
  - list_eval.
  - disj_eval.
  - repeat constructor.
  - repeat constructor.
  - simpl. lia.
Defined.

(** ** sort *)

(** The objects 1..5, pushed in this order, carry 5, 3, 5, 1, 4. *)
Definition sort_values : nat → nat := value_in [0; 5; 3; 5; 1; 4].

Definition pushed_5_3_5_1_4 : gmap nat intrusive_list_node :=
  heap_of (build 0 [1; 2; 3; 4; 5]).

(** Sorting it gives the values 1, 3, 4, 5, 5, the first pushed 5
    (object 1) still ahead of the second (object 3). *)
Definition sort_example : Prop :=
  ∃ h', ilist.sort (by_value sort_values) 6 0 pushed_5_3_5_1_4
          = Some (tt, h') ∧
        to_list h' 0 = Some [4; 2; 5; 1; 3] ∧
        sort_values <$> [4; 2; 5; 1; 3] = [1; 3; 4; 5; 5] ∧
        before 1 3 [4; 2; 5; 1; 3].

(** C4: under a strict weak order, [sort] returns and leaves a sorted
    permutation of the list in which equivalent elements keep their
    relative order; and the example of the specification. *)
Theorem sort_sorted_stable :
  (∀ compare fuel h this l,
     strict_weak_order compare → is_list h this l → length l < fuel →
     ∃ h' l', ilist.sort compare fuel this h = Some (tt, h') ∧
              is_list h' this l' ∧ l' ≡ₚ l ∧
              fully_sorted compare l' ∧ sorted compare l' ∧
              ∀ x y, equivalent compare x y → before x y l → before x y l') ∧
  sort_example.
Proof.
  split.
  - intros compare fuel h this l Hswo Hl Hf.
    destruct (sort_spec compare fuel h this l) as (h' & E & Hl' & _);
      [done..|].
    exists h', (sort_seq compare l).
    pose proof (sort_seq_fully_sorted compare Hswo l).
    split; [done|]. split; [done|]. split; [apply sort_seq_perm|].
    split; [done|]. split; [by apply sorted_fully_sorted|].
    intros x y. by apply sort_seq_stable.
  - exists (heap_of (build 0 [1; 2; 3; 4; 5] ;;
                     ilist.sort (by_value sort_values) 6 0)).
    split; [by_eval|]. split; [by_eval|]. split; [by_eval|].
    by exists [4; 2; 5], [], [].
Qed.

Lemma sort_sorted_stable_witness :
  ∃ h' l', ilist.sort (by_value sort_values) 6 0 pushed_5_3_5_1_4
             = Some (tt, h') ∧
           is_list h' 0 l' ∧ l' ≡ₚ [1; 2; 3; 4; 5] ∧
           fully_sorted (by_value sort_values) l' ∧
           sorted (by_value sort_values) l' ∧
           ∀ x y, equivalent (by_value sort_values) x y →
                  before x y [1; 2; 3; 4; 5] → before x y l'.
Proof.
  apply (proj1 sort_sorted_stable).
  - apply by_value_swo.
  - list_eval.
  - simpl. lia.
Defined.

(** ** unique *)

(** The objects 1..6 carry 1, 1, 2, 2, 2, 3. *)
Definition unique_values : nat → nat := value_in [0; 1; 1; 2; 2; 2; 3].

Definition pushed_1_1_2_2_2_3 : gmap nat intrusive_list_node :=
  heap_of (build 0 [1; 2; 3; 4; 5; 6]).

Definition unique_example : Prop :=
  ∃ h', ilist.unique (same_value unique_values) 6 0 pushed_1_1_2_2_2_3
          = Some (tt, h') ∧
        to_list h' 0 = Some [1; 3; 6] ∧
        unique_values <$> [1; 3; 6] = [1; 2; 3].

(** C5: for an equivalence [pred], [unique] returns and leaves in the
    list the first element of every maximal run of consecutive
    equivalent elements, in their order; the other elements of the runs
    are unlinked, and nothing else changes; and the example of the
    specification. *)
Theorem unique_keeps_first_of_runs :
  (∀ pred fuel h this l,
     (∀ x, pred x x = true) →
     (∀ x y, pred x y = true → pred y x = true) →
     (∀ x y z, pred x y = true → pred y z = true → pred x z = true) →
     is_list h this l → length l ≤ fuel →
     ∃ h', ilist.unique pred fuel this h = Some (tt, h') ∧
           is_list h' this (run_heads pred l) ∧
           run_heads pred l `sublist_of` l ∧
           (∀ z, z ∈ l → z ∉ run_heads pred l → self_linked h' z) ∧
           same_outside (this :: l) h h') ∧
  unique_example.
Proof.
  split.
  - intros pred fuel h this l Hr Hs Ht Hl Hf.
    destruct (unique_spec pred fuel h this l) as (h' & E & Hl' & Hsl & Hout);
      [done..|].
    exists h'. rewrite <- (unique_seq_run_heads pred Hs Ht l).
    split; [done|]. split; [done|]. split; [apply unique_seq_sublist|done].
  - exists (heap_of (build 0 [1; 2; 3; 4; 5; 6] ;;
                     ilist.unique (same_value unique_values) 6 0)).
    split; [by_eval|]. split; by_eval.
Qed.

Lemma same_value_equivalence value :
  (∀ x, same_value value x x = true) ∧
  (∀ x y, same_value value x y = true → same_value value y x = true) ∧
  (∀ x y z, same_value value x y = true → same_value value y z = true →
            same_value value x z = true).
Proof.
  unfold same_value. split; [|split].
  - intros x. apply Nat.eqb_refl.
  - intros x y. rewrite !Nat.eqb_eq. lia.
  - intros x y z. rewrite !Nat.eqb_eq. lia.
Qed.

Lemma unique_keeps_first_of_runs_witness :
  ∃ h', ilist.unique (same_value unique_values) 6 0 pushed_1_1_2_2_2_3
          = Some (tt, h') ∧
        is_list h' 0 (run_heads (same_value unique_values) [1; 2; 3; 4; 5; 6]) ∧
        run_heads (same_value unique_values) [1; 2; 3; 4; 5; 6]
          `sublist_of` [1; 2; 3; 4; 5; 6] ∧
        (∀ z, z ∈ [1; 2; 3; 4; 5; 6] →
              z ∉ run_heads (same_value unique_values) [1; 2; 3; 4; 5; 6] →
              self_linked h' z) ∧
        same_outside (0 :: [1; 2; 3; 4; 5; 6]) pushed_1_1_2_2_2_3 h'.
Proof.
  apply (proj1 unique_keeps_first_of_runs).
  - apply same_value_equivalence.
  - apply same_value_equivalence.
  - apply same_value_equivalence.
  - list_eval.
  - simpl. lia.
Defined.

(** ** remove *)

Definition two_elements : gmap nat intrusive_list_node :=
  heap_of (build 0 [1; 2]).

(** [remove] on a node outside a list leaves that list alone: in a
    consistent heap the two neighbours of the node are outside it too. *)
Lemma remove_outside_list h x n p other l :
  live h x → live h n → live h p →
  prv h n = Some x → nxt h p = Some x →
  is_list h other l → x ∉ other :: l →
  is_list (removed x n p h) other l.
Proof.
  intros Lx Ln Lp Hn' Hp' Hl Hx.
  apply (is_list_frame [x; n; p] h); [done| |].
  - apply same_outside_intro; intros y Hy;
      apply not_elem_of_cons in Hy as [? Hy];
      apply not_elem_of_cons in Hy as [? Hy];
      apply not_elem_of_cons in Hy as [? _];
      rewrite ?nxt_removed, ?prv_removed by done;
      by rewrite !decide_False.
  - intros y Hy.
    destruct (is_list_links h other l y Hl Hy)
      as (n1 & p1 & [Hyn _] & [_ Hyp] & Hn1 & Hp1).
    rewrite !elem_of_cons, elem_of_nil. intros [->|[->|[->|[]]]].
    + done.
    + apply Hx. by replace x with p1 by congruence.
    + apply Hx. by replace x with n1 by congruence.
Qed.

(** C6: in a consistent heap [remove] returns on every live link field,
    leaves it self-linked, so [in_list] answers false, and keeps the heap
    consistent.  A list that held the object holds its other elements in
    their order, every other list is as it was, and the object can at
    once be pushed on the list it came from or on any other list.
    Removing it once more is the same as removing it once, and removing
    a self-linked field changes nothing. *)
Theorem remove_leaves_self_linked h x :
  consistent h → live h x →
  ∃ h', node.remove x h = Some (x, h') ∧
        self_linked h' x ∧
        node.in_list x h' = Some (false, h') ∧
        consistent h' ∧
        (∀ this l1 l2, is_list h this (l1 ++ x :: l2) →
           is_list h' this (l1 ++ l2) ∧
           ∃ h'', ilist.push_back this x h' = Some (tt, h'') ∧
                  is_list h'' this ((l1 ++ l2) ++ [x])) ∧
        (∀ other l, is_list h other l → x ∉ other :: l →
           is_list h' other l ∧
           ∃ h'', ilist.push_back other x h' = Some (tt, h'') ∧
                  is_list h'' other (l ++ [x])) ∧
        (∀ this l, is_list h' this l → this ≠ x →
           ∃ h'', ilist.push_back this x h' = Some (tt, h'') ∧
                  is_list h'' this (l ++ [x])) ∧
        node.remove x h' = Some (x, h') ∧
        (self_linked h x → h' = h).
Proof.
  intros Hc Lx.
  destruct (consistent_live_nxt h x Hc Lx) as (n & p & Hn & Hp & Hn' & Hp').
  assert (live h n) as Ln by eauto with heap.
  assert (live h p) as Lp by eauto with heap.
  pose proof (remove_exec h x n p Hn Hp Ln Lp) as E.
  exists (removed x n p h).
  pose proof (self_linked_removed h x n p Lx Ln Lp) as Hs.
  assert (∀ this l, is_list (removed x n p h) this l → this ≠ x →
            ∃ h'', ilist.push_back this x (removed x n p h) = Some (tt, h'') ∧
                   is_list h'' this (l ++ [x])) as Hpush.
  { intros this l Hl Hne.
    destruct (push_back_spec _ this l x Hl Hs) as (h'' & E' & Hl'' & _);
      [done|]. by exists h''. }
  split; [done|]. split; [done|].
  split; [by apply in_list_self_linked|].
  split; [by destruct (consistent_remove _ _ _ _ Hc E)|].
  split; [|split; [|split; [done|split]]].
  - intros this l1 l2 Hl.
    destruct (remove_elem h this l1 x l2 Hl) as (h1 & E1 & Hl1 & _).
    rewrite E in E1. injection E1 as <-. split; [done|].
    apply Hpush; [done|]. intros ->.
    destruct Hl as [[Hx _]%NoDup_cons _]. apply Hx.
    apply elem_of_app. right. apply list_elem_of_here.
  - intros other l Hl Hx.
    assert (is_list (removed x n p h) other l) as Hl'
      by by apply remove_outside_list.
    split; [done|]. apply Hpush; [done|]. intros ->.
    apply Hx, list_elem_of_here.
  - by apply remove_self_linked.
  - intros Hx. pose proof Hx as [? ?]%self_linked_nxt_prv.
    assert (n = x) as -> by congruence. assert (p = x) as -> by congruence.
    by apply removed_self.
Qed.

Lemma remove_leaves_self_linked_witness :
  ∃ h', node.remove 1 two_elements = Some (1, h') ∧
        self_linked h' 1 ∧
        node.in_list 1 h' = Some (false, h') ∧
        consistent h' ∧
        (∀ this l1 l2, is_list two_elements this (l1 ++ 1 :: l2) →
           is_list h' this (l1 ++ l2) ∧
           ∃ h'', ilist.push_back this 1 h' = Some (tt, h'') ∧
                  is_list h'' this ((l1 ++ l2) ++ [1])) ∧
        (∀ other l, is_list two_elements other l → 1 ∉ other :: l →
           is_list h' other l ∧
           ∃ h'', ilist.push_back other 1 h' = Some (tt, h'') ∧
                  is_list h'' other (l ++ [1])) ∧
        (∀ this l, is_list h' this l → this ≠ 1 →
           ∃ h'', ilist.push_back this 1 h' = Some (tt, h'') ∧
                  is_list h'' this (l ++ [1])) ∧
        node.remove 1 h' = Some (1, h') ∧
        (self_linked two_elements 1 → h' = two_elements).
Proof.
  apply (remove_leaves_self_linked two_elements 1).
  - apply consistentb_spec. by_eval.
  - apply (bool_decide_unpack _). vm_compute. exact I.
Defined.

(** ** pop on an empty list *)

(** C10: on an empty list [pop_front] and [pop_back] return and leave
    the whole heap as it was. *)
Theorem pop_on_empty_list h this :
  is_list h this [] →
  ilist.pop_front this h = Some (tt, h) ∧
  ilist.pop_back this h = Some (tt, h).
Proof.
  intros Hl. split; [by apply pop_front_empty|by apply pop_back_empty].
Qed.

Definition one_empty_list : gmap nat intrusive_list_node :=
  heap_of (build 0 []).

Lemma pop_on_empty_list_witness :
  ilist.pop_front 0 one_empty_list = Some (tt, one_empty_list) ∧
  ilist.pop_back 0 one_empty_list = Some (tt, one_empty_list).
Proof. apply (pop_on_empty_list one_empty_list 0). list_eval. Defined.

(** ** moving a container *)

(** C8: move assignment onto another list, and move construction at a
    free address, return and leave the elements of the source, in their
    order, in the destination, and the source empty. *)
Theorem move_transfers_elements h src ls dst ld fresh :
  is_list h src ls → is_list h dst ld →
  disj (dst :: ld) (src :: ls) → h !! fresh = None →
  (∃ h', ilist.move_assign dst src h = Some (tt, h') ∧
         is_list h' dst ls ∧ is_list h' src []) ∧
  (∃ h', ilist.move_construct fresh src h = Some (tt, h') ∧
         is_list h' fresh ls ∧ is_list h' src []).
Proof.
  intros Hs Hd Hdisj Hfree. split.
  - destruct (move_assign_lists h dst ld src ls) as (h' & E & ? & ? & _);
      [done..|]. by exists h'.
  - assert (node.construct fresh h
            = Some (tt, <[fresh := Node fresh fresh]> h)) as E1.
    { unfold node.construct. by rewrite Hfree. }
    destruct (construct_self_linked _ _ _ E1) as [Hf Hnl].
    pose proof (construct_frame _ _ _ _ _ E1 Hs) as Hs1.
    destruct (move_assign_lists (<[fresh := Node fresh fresh]> h)
                fresh [] src ls)
      as (h' & E & ? & ? & _); [by apply is_list_nil|done| |].
    { apply disj_intro. intros z ->%list_elem_of_singleton Hz.
      by apply Hnl, (is_list_live h src ls). }
    exists h'. unfold ilist.move_construct.
    by rewrite (bind_Some _ _ _ _ _ E1).
Qed.

(** A list with elements 1, 2 and a list with element 11. *)
Definition two_lists : gmap nat intrusive_list_node :=
  heap_of (build 0 [1; 2] ;; build 10 [11]).

Lemma move_transfers_elements_witness :
  (∃ h', ilist.move_assign 10 0 two_lists = Some (tt, h') ∧
         is_list h' 10 [1; 2] ∧ is_list h' 0 []) ∧
  (∃ h', ilist.move_construct 20 0 two_lists = Some (tt, h') ∧
         is_list h' 20 [1; 2] ∧ is_list h' 0 []).
Proof.
  apply (move_transfers_elements two_lists 0 [1; 2] 10 [11] 20).
  - list_eval.
  - list_eval.
  - disj_eval.
  - by_eval.
Defined.

(** ** swap *)

(** An empty list with header 0 and a list with header 10 holding 11. *)
Definition empty_and_singleton : gmap nat intrusive_list_node :=
  heap_of (build 0 [] ;; build 10 [11]).

(** C2 at its failing input: swapping an empty list with a non-empty one
    returns, but leaves neither list with the other's elements and the
    link fields inconsistent. *)
Theorem swap_with_one_empty_list :
  is_list empty_and_singleton 0 [] ∧ is_list empty_and_singleton 10 [11] ∧
  ∃ h', ilist.swap 0 10 empty_and_singleton = Some (tt, h') ∧
        ¬ is_list h' 0 [11] ∧ ¬ is_list h' 10 [] ∧ ¬ consistent h' ∧
        h' !! 0 = Some (Node 0 10) ∧ h' !! 10 = Some (Node 11 0) ∧
        h' !! 11 = Some (Node 10 11).
Proof.
  split; [list_eval|]. split; [list_eval|].
  exists (heap_of (build 0 [] ;; build 10 [11] ;; ilist.swap 0 10)).
  split; [by_eval|].
  split; [apply is_listb_false; by_eval|].
  split; [apply is_listb_false; by_eval|].
  split; [apply consistentb_false; by_eval|].
  split; [by_eval|]. split; by_eval.
Qed.

(** ** splice *)

(** C9 at its failing input: on the list 1, 2, [splice] of the range
    from 1 up to 2 in front of 2 returns, but drops 1 from the list and
    leaves the link fields inconsistent. *)
Theorem splice_in_front_of_last :
  is_list two_elements 0 [1; 2] ∧
  ∃ h', ilist.splice 2 1 2 two_elements = Some (tt, h') ∧
        is_list h' 0 [2] ∧ ¬ is_list h' 0 [1; 2] ∧
        ¬ self_linked h' 1 ∧ ¬ consistent h'.
Proof.
  split; [list_eval|].
  exists (heap_of (build 0 [1; 2] ;; ilist.splice 2 1 2)).
  split; [by_eval|]. split; [list_eval|].
  split; [apply is_listb_false; by_eval|].
  split; [|apply consistentb_false; by_eval].
  unfold self_linked. by_eval || (vm_compute; congruence).
Qed.

(** ** the invariant *)





#[local] Instance self_linked_dec
    (h : gmap nat intrusive_list_node) (x : nat) : Decision (self_linked h x).
Proof. unfold self_linked. apply _. Defined.




(** * Further properties of the interface *)

(** Membership in a list built from conses and appends, as a
    propositional formula. *)
Ltac mem_unfold :=
  cbn [app];
  repeat first [rewrite elem_of_cons | rewrite elem_of_app | rewrite elem_of_nil].
Ltac mem_tauto := mem_unfold; tauto.

(** ** A list fixes the fields of its nodes *)

Section agreement.
Implicit Types (h : gmap nat intrusive_list_node) (a x y : nat).
Implicit Types (l : list nat).

Lemma fields_eq h h' y :
  live h y → nxt h' y = nxt h y → prv h' y = prv h y → h' !! y = h !! y.
Proof.
  unfold live, nxt, prv. intros [[n p] E]. rewrite E. simpl.
  destruct (h' !! y) as [[n' p']|]; simpl; [|done]. congruence.
Qed.

Lemma is_list_agree h h' a l y :
  is_list h a l → is_list h' a l → y ∈ a :: l → h' !! y = h !! y.
Proof.
  intros Hl Hl' Hy. apply fields_eq; [by apply (is_list_live h a l)|..].
  - apply elem_of_cons in Hy as [->|Hy].
    + by rewrite (is_list_begin _ _ _ Hl), (is_list_begin _ _ _ Hl').
    + apply list_elem_of_split in Hy as (l1 & l2 & ->).
      by rewrite (is_list_nxt _ _ _ _ _ Hl), (is_list_nxt _ _ _ _ _ Hl').
  - apply elem_of_cons in Hy as [->|Hy].
    + by rewrite (is_list_back _ _ _ Hl), (is_list_back _ _ _ Hl').
    + apply list_elem_of_split in Hy as (l1 & l2 & ->).
      by rewrite (is_list_prv _ _ _ _ _ Hl), (is_list_prv _ _ _ _ _ Hl').
Qed.

Lemma same_outside_eq S h h' :
  same_outside S h h' → (∀ y, y ∈ S → h' !! y = h !! y) → h' = h.
Proof.
  intros Hout Hin. apply map_eq. intros y.
  destruct (decide (y ∈ S)); [by apply Hin|by apply Hout].
Qed.

Lemma self_linked_agree h h' x :
  self_linked h x → self_linked h' x → h' !! x = h !! x.
Proof. unfold self_linked. congruence. Qed.

Lemma self_linked_not_elem h a l x :
  is_list h a l → self_linked h x → x ∉ l.
Proof.
  intros Hl [Hx _]%self_linked_nxt_prv Hin.
  by apply (is_list_elem_in_list h a l x).
Qed.

End agreement.

(** ** Pushing, popping, inserting and removing one element *)

(** The list 1, 2 with header 0, and a node 5 in no list. *)
Definition list_and_loose_node : gmap nat intrusive_list_node :=
  heap_of (build 0 [1; 2] ;; node.construct 5).

Lemma elem_mid (x : nat) l1 l2 : x ∈ l1 ++ x :: l2.
Proof. apply elem_of_app. right. apply list_elem_of_here. Qed.

(** X1: [push_back] of an object that is in no list puts it last, and
    [push_front] puts it first; both return, and change no node besides
    the object and the nodes of the list. *)
Theorem push_adds_at_the_ends h this l x :
  is_list h this l → self_linked h x → x ≠ this →
  (∃ h', ilist.push_back this x h = Some (tt, h') ∧
         is_list h' this (l ++ [x]) ∧
         same_outside (x :: this :: l) h h') ∧
  (∃ h', ilist.push_front this x h = Some (tt, h') ∧
         is_list h' this (x :: l) ∧
         same_outside (x :: this :: l) h h').
Proof.
  intros Hl Hx Hne. split; [by apply push_back_spec|by apply push_front_spec].
Qed.

Lemma push_adds_at_the_ends_witness :
  (∃ h', ilist.push_back 0 5 list_and_loose_node = Some (tt, h') ∧
         is_list h' 0 ([1; 2] ++ [5]) ∧
         same_outside (5 :: 0 :: [1; 2]) list_and_loose_node h') ∧
  (∃ h', ilist.push_front 0 5 list_and_loose_node = Some (tt, h') ∧
         is_list h' 0 (5 :: [1; 2]) ∧
         same_outside (5 :: 0 :: [1; 2]) list_and_loose_node h').
Proof.
  apply (push_adds_at_the_ends list_and_loose_node 0 [1; 2] 5).
  - list_eval.
  - by_eval.
  - lia.
Defined.

(** X2: the assertion of [push_back] and [push_front] fires on an object
    that is an element of some list: the call fails. *)
Theorem push_of_a_linked_object_fails h this other l x :
  is_list h other l → x ∈ l →
  ilist.push_back this x h = None ∧ ilist.push_front this x h = None.
Proof.
  intros Hl Hx. pose proof (in_list_elem _ _ _ _ Hl Hx) as E.
  unfold ilist.push_back, ilist.push_front.
  by rewrite !(bind_Some _ _ _ _ _ E).
Qed.

Lemma push_of_a_linked_object_fails_witness :
  ilist.push_back 10 1 two_lists = None ∧
  ilist.push_front 10 1 two_lists = None.
Proof.
  apply (push_of_a_linked_object_fails two_lists 10 0 [1; 2] 1).
  - list_eval.
  - apply list_elem_of_here.
Defined.

(** X3: on a list that is not empty [pop_front] unlinks the first
    element and [pop_back] the last; the element is left self-linked and
    the others keep their order. *)
Theorem pop_removes_the_ends h this l :
  is_list h this l → l ≠ [] →
  (∃ h', ilist.pop_front this h = Some (tt, h') ∧
         is_list h' this (tail l) ∧ self_linked h' (hd this l) ∧
         same_outside (this :: l) h h') ∧
  (∃ h', ilist.pop_back this h = Some (tt, h') ∧
         is_list h' this (removelast l) ∧
         self_linked h' (List.last l this) ∧
         same_outside (this :: l) h h').
Proof.
  intros Hl Hne. split.
  - destruct l as [|x l]; [done|]. by apply pop_front_spec.
  - destruct l as [|y l]; [done|].
    destruct (snoc_view y l) as (l' & x & E). rewrite E in *.
    rewrite removelast_snoc, last_last. by apply pop_back_spec.
Qed.

Lemma pop_removes_the_ends_witness :
  (∃ h', ilist.pop_front 0 two_elements = Some (tt, h') ∧
         is_list h' 0 (tail [1; 2]) ∧ self_linked h' (hd 0 [1; 2]) ∧
         same_outside (0 :: [1; 2]) two_elements h') ∧
  (∃ h', ilist.pop_back 0 two_elements = Some (tt, h') ∧
         is_list h' 0 (removelast [1; 2]) ∧
         self_linked h' (List.last [1; 2] 0) ∧
         same_outside (0 :: [1; 2]) two_elements h').
Proof.
  apply (pop_removes_the_ends two_elements 0 [1; 2]).
  - list_eval.
  - done.
Defined.

Section round_trips.
Implicit Types (h : gmap nat intrusive_list_node) (a x y : nat).
Implicit Types (l : list nat).

(** A heap that shows the same list and the same loose node, and agrees
    elsewhere, is the same heap. *)
Lemma list_and_node_restored h h' a l x :
  is_list h a l → self_linked h x →
  is_list h' a l → self_linked h' x →
  same_outside (x :: a :: l) h h' → h' = h.
Proof.
  intros Hl Hx Hl' Hx' Hout. apply (same_outside_eq _ _ _ Hout).
  intros y [->|Hy]%elem_of_cons.
  - by apply self_linked_agree.
  - by apply (is_list_agree h h' a l).
Qed.

Lemma push_back_pop_back h this l x :
  is_list h this l → self_linked h x → x ≠ this →
  (ilist.push_back this x ;; ilist.pop_back this) h = Some (tt, h).
Proof.
  intros Hl Hx Hne.
  destruct (push_back_spec h this l x) as (h1 & E1 & Hl1 & Ho1); [done..|].
  destruct (pop_back_spec h1 this l x Hl1) as (h2 & E2 & Hl2 & Hx2 & Ho2).
  rewrite (bind_Some _ _ _ _ _ E1), E2. do 2 f_equal.
  apply (list_and_node_restored h h2 this l x); [done..|].
  apply (same_outside_trans _ _ _ _ _ _ Ho1 Ho2); [done|].
  intros y. rewrite !elem_of_cons, elem_of_app, list_elem_of_singleton. tauto.
Qed.

Lemma push_front_pop_front h this l x :
  is_list h this l → self_linked h x → x ≠ this →
  (ilist.push_front this x ;; ilist.pop_front this) h = Some (tt, h).
Proof.
  intros Hl Hx Hne.
  destruct (push_front_spec h this l x) as (h1 & E1 & Hl1 & Ho1); [done..|].
  destruct (pop_front_spec h1 this x l Hl1) as (h2 & E2 & Hl2 & Hx2 & Ho2).
  rewrite (bind_Some _ _ _ _ _ E1), E2. do 2 f_equal.
  apply (list_and_node_restored h h2 this l x); [done..|].
  apply (same_outside_trans _ _ _ _ _ _ Ho1 Ho2); [done|].
  intros y. rewrite !elem_of_cons. tauto.
Qed.

Lemma insert_spec h a l1 l2 x :
  is_list h a (l1 ++ l2) → live h x → x ∉ a :: l1 ++ l2 →
  ∃ h', ilist.insert (hd a l2) x h = Some (x, h') ∧
        is_list h' a (l1 ++ x :: l2) ∧
        same_outside (x :: a :: l1 ++ l2) h h'.
Proof.
  intros Hl Lx Hx.
  destruct (insert_before_gap h a l1 l2 x) as (h' & E & ? & ?); [done..|].
  exists h'. unfold ilist.insert. by rewrite (bind_Some _ _ _ _ _ E).
Qed.

Lemma list_insert_after_spec h a l1 l2 x :
  is_list h a (l1 ++ l2) → live h x → x ∉ a :: l1 ++ l2 →
  ∃ h', ilist.insert_after (List.last l1 a) x h = Some (x, h') ∧
        is_list h' a (l1 ++ x :: l2) ∧
        same_outside (x :: a :: l1 ++ l2) h h'.
Proof.
  intros Hl Lx Hx.
  destruct (insert_after_gap h a l1 l2 x) as (h' & E & ? & ?); [done..|].
  exists h'. unfold ilist.insert_after. by rewrite (bind_Some _ _ _ _ _ E).
Qed.

End round_trips.

(** X4: pushing an object that is in no list and popping at the same
    end restores every node of the heap. *)
Theorem push_then_pop_restores h this l x :
  is_list h this l → self_linked h x → x ≠ this →
  (ilist.push_back this x ;; ilist.pop_back this) h = Some (tt, h) ∧
  (ilist.push_front this x ;; ilist.pop_front this) h = Some (tt, h).
Proof.
  intros. split; [by eapply push_back_pop_back|by eapply push_front_pop_front].
Qed.

Lemma push_then_pop_restores_witness :
  (ilist.push_back 0 5 ;; ilist.pop_back 0) list_and_loose_node
    = Some (tt, list_and_loose_node) ∧
  (ilist.push_front 0 5 ;; ilist.pop_front 0) list_and_loose_node
    = Some (tt, list_and_loose_node).
Proof.
  apply (push_then_pop_restores list_and_loose_node 0 [1; 2] 5).
  - list_eval.
  - by_eval.
  - lia.
Defined.

(** X5: [insert(pos, value)] links a live object that is not in the
    list in front of [pos], and [insert_after(pos, value)] behind
    [pos]; both return the iterator of the object.  [pos] is any element
    or [end()]. *)
Theorem insert_links_at_the_position h this l1 l2 x :
  is_list h this (l1 ++ l2) → live h x → x ∉ this :: l1 ++ l2 →
  (∃ h', ilist.insert (hd this l2) x h = Some (x, h') ∧
         is_list h' this (l1 ++ x :: l2) ∧
         same_outside (x :: this :: l1 ++ l2) h h') ∧
  (∃ h', ilist.insert_after (List.last l1 this) x h = Some (x, h') ∧
         is_list h' this (l1 ++ x :: l2) ∧
         same_outside (x :: this :: l1 ++ l2) h h').
Proof.
  intros. split; [by apply insert_spec|by apply list_insert_after_spec].
Qed.

Lemma insert_links_at_the_position_witness :
  (∃ h', ilist.insert (hd 0 [2]) 5 list_and_loose_node = Some (5, h') ∧
         is_list h' 0 ([1] ++ 5 :: [2]) ∧
         same_outside (5 :: 0 :: [1] ++ [2]) list_and_loose_node h') ∧
  (∃ h', ilist.insert_after (List.last [1] 0) 5 list_and_loose_node
           = Some (5, h') ∧
         is_list h' 0 ([1] ++ 5 :: [2]) ∧
         same_outside (5 :: 0 :: [1] ++ [2]) list_and_loose_node h').
Proof.
  apply (insert_links_at_the_position list_and_loose_node 0 [1] [2] 5).
  - list_eval.
  - decide_eval.
  - decide_eval.
Defined.

(** X6: the static [remove(value)] on an element of a list returns the
    object, takes it out of the list, whose other elements keep their
    order, leaves it self-linked with [in_list()] false, and writes to no
    node outside the list. *)
Theorem static_remove_unlinks_the_element h this l1 x l2 :
  is_list h this (l1 ++ x :: l2) →
  ∃ h', ilist.remove x h = Some (x, h') ∧
        is_list h' this (l1 ++ l2) ∧ self_linked h' x ∧
        node.in_list x h' = Some (false, h') ∧
        same_outside (this :: l1 ++ x :: l2) h h'.
Proof.
  intros Hl. destruct (remove_elem h this l1 x l2 Hl) as (h' & E & ? & ? & ?).
  exists h'. split; [done|]. split; [done|]. split; [done|].
  split; [by apply in_list_self_linked|done].
Qed.

Lemma static_remove_unlinks_the_element_witness :
  ∃ h', ilist.remove 1 two_elements = Some (1, h') ∧
        is_list h' 0 ([] ++ [2]) ∧ self_linked h' 1 ∧
        node.in_list 1 h' = Some (false, h') ∧
        same_outside (0 :: [] ++ 1 :: [2]) two_elements h'.
Proof.
  apply (static_remove_unlinks_the_element two_elements 0 [] 1 [2]). list_eval.
Defined.

(** X7: inserting an object that is in no list, at any position, and
    then taking it out again with the static [remove] gives back the
    object and restores every node of the heap. *)
Theorem insert_then_remove_restores h this l1 l2 x :
  is_list h this (l1 ++ l2) → self_linked h x → x ≠ this →
  (it <- ilist.insert (hd this l2) x ;; ilist.remove it) h = Some (x, h).
Proof.
  intros Hl Hx Hne.
  pose proof (self_linked_not_elem _ _ _ _ Hl Hx) as Hxl.
  destruct (insert_spec h this l1 l2 x) as (h1 & E1 & Hl1 & Ho1); [done|..].
  { apply self_linked_nxt_prv in Hx as [? _]. eauto with heap. }
  { by apply not_elem_of_cons. }
  destruct (remove_elem h1 this l1 x l2 Hl1) as (h2 & E2 & Hl2 & Hx2 & Ho2).
  rewrite (bind_Some _ _ _ _ _ E1). unfold ilist.remove. rewrite E2.
  do 2 f_equal.
  apply (list_and_node_restored h h2 this (l1 ++ l2) x); [done..|].
  apply (same_outside_trans _ _ _ _ _ _ Ho1 Ho2); [done|].
  intros y. rewrite !elem_of_cons, !elem_of_app, elem_of_cons. tauto.
Qed.

Lemma insert_then_remove_restores_witness :
  (it <- ilist.insert (hd 0 [2]) 5 ;; ilist.remove it) list_and_loose_node
    = Some (5, list_and_loose_node).
Proof.
  apply (insert_then_remove_restores list_and_loose_node 0 [1] [2] 5).
  - list_eval.
  - by_eval.
  - lia.
Defined.

(** X8: what the observers return on a list: [empty()] is true exactly
    when the list has no element, [front()] is the first and [back()] the
    last element (on an empty list both are the header itself), every
    element answers [in_list()] with true, and none of them changes the
    heap. *)
Theorem observers_read_the_list h this l :
  is_list h this l →
  ilist.empty this h = Some (bool_decide (l = []), h) ∧
  ilist.front this h = Some (hd this l, h) ∧
  ilist.back this h = Some (List.last l this, h) ∧
  ∀ x, x ∈ l → node.in_list x h = Some (true, h).
Proof.
  intros Hl. split; [|split; [|split]].
  - unfold ilist.empty, node.in_list.
    rewrite bind_bind.
    erewrite exec_get_next by (eapply is_list_begin; exact Hl).
    rewrite !bind_ret. unfold ret. do 2 f_equal.
    destruct l as [|x l]; cbn [hd].
    + by rewrite Nat.eqb_refl.
    + destruct Hl as [[Hx _]%NoDup_cons _].
      assert (x ≠ this) as ->%Nat.eqb_neq; [|by rewrite bool_decide_false].
      intros ->. apply Hx, list_elem_of_here.
  - unfold ilist.front, get_next.
    pose proof (is_list_begin _ _ _ Hl) as E. unfold nxt in E.
    destruct (h !! this); simplify_eq/=; congruence.
  - unfold ilist.back, get_previous.
    pose proof (is_list_back _ _ _ Hl) as E. unfold prv in E.
    destruct (h !! this); simplify_eq/=; congruence.
  - intros x Hx. by apply (in_list_elem h this l).
Qed.

Lemma observers_read_the_list_witness :
  ilist.empty 0 two_elements = Some (bool_decide ([1; 2] = []), two_elements) ∧
  ilist.front 0 two_elements = Some (hd 0 [1; 2], two_elements) ∧
  ilist.back 0 two_elements = Some (List.last [1; 2] 0, two_elements) ∧
  ∀ x, x ∈ [1; 2] → node.in_list x two_elements = Some (true, two_elements).
Proof. apply (observers_read_the_list two_elements 0 [1; 2]). list_eval. Defined.

(** ** Loops that walk the list: [size], iteration and [clear] *)

Section walks.
Implicit Types (h : gmap nat intrusive_list_node) (a x y : nat).
Implicit Types (l rest pre : list nat).

(** Each node of [rest] points forward to the one after it, and the last
    of them to [a]. *)
Fixpoint chain h a rest : Prop :=
  match rest with
  | [] => True
  | x :: r => nxt h x = Some (hd a r) ∧ chain h a r
  end.

Lemma is_list_chain h a pre rest : is_list h a (pre ++ rest) → chain h a rest.
Proof.
  revert pre. induction rest as [|x r IH]; intros pre Hl; [done|]. split.
  - by apply (is_list_nxt h a pre x r).
  - apply (IH (pre ++ [x])). by rewrite <- app_assoc.
Qed.

Lemma chain_frame h h' a rest :
  (∀ y, y ∈ rest → nxt h' y = nxt h y) → chain h a rest → chain h' a rest.
Proof.
  induction rest as [|x r IH]; intros F; [done|]. intros [Hx Hr]. split.
  - rewrite F; [done|apply list_elem_of_here].
  - apply IH; [|done]. intros y Hy. by apply F, list_elem_of_further.
Qed.

Lemma distance_chain h a rest :
  ∀ fuel, a ∉ rest → chain h a rest → length rest < fuel →
  ilist.distance fuel (hd a rest) a h = Some (length rest, h).
Proof.
  induction rest as [|x r IH]; intros [|fuel] Ha Hc Hf; simpl in Hf; try lia.
  - simpl. by rewrite Nat.eqb_refl.
  - destruct Hc as [Hx Hc]. apply not_elem_of_cons in Ha as [Hax Har].
    cbn [ilist.distance hd].
    assert (x ≠ a) as ->%Nat.eqb_neq by done.
    erewrite exec_get_next by exact Hx.
    rewrite (bind_Some _ _ _ _ _ (IH fuel Har Hc ltac:(lia))). done.
Qed.

Lemma iterate_chain h a rest :
  ∀ fuel, a ∉ rest → chain h a rest → length rest < fuel →
  ilist.iterate fuel (hd a rest) a h = Some (rest, h).
Proof.
  induction rest as [|x r IH]; intros [|fuel] Ha Hc Hf; simpl in Hf; try lia.
  - simpl. by rewrite Nat.eqb_refl.
  - destruct Hc as [Hx Hc]. apply not_elem_of_cons in Ha as [Hax Har].
    cbn [ilist.iterate hd].
    assert (x ≠ a) as ->%Nat.eqb_neq by done.
    rewrite bind_ret. erewrite exec_get_next by exact Hx.
    rewrite (bind_Some _ _ _ _ _ (IH fuel Har Hc ltac:(lia))). done.
Qed.

Lemma is_list_gap_prv h a l1 l2 :
  is_list h a (l1 ++ l2) → prv h (hd a l2) = Some (List.last l1 a).
Proof. intros [_ (_ & [_ E] & _)%path_gap]. exact E. Qed.

Lemma hd_app_elem a x l1 l2 : hd a ((l1 ++ [x]) ++ l2) ∈ l1 ++ [x].
Proof.
  destruct l1; simpl; [apply list_elem_of_here|apply list_elem_of_here].
Qed.

Lemma reverse_iterate_spec h a pre :
  ∀ rest fuel, is_list h a (pre ++ rest) → length pre < fuel →
  ilist.reverse_iterate fuel (hd a rest) (hd a (pre ++ rest)) h
    = Some (reverse pre, h).
Proof.
  induction pre as [|x pre IH] using rev_ind; intros rest [|fuel] Hl Hf;
    simpl in Hf; try lia.
  - simpl. by rewrite Nat.eqb_refl.
  - rewrite length_app in Hf. simpl in Hf.
    cbn [ilist.reverse_iterate].
    assert (hd a rest ≠ hd a ((pre ++ [x]) ++ rest)) as ->%Nat.eqb_neq.
    { pose proof (hd_app_elem a x pre rest) as H1.
      pose proof (hd_elem a rest) as H2. intros E. rewrite <- E in H1.
      destruct Hl as [Hnd _]. apply NoDup_cons in Hnd as [Ha Hnd].
      apply NoDup_app in Hnd as (_ & Hd & _).
      apply elem_of_cons in H2 as [E2|H2].
      - apply Ha. rewrite <- E2. apply elem_of_app. by left.
      - by apply (Hd _ H1). }
    pose proof (is_list_gap_prv _ _ _ _ Hl) as Hp. rewrite last_last in Hp.
    erewrite !exec_get_previous by exact Hp.
    rewrite <- app_assoc in Hl |- *. cbn [app] in Hl |- *.
    specialize (IH (x :: rest) fuel Hl ltac:(lia)). cbn [hd] in IH.
    rewrite (bind_Some _ _ _ _ _ IH). by rewrite reverse_snoc.
Qed.

Lemma clear_exec h x : live h x → node.clear x h = Some (tt, reset x h).
Proof. intros Lx. unfold node.clear, reset. exec. done. Qed.

Lemma self_linked_reset h x : live h x → self_linked (reset x h) x.
Proof.
  intros Lx. apply self_linked_nxt_prv.
  rewrite nxt_reset, prv_reset by done. by rewrite !decide_True.
Qed.

Lemma same_outside_reset h x : live h x → same_outside [x] h (reset x h).
Proof.
  intros Lx. apply same_outside_intro; intros y Hy;
    rewrite ?nxt_reset, ?prv_reset by done;
    rewrite decide_False; [done| |done|]; intros ->; apply Hy, list_elem_of_here.
Qed.

(** The loop of [clear]: every node from the iterator up to the header
    is reset, nothing else is written. *)
Lemma clear_loop_chain a rest :
  ∀ fuel h, NoDup rest → a ∉ rest → chain h a rest →
  length rest < fuel →
  ∃ h', ilist.clear_loop fuel a (hd a rest) h = Some (tt, h') ∧
        (∀ x, x ∈ rest → self_linked h' x) ∧ same_outside rest h h'.
Proof.
  induction rest as [|x r IH]; intros [|fuel] h Hnd Hs Hc Hf;
    simpl in Hf; try lia.
  - exists h. simpl. unfold ilist.end_. rewrite bind_ret.
    rewrite Nat.eqb_refl. split; [done|]. split.
    + by intros x ?%elem_of_nil.
    + apply same_outside_refl.
  - destruct Hc as [Hx Hc]. apply not_elem_of_cons in Hs as [Hsx Hsr].
    apply NoDup_cons in Hnd as [Hxr Hnd].
    assert (live h x) as Lx by eauto with heap.
    destruct (IH fuel (reset x h)) as (h' & E & Hself & Hout);
      [done|done| |lia|].
    { apply (chain_frame h); [|done]. intros y Hy.
      rewrite nxt_reset by done. rewrite decide_False; [done|].
      by intros ->. }
    exists h'. cbn [ilist.clear_loop hd]. unfold ilist.end_ at 1.
    rewrite bind_ret.
    assert (x ≠ a) as ->%Nat.eqb_neq by done.
    rewrite bind_ret. erewrite exec_get_next by exact Hx.
    rewrite (bind_Some _ _ _ _ _ (clear_exec h x Lx)).
    split; [done|]. split.
    + intros y [->|Hy]%elem_of_cons; [|by apply Hself].
      unfold self_linked. rewrite (Hout x Hxr). by apply self_linked_reset.
    + apply (same_outside_trans [x] r _ h (reset x h) h');
        [by apply same_outside_reset|done|..].
      * intros y ->%list_elem_of_singleton. apply list_elem_of_here.
      * intros y Hy. by apply list_elem_of_further.
Qed.

Lemma is_list_header_fresh h a l : is_list h a l → a ∉ l.
Proof. by intros [[? _]%NoDup_cons _]. Qed.

Lemma is_list_NoDup h a l : is_list h a l → NoDup l.
Proof. by intros [[_ ?]%NoDup_cons _]. Qed.

End walks.

(** X9: [size()] returns the number of elements and changes nothing. *)
Theorem size_counts_the_elements h this l fuel :
  is_list h this l → length l < fuel →
  ilist.size fuel this h = Some (length l, h).
Proof.
  intros Hl Hf. unfold ilist.size, ilist.begin, ilist.end_.
  erewrite exec_get_next by (eapply is_list_begin; exact Hl).
  rewrite bind_ret. apply distance_chain; [|by apply (is_list_chain h this [])|done].
  by eapply is_list_header_fresh.
Qed.

Lemma size_counts_the_elements_witness :
  ilist.size 3 0 two_elements = Some (length [1; 2], two_elements).
Proof.
  apply (size_counts_the_elements two_elements 0 [1; 2] 3).
  - list_eval.
  - simpl. lia.
Defined.

(** X10: the loop from [begin()] to [end()] with [++] visits the
    elements in their order, the loop from [rbegin()] to [rend()] visits
    them in the opposite order, and neither changes the heap. *)
Theorem iteration_visits_the_elements h this l fuel :
  is_list h this l → length l < fuel →
  ilist.elements fuel this h = Some (l, h) ∧
  ilist.reverse_elements fuel this h = Some (reverse l, h).
Proof.
  intros Hl Hf. split.
  - unfold ilist.elements, ilist.begin, ilist.end_.
    erewrite exec_get_next by (eapply is_list_begin; exact Hl).
    rewrite bind_ret. apply iterate_chain; [|by apply (is_list_chain h this [])|done].
    by eapply is_list_header_fresh.
  - unfold ilist.reverse_elements, ilist.begin, ilist.end_.
    rewrite bind_ret.
    erewrite exec_get_next by (eapply is_list_begin; exact Hl).
    pose proof (reverse_iterate_spec h this l [] fuel) as E.
    rewrite app_nil_r in E. by apply E.
Qed.

Lemma iteration_visits_the_elements_witness :
  ilist.elements 3 0 two_elements = Some ([1; 2], two_elements) ∧
  ilist.reverse_elements 3 0 two_elements = Some (reverse [1; 2], two_elements).
Proof.
  apply (iteration_visits_the_elements two_elements 0 [1; 2] 3).
  - list_eval.
  - simpl. lia.
Defined.

(** [clear] on a list. *)
Lemma clear_spec h this l fuel :
  is_list h this l → length l < fuel →
  ∃ h', ilist.clear fuel this h = Some (tt, h') ∧
        is_list h' this [] ∧
        (∀ x, x ∈ l → self_linked h' x) ∧
        same_outside (this :: l) h h'.
Proof.
  intros Hl Hf.
  pose proof (is_list_header_fresh _ _ _ Hl) as Ha.
  destruct (clear_loop_chain this l fuel h) as (h1 & E1 & Hself & Hout);
    [by eapply is_list_NoDup|done|by apply (is_list_chain h this [])|done|].
  assert (live h1 this) as Lt.
  { unfold live. rewrite (Hout this Ha).
    apply (is_list_live h this l); [done|apply list_elem_of_here]. }
  exists (reset this h1). unfold ilist.clear, ilist.begin.
  erewrite exec_get_next by (eapply is_list_begin; exact Hl).
  rewrite (bind_Some _ _ _ _ _ E1).
  split; [by apply clear_exec|]. split; [|split].
  - by apply is_list_nil, self_linked_reset.
  - intros x Hx. unfold self_linked.
    rewrite (same_outside_reset h1 this Lt x); [by apply Hself|].
    intros ->%list_elem_of_singleton. done.
  - apply (same_outside_trans l [this] _ h h1 (reset this h1));
      [done|by apply same_outside_reset|..].
    + intros y Hy. by apply list_elem_of_further.
    + intros y ->%list_elem_of_singleton. apply list_elem_of_here.
Qed.

(** X11: [clear()] returns, leaves the list empty and every former
    element self-linked, and writes to no other node. *)
Theorem clear_unlinks_every_element h this l fuel :
  is_list h this l → length l < fuel →
  ∃ h', ilist.clear fuel this h = Some (tt, h') ∧
        is_list h' this [] ∧
        (∀ x, x ∈ l → self_linked h' x) ∧
        same_outside (this :: l) h h'.
Proof. apply clear_spec. Qed.

Lemma clear_unlinks_every_element_witness :
  ∃ h', ilist.clear 3 0 two_elements = Some (tt, h') ∧
        is_list h' 0 [] ∧
        (∀ x, x ∈ [1; 2] → self_linked h' x) ∧
        same_outside (0 :: [1; 2]) two_elements h'.
Proof.
  apply (clear_unlinks_every_element two_elements 0 [1; 2] 3).
  - list_eval.
  - simpl. lia.
Defined.

(** ** Ranges: [insert] of a range and the range constructor *)

Section ranges.
Implicit Types (h : gmap nat intrusive_list_node) (a x y : nat).
Implicit Types (l rest pre vs : list nat).

Lemma insert_each_spec vs :
  ∀ h a l1 l2,
  is_list h a (l1 ++ l2) → NoDup vs → (∀ v, v ∈ vs → live h v) →
  disj vs (a :: l1 ++ l2) →
  ∃ h', ilist.insert_each (hd a l2) vs h = Some (tt, h') ∧
        is_list h' a (l1 ++ vs ++ l2) ∧
        same_outside (vs ++ a :: l1 ++ l2) h h'.
Proof.
  induction vs as [|v vs IH]; intros h a l1 l2 Hl Hnd Hlive Hd.
  - exists h. split; [done|]. split; [done|apply same_outside_refl].
  - apply NoDup_cons in Hnd as [Hv Hnd].
    apply disj_cons_l in Hd as [Hvl Hd].
    destruct (insert_spec h a l1 l2 v) as (h1 & E1 & Hl1 & Ho1);
      [done|apply Hlive, list_elem_of_here|done|].
    replace (l1 ++ v :: l2) with ((l1 ++ [v]) ++ l2) in Hl1
      by by rewrite <- app_assoc.
    destruct (IH h1 a (l1 ++ [v]) l2) as (h' & E & Hl' & Ho'); [done|done|..].
    { intros w Hw. unfold live. rewrite (Ho1 w).
      - by apply Hlive, list_elem_of_further.
      - intros [->|Hin]%elem_of_cons; [done|]. by apply (Hd w). }
    { apply disj_intro. intros w Hw Hin. apply (Hd w Hw).
      revert Hin. mem_unfold.
      intros [?|[[?|[->|[]]]|?]]; [tauto|tauto|done|tauto]. }
    exists h'. cbn [ilist.insert_each].
    rewrite (bind_Some _ _ _ _ _ E1). split; [done|]. split.
    + by rewrite <- app_assoc in Hl'.
    + apply (same_outside_trans _ _ _ _ _ _ Ho1 Ho'); intros y; mem_tauto.
Qed.

Lemma insert_range_spec h a l1 l2 vs :
  is_list h a (l1 ++ l2) → NoDup vs → (∀ v, v ∈ vs → live h v) →
  disj vs (a :: l1 ++ l2) →
  ∃ h', ilist.insert_range (hd a l2) vs h = Some (hd a l2, h') ∧
        is_list h' a (l1 ++ vs ++ l2) ∧
        same_outside (vs ++ a :: l1 ++ l2) h h'.
Proof.
  intros Hl Hnd Hlive Hd.
  destruct (insert_each_spec vs h a l1 l2) as (h' & E & ? & ?); [done..|].
  exists h'. unfold ilist.insert_range. rewrite bind_ret.
  by rewrite (bind_Some _ _ _ _ _ E).
Qed.

End ranges.

(** The list 1, 2 with header 0, and three nodes in no list. *)
Definition list_and_three_nodes : gmap nat intrusive_list_node :=
  heap_of (build 0 [1; 2] ;; construct_all [5; 6; 7]).

(** The range constructor at a free address. *)
Lemma construct_range_spec (h : gmap nat intrusive_list_node) vs fresh :
  NoDup vs → (∀ v, v ∈ vs → live h v) → h !! fresh = None →
  ∃ h', ilist.construct_range fresh vs h = Some (tt, h') ∧
        is_list h' fresh vs ∧
        same_outside (fresh :: vs) h h'.
Proof.
  intros Hnd Hlive Hfresh.
  assert (node.construct fresh h
          = Some (tt, <[fresh := Node fresh fresh]> h)) as E1.
  { unfold node.construct. by rewrite Hfresh. }
  destruct (construct_self_linked _ _ _ E1) as [Hf Hnl].
  destruct (insert_range_spec (<[fresh := Node fresh fresh]> h) fresh [] [] vs)
    as (h' & E & Hl' & Ho'); [by apply is_list_nil|done|..].
  { intros v Hv. unfold live. rewrite lookup_insert_ne; [by apply Hlive|].
    intros ->. by apply Hnl, Hlive. }
  { apply disj_intro. intros v Hv ->%list_elem_of_singleton.
    by apply Hnl, Hlive. }
  exists h'. unfold ilist.construct_range, ilist.construct, ilist.begin.
  rewrite (bind_Some _ _ _ _ _ E1).
  erewrite exec_get_next
    by (apply self_linked_nxt_prv in Hf as [Hn _]; exact Hn).
  cbn [hd] in E. rewrite (bind_Some _ _ _ _ _ E).
  rewrite app_nil_r in Hl'. split; [done|]. split; [done|].
  intros y Hy. rewrite Ho'.
  - apply lookup_insert_ne. intros ->. apply Hy, list_elem_of_here.
  - revert Hy. mem_tauto.
Qed.

(** X12: [insert(pos, first, last)] links the objects of the input
    range, in their order, in front of [pos] and returns [pos]; the
    objects are distinct, live and not in the list.  The range
    constructor builds the list of the objects of its range. *)
Theorem insert_range_keeps_the_order h this l1 l2 vs fresh :
  is_list h this (l1 ++ l2) → NoDup vs → (∀ v, v ∈ vs → live h v) →
  disj vs (this :: l1 ++ l2) → h !! fresh = None →
  (∃ h', ilist.insert_range (hd this l2) vs h = Some (hd this l2, h') ∧
         is_list h' this (l1 ++ vs ++ l2) ∧
         same_outside (vs ++ this :: l1 ++ l2) h h') ∧
  (∃ h', ilist.construct_range fresh vs h = Some (tt, h') ∧
         is_list h' fresh vs ∧
         same_outside (fresh :: vs) h h').
Proof.
  intros Hl Hnd Hlive Hd Hfresh.
  split; [by apply insert_range_spec|by apply construct_range_spec].
Qed.

Lemma insert_range_keeps_the_order_witness :
  (∃ h', ilist.insert_range (hd 0 [2]) [5; 6; 7] list_and_three_nodes
           = Some (hd 0 [2], h') ∧
         is_list h' 0 ([1] ++ [5; 6; 7] ++ [2]) ∧
         same_outside ([5; 6; 7] ++ 0 :: [1] ++ [2]) list_and_three_nodes h') ∧
  (∃ h', ilist.construct_range 20 [5; 6; 7] list_and_three_nodes
           = Some (tt, h') ∧
         is_list h' 20 [5; 6; 7] ∧
         same_outside (20 :: [5; 6; 7]) list_and_three_nodes h').
Proof.
  apply (insert_range_keeps_the_order list_and_three_nodes 0 [1] [2]
           [5; 6; 7] 20).
  - list_eval.
  - decide_eval.
  - intros v Hv. apply (bool_decide_unpack _).
    revert v Hv. apply Forall_forall. decide_eval.
  - disj_eval.
  - by_eval.
Defined.

(** The list 1, 2, 3, 4 with header 0. *)
Definition four_elements : gmap nat intrusive_list_node :=
  heap_of (build 0 [1; 2; 3; 4]).

(** ** Moving and destroying an element *)

Section element_move.
Implicit Types (h : gmap nat intrusive_list_node) (a x y o t : nat).
Implicit Types (l : list nat).

(** [move] from an element of a list: the target takes its place. *)
Lemma move_in_place h a l1 o l2 t :
  is_list h a (l1 ++ o :: l2) → live h t → t ∉ a :: l1 ++ o :: l2 →
  ∃ h', node.move t o h = Some (tt, h') ∧
        is_list h' a (l1 ++ t :: l2) ∧ self_linked h' o ∧
        same_outside (t :: a :: l1 ++ o :: l2) h h'.
Proof.
  intros Hl Lt Ht.
  pose proof (is_list_nxt _ _ _ _ _ Hl) as Hn.
  pose proof (is_list_prv _ _ _ _ _ Hl) as Hp.
  pose proof (hd_elem a l2) as En. pose proof (last_elem a l1) as Ep.
  assert (live h o) as Lo by eauto with heap.
  assert (live h (hd a l2)) as Ln
    by (apply (is_list_live _ _ _ _ Hl); mem_solve).
  assert (live h (List.last l1 a)) as Lp
    by (apply (is_list_live _ _ _ _ Hl); mem_solve).
  assert (hd a l2 ≠ o) as Hno.
  { intros E. apply (is_list_elem_in_list _ _ _ o Hl); [apply elem_mid|].
    by rewrite Hn, E. }
  assert (t ≠ o) as Hto.
  { intros ->. apply Ht. apply list_elem_of_further, elem_mid. }
  exists (moved t o (hd a l2) (List.last l1 a) h).
  split; [by apply move_exec_in_list|].
  destruct Hl as [Hnd Hpath].
  apply path_elem in Hpath as (P1 & L1 & L2 & P2).
  assert (NoDup (a :: l1)) as N1 by (by apply NoDup_front in Hnd).
  assert (NoDup (l2 ++ [a])) as N2.
  { apply (NoDup_back a (l1 ++ [o])). by rewrite <- app_assoc. }
  assert (NoDup (a :: l1 ++ t :: l2)) as N3.
  { apply NoDup_cons in Hnd as [H1 Hnd].
    apply NoDup_app in Hnd as (H2 & H3 & Hnd).
    apply NoDup_cons in Hnd as [H4 Hnd].
    apply NoDup_cons. split; [mem_solve|].
    apply NoDup_app. split; [done|]. split; [mem_solve|].
    apply NoDup_cons. mem_solve. }
  nodup_facts Hnd.
  split; [split|split]; [done| | |].
  - apply path_elem. split; [|split; [|split]].
    + apply (path_frame_front h); [done|done|move_frame_tac|move_frame_tac].
    + split; move_frame_tac.
    + split; move_frame_tac.
    + apply (path_frame_back h); [done|done|move_frame_tac|move_frame_tac].
  - apply self_linked_nxt_prv. split; move_frame_tac.
  - apply same_outside_intro; move_frame_tac.
Qed.

Lemma unlinked_self h t : self_linked h t → unlinked t t h = h.
Proof.
  intros Ht. pose proof Ht as [Hn Hp]%self_linked_nxt_prv.
  assert (live h t) by eauto with heap.
  apply heap_eq; intros y; rewrite ?nxt_unlinked, ?prv_unlinked by done;
    case_decide; by subst.
Qed.

Lemma same_outside_delete h x : same_outside [x] h (delete x h).
Proof.
  intros y Hy. apply lookup_delete_ne. intros ->. apply Hy, list_elem_of_here.
Qed.

End element_move.

(** X14: moving a link field (move constructor at a free address, or
    move assignment onto a field that is in no list) from an element of a
    list puts the new field at the place of the old one in that list and
    leaves the old one self-linked. *)
Theorem node_move_takes_the_place h this l1 o l2 fresh t :
  is_list h this (l1 ++ o :: l2) → h !! fresh = None → self_linked h t →
  (∃ h', node.move_construct fresh o h = Some (tt, h') ∧
         is_list h' this (l1 ++ fresh :: l2) ∧ self_linked h' o ∧
         same_outside (fresh :: this :: l1 ++ o :: l2) h h') ∧
  (∃ h', node.move_assign t o h = Some (tt, h') ∧
         is_list h' this (l1 ++ t :: l2) ∧ self_linked h' o ∧
         same_outside (t :: this :: l1 ++ o :: l2) h h').
Proof.
  intros Hl Hfresh Ht. split.
  - assert (node.construct fresh h
            = Some (tt, <[fresh := Node fresh fresh]> h)) as E1.
    { unfold node.construct. by rewrite Hfresh. }
    destruct (construct_self_linked _ _ _ E1) as [Hf Hnl].
    pose proof (construct_frame _ _ _ _ _ E1 Hl) as Hl1.
    destruct (move_in_place (<[fresh := Node fresh fresh]> h)
                this l1 o l2 fresh) as (h' & E & ? & ? & Ho); [done|..].
    { apply self_linked_nxt_prv in Hf as [? _]. eauto with heap. }
    { intros Hin. by apply Hnl, (is_list_live h this (l1 ++ o :: l2)). }
    exists h'. unfold node.move_construct.
    rewrite (bind_Some _ _ _ _ _ E1). split; [done|]. split; [done|].
    split; [done|]. intros y Hy. rewrite (Ho y Hy).
    apply lookup_insert_ne. intros ->. apply Hy, list_elem_of_here.
  - assert (t ∉ this :: l1 ++ o :: l2) as Htl.
    { intros [->|Hin]%elem_of_cons.
      - apply is_list_nil in Ht.
        pose proof (is_list_unique _ _ _ _ Hl Ht) as E.
        by destruct l1.
      - by apply (self_linked_not_elem h this (l1 ++ o :: l2) t). }
    pose proof Ht as [Hn Hp]%self_linked_nxt_prv.
    assert (live h t) as Lt by eauto with heap.
    destruct (move_in_place h this l1 o l2 t) as (h' & E & ?); [done..|].
    exists h'. unfold node.move_assign.
    rewrite (unlink_exec h t t t) by done.
    by rewrite unlinked_self.
Qed.

Lemma node_move_takes_the_place_witness :
  (∃ h', node.move_construct 20 1 list_and_loose_node = Some (tt, h') ∧
         is_list h' 0 ([] ++ 20 :: [2]) ∧ self_linked h' 1 ∧
         same_outside (20 :: 0 :: [] ++ 1 :: [2]) list_and_loose_node h') ∧
  (∃ h', node.move_assign 5 1 list_and_loose_node = Some (tt, h') ∧
         is_list h' 0 ([] ++ 5 :: [2]) ∧ self_linked h' 1 ∧
         same_outside (5 :: 0 :: [] ++ 1 :: [2]) list_and_loose_node h').
Proof.
  apply (node_move_takes_the_place list_and_loose_node 0 [] 1 [2] 20 5).
  - list_eval.
  - by_eval.
  - by_eval.
Defined.

(** X15: the destructor of a link field unlinks it before its storage
    goes: in a consistent heap it returns, the heap stays consistent, no
    live field points to the destroyed one, and a list that held the
    object holds the other elements in their order. *)
Theorem destroy_leaves_no_dangling_pointer h x :
  consistent h → live h x →
  ∃ h', node.destroy x h = Some (tt, h') ∧
        h' !! x = None ∧ consistent h' ∧
        (∀ y nd, h' !! y = Some nd → next_ nd ≠ x ∧ previous_ nd ≠ x) ∧
        (∀ this l1 l2, is_list h this (l1 ++ x :: l2) →
                       is_list h' this (l1 ++ l2)).
Proof.
  intros Hc Lx.
  destruct (consistent_live_nxt h x Hc Lx) as (n & p & Hn & Hp & Hn' & Hp').
  assert (live h n) as Ln by eauto with heap.
  assert (live h p) as Lp by eauto with heap.
  pose proof (remove_exec h x n p Hn Hp Ln Lp) as E.
  destruct (consistent_remove _ _ _ _ Hc E) as (Hc1 & Hs1 & _).
  set (h1 := removed x n p h) in *.
  pose proof Hs1 as [Hsn Hsp]%self_linked_nxt_prv.
  assert (∀ y nd, delete x h1 !! y = Some nd →
                  y ≠ x ∧ h1 !! y = Some nd ∧
                  next_ nd ≠ x ∧ previous_ nd ≠ x) as Hnd.
  { intros y nd Hy. destruct (decide (y = x)) as [->|Hyx].
    - by rewrite lookup_delete_eq in Hy.
    - rewrite lookup_delete_ne in Hy by done.
      destruct (Hc1 y nd Hy) as [Hb Hf]. split; [done|]. split; [done|].
      split; intros Ex; [rewrite Ex in Hb|rewrite Ex in Hf]; congruence. }
  exists (delete x h1). split; [|split; [|split; [|split]]].
  - unfold node.destroy. by rewrite (bind_Some _ _ _ _ _ E).
  - apply lookup_delete_eq.
  - intros f nd Hf. destruct (Hnd f nd Hf) as (Hfx & Hf1 & Hnx & Hpx).
    destruct (Hc1 f nd Hf1) as [Hb Hfw]. unfold prv, nxt in *.
    by rewrite !lookup_delete_ne.
  - intros y nd Hy. by destruct (Hnd y nd Hy) as (_ & _ & ? & ?).
  - intros this l1 l2 Hl.
    destruct (remove_elem h this l1 x l2 Hl) as (h'' & E' & Hl' & _).
    rewrite E in E'. injection E' as <-.
    apply (is_list_frame [x] h1); [done|apply same_outside_delete|].
    intros y Hy ->%list_elem_of_singleton.
    destruct Hl as [Hnodup _]. apply NoDup_cons in Hnodup as [Hh Hnodup].
    apply NoDup_app in Hnodup as (_ & Hd & [Hx2 _]%NoDup_cons).
    revert Hy. rewrite elem_of_cons, elem_of_app. intros [->|[Hin|Hin]].
    + apply Hh, elem_mid.
    + apply (Hd _ Hin), list_elem_of_here.
    + done.
Qed.

Lemma destroy_leaves_no_dangling_pointer_witness :
  ∃ h', node.destroy 1 two_elements = Some (tt, h') ∧
        h' !! 1 = None ∧ consistent h' ∧
        (∀ y nd, h' !! y = Some nd → next_ nd ≠ 1 ∧ previous_ nd ≠ 1) ∧
        (∀ this l1 l2, is_list two_elements this (l1 ++ 1 :: l2) →
                       is_list h' this (l1 ++ l2)).
Proof.
  apply (destroy_leaves_no_dangling_pointer two_elements 1).
  - apply consistentb_spec. by_eval.
  - decide_eval.
Defined.

(** ** [swap] and [splice] where they work *)

Section swap_again.
Implicit Types (h : gmap nat intrusive_list_node) (a b x y : nat).
Implicit Types (l : list nat).

(** A heap that shows the same two lists, and agrees elsewhere, is the
    same heap. *)
Lemma two_lists_restored h h' a la b lb :
  is_list h a la → is_list h b lb →
  is_list h' a la → is_list h' b lb →
  same_outside ((a :: la) ++ (b :: lb)) h h' → h' = h.
Proof.
  intros Ha Hb Ha' Hb' Hout. apply (same_outside_eq _ _ _ Hout).
  intros y [Hy|Hy]%elem_of_app.
  - by apply (is_list_agree h h' a la).
  - by apply (is_list_agree h h' b lb).
Qed.

Lemma disj_exchange h a la b lb :
  is_list h a la → is_list h b lb → disj (a :: la) (b :: lb) →
  disj (a :: lb) (b :: la).
Proof.
  intros Ha Hb Hd. apply disj_intro. intros y.
  pose proof (is_list_header_fresh _ _ _ Ha).
  pose proof (is_list_header_fresh _ _ _ Hb).
  assert (a ≠ b).
  { intros ->. apply (Hd b); apply list_elem_of_here. }
  assert (∀ z, z ∈ lb → z ∈ la → False).
  { intros z Hz1 Hz2. apply (Hd z); by apply list_elem_of_further. }
  rewrite !elem_of_cons. intros [->|Hy1] [E|Hy2]; subst; eauto.
Qed.

End swap_again.

(** X16: when both lists are empty or both hold elements, [swap]
    exchanges their elements, writes to no node outside the two lists,
    and a second [swap] restores every node of the heap. *)
Theorem swap_exchanges_the_elements h a la b lb :
  is_list h a la → is_list h b lb → disj (a :: la) (b :: lb) →
  (la = [] ↔ lb = []) →
  ∃ h', ilist.swap a b h = Some (tt, h') ∧
        is_list h' a lb ∧ is_list h' b la ∧
        same_outside ((a :: la) ++ (b :: lb)) h h' ∧
        ilist.swap a b h' = Some (tt, h).
Proof.
  intros Ha Hb Hd Hem.
  assert (a ≠ b) as Hab.
  { intros ->. apply (Hd b); apply list_elem_of_here. }
  destruct la as [|fa la], lb as [|fb lb];
    [|by destruct Hem as [Hem _]; specialize (Hem eq_refl)
     |by destruct Hem as [_ Hem]; specialize (Hem eq_refl)|].
  - exists h. apply is_list_nil in Ha as Ha'. apply is_list_nil in Hb as Hb'.
    rewrite (swap_empty_exec h a b) by done.
    split; [done|]. split; [done|]. split; [done|].
    split; [apply same_outside_refl|done].
  - destruct (swap_lists h a fa la b fb lb) as (h' & E & Ha' & Hb' & Ho);
      [done..|].
    exists h'. split; [done|]. split; [done|]. split; [done|]. split; [done|].
    destruct (swap_lists h' a fb lb b fa la) as (h'' & E' & Ha'' & Hb'' & Ho');
      [done|done|by apply (disj_exchange h)|].
    rewrite E'. do 2 f_equal.
    apply (two_lists_restored h h'' a (fa :: la) b (fb :: lb)); [done..|].
    apply (same_outside_trans _ _ _ _ _ _ Ho Ho'); intros y; mem_tauto.
Qed.

Lemma swap_exchanges_the_elements_witness :
  ∃ h', ilist.swap 0 10 two_lists = Some (tt, h') ∧
        is_list h' 0 [11] ∧ is_list h' 10 [1; 2] ∧
        same_outside ((0 :: [1; 2]) ++ (10 :: [11])) two_lists h' ∧
        ilist.swap 0 10 h' = Some (tt, two_lists).
Proof.
  apply (swap_exchanges_the_elements two_lists 0 [1; 2] 10 [11]).
  - list_eval.
  - list_eval.
  - disj_eval.
  - split; intros [=].
Defined.

(** X17: [splice(pos, first, last)] with the range in another list than
    [pos] moves the range, in its order, in front of [pos]; the other
    list keeps the rest of its elements, and no node outside the two
    lists is written. *)
Theorem splice_moves_the_range h a l1 l2 b m1 f m2 m3 :
  is_list h a (l1 ++ l2) → is_list h b (m1 ++ (f :: m2) ++ m3) →
  disj (a :: l1 ++ l2) (b :: m1 ++ (f :: m2) ++ m3) →
  ∃ h', ilist.splice (hd a l2) f (hd b m3) h = Some (tt, h') ∧
        is_list h' a (l1 ++ (f :: m2) ++ l2) ∧ is_list h' b (m1 ++ m3) ∧
        same_outside ((a :: l1 ++ l2) ++ (b :: m1 ++ (f :: m2) ++ m3)) h h'.
Proof. intros Ha Hb Hd. by apply splice_lists. Qed.

(** The list 1, 2 with header 0 and the list 11, 12, 13 with header 10. *)
Definition two_longer_lists : gmap nat intrusive_list_node :=
  heap_of (build 0 [1; 2] ;; build 10 [11; 12; 13]).

Lemma splice_moves_the_range_witness :
  ∃ h', ilist.splice (hd 0 [2]) 11 (hd 10 [13]) two_longer_lists
          = Some (tt, h') ∧
        is_list h' 0 ([1] ++ [11; 12] ++ [2]) ∧ is_list h' 10 ([] ++ [13]) ∧
        same_outside ((0 :: [1] ++ [2]) ++ (10 :: [] ++ [11; 12] ++ [13]))
          two_longer_lists h'.
Proof.
  apply (splice_moves_the_range two_longer_lists 0 [1] [2] 10 [] 11 [12] [13]).
  - list_eval.
  - list_eval.
  - disj_eval.
Defined.

(** X18: [splice(pos, other)] moves all the elements of the other list,
    in their order, in front of [pos] and leaves the other list empty;
    when the other list is empty nothing is written. *)
Theorem splice_list_moves_everything h a l1 l2 b lb :
  is_list h a (l1 ++ l2) → is_list h b lb →
  disj (a :: l1 ++ l2) (b :: lb) →
  ∃ h', ilist.splice_list (hd a l2) b h = Some (tt, h') ∧
        is_list h' a (l1 ++ lb ++ l2) ∧ is_list h' b [] ∧
        same_outside ((a :: l1 ++ l2) ++ (b :: lb)) h h' ∧
        (lb = [] → h' = h).
Proof.
  intros Ha Hb Hd. unfold ilist.splice_list, ilist.begin, ilist.end_.
  erewrite exec_get_next by (eapply is_list_begin; exact Hb).
  rewrite bind_ret. destruct lb as [|f m].
  - exists h. cbn [hd]. unfold ilist.splice. rewrite Nat.eqb_refl.
    split; [done|]. split; [done|]. split; [done|].
    split; [apply same_outside_refl|done].
  - destruct (splice_lists h a l1 l2 b [] f m []) as (h' & E & Ha' & Hb' & Ho).
    + done.
    + by rewrite app_nil_r.
    + by rewrite app_nil_r.
    + exists h'. cbn [hd] in *. rewrite app_nil_r in Ho.
      split; [done|]. split; [done|]. split; [done|]. split; [done|].
      intros [=].
Qed.

Lemma splice_list_moves_everything_witness :
  ∃ h', ilist.splice_list (hd 0 [2]) 10 two_longer_lists = Some (tt, h') ∧
        is_list h' 0 ([1] ++ [11; 12; 13] ++ [2]) ∧ is_list h' 10 [] ∧
        same_outside ((0 :: [1] ++ [2]) ++ (10 :: [11; 12; 13]))
          two_longer_lists h' ∧
        ([11; 12; 13] = [] → h' = two_longer_lists).
Proof.
  apply (splice_list_moves_everything two_longer_lists 0 [1] [2] 10
           [11; 12; 13]).
  - list_eval.
  - list_eval.
  - disj_eval.
Defined.

(** X19: [splice(pos, iter)] and [splice(pos, value)] move one element
    of another list in front of [pos].  *)
Theorem splice_moves_one_element h a l1 l2 b m1 x m3 :
  is_list h a (l1 ++ l2) → is_list h b (m1 ++ x :: m3) →
  disj (a :: l1 ++ l2) (b :: m1 ++ x :: m3) →
  (∃ h', ilist.splice_iter (hd a l2) x h = Some (tt, h') ∧
         is_list h' a (l1 ++ x :: l2) ∧ is_list h' b (m1 ++ m3)) ∧
  (∃ h', ilist.splice_one (hd a l2) x h = Some (tt, h') ∧
         is_list h' a (l1 ++ x :: l2) ∧ is_list h' b (m1 ++ m3)).
Proof.
  intros Ha Hb Hd. split.
  - destruct (splice_lists h a l1 l2 b m1 x [] m3) as (h' & E & Ha' & Hb' & _);
      [done..|].
    exists h'. unfold ilist.splice_iter.
    erewrite exec_get_next by (eapply is_list_nxt; exact Hb). done.
  - destruct (remove_elem h b m1 x m3 Hb) as (h1 & E1 & Hb1 & Hx1 & Ho1).
    assert (x ∉ a :: l1 ++ l2) as Hxa.
    { intros Hin. apply (Hd x Hin). apply list_elem_of_further, elem_mid. }
    assert (is_list h1 a (l1 ++ l2)) as Ha1.
    { apply (is_list_frame _ h _ _ _ Ha Ho1). intros y Hy. by apply Hd. }
    destruct (insert_spec h1 a l1 l2 x) as (h' & E & Ha' & Ho'); [done| |done|].
    { apply self_linked_nxt_prv in Hx1 as [? _]. eauto with heap. }
    exists h'. unfold ilist.splice_one, ilist.remove.
    rewrite (bind_Some _ _ _ _ _ E1), (bind_Some _ _ _ _ _ E).
    split; [done|]. split; [done|].
    apply (is_list_frame _ h1 _ _ _ Hb1 Ho'). intros y Hy.
    rewrite elem_of_cons. intros [->|Hin].
    + destruct Hb as [Hnd _]. apply NoDup_cons in Hnd as [Hbh Hnd].
      apply NoDup_app in Hnd as (_ & Hd1 & [Hx3 _]%NoDup_cons).
      revert Hy. rewrite elem_of_cons, elem_of_app. intros [->|[Hy|Hy]].
      * apply Hbh, elem_mid.
      * apply (Hd1 _ Hy), list_elem_of_here.
      * done.
    + apply (Hd y Hin). revert Hy. mem_tauto.
Qed.

Lemma splice_moves_one_element_witness :
  (∃ h', ilist.splice_iter (hd 0 [2]) 12 two_longer_lists = Some (tt, h') ∧
         is_list h' 0 ([1] ++ 12 :: [2]) ∧ is_list h' 10 ([11] ++ [13])) ∧
  (∃ h', ilist.splice_one (hd 0 [2]) 12 two_longer_lists = Some (tt, h') ∧
         is_list h' 0 ([1] ++ 12 :: [2]) ∧ is_list h' 10 ([11] ++ [13])).
Proof.
  apply (splice_moves_one_element two_longer_lists 0 [1] [2] 10 [11] 12 [13]).
  - list_eval.
  - list_eval.
  - disj_eval.
Defined.

(** ** [splice] inside one list *)

Section splice_within.
Implicit Types (h : gmap nat intrusive_list_node) (a b x y f g : nat).
Implicit Types (l m k : list nat).

(** A block in front of the rest of the circular chain. *)
Lemma path_block h g k l a :
  path h ((g :: k) ++ l ++ [a]) ↔
  path h (g :: k) ∧ link h (List.last k g) (hd a l) ∧ path h (l ++ [a]).
Proof.
  destruct l as [|y l]; cbn [hd].
  - change ((g :: k) ++ [] ++ [a]) with (g :: k ++ [a]).
    rewrite path_snoc_last. simpl. tauto.
  - change ((y :: l) ++ [a]) with (y :: l ++ [a]).
    rewrite path_app. change ((g :: k) ++ [y]) with (g :: k ++ [y]).
    rewrite path_snoc_last. tauto.
Qed.

(** The chain of a list with two adjacent blocks named. *)
Lemma path_two_blocks h a l1 f m g k l3 :
  path h (a :: (l1 ++ (f :: m) ++ (g :: k) ++ l3) ++ [a]) ↔
  path h (a :: l1) ∧ link h (List.last l1 a) f ∧ path h (f :: m) ∧
  link h (List.last m f) g ∧ path h (g :: k) ∧
  link h (List.last k g) (hd a l3) ∧ path h (l3 ++ [a]).
Proof.
  rewrite path_range. cbn [hd app]. rewrite <- app_assoc.
  rewrite (path_block h g k l3 a). tauto.
Qed.

Lemma splice_blocks h a l1 f m g k l3 :
  is_list h a (l1 ++ (f :: m) ++ (g :: k) ++ l3) →
  is_list (spliced (hd a l3) f g (List.last k g) (List.last l1 a)
             (List.last m f) h) a (l1 ++ (g :: k) ++ (f :: m) ++ l3) ∧
  same_outside (a :: l1 ++ (f :: m) ++ (g :: k) ++ l3) h
    (spliced (hd a l3) f g (List.last k g) (List.last l1 a)
       (List.last m f) h).
Proof.
  intros Hl.
  pose proof (hd_elem a l3) as En. pose proof (last_elem a l1) as Ep.
  pose proof (last_elem f m) as Epf. pose proof (last_elem g k) as Epg.
  assert (live h (hd a l3)) as Ln
    by (apply (is_list_live _ _ _ _ Hl); mem_solve).
  assert (live h (List.last l1 a)) as Lp
    by (apply (is_list_live _ _ _ _ Hl); mem_solve).
  assert (live h (List.last m f)) as Lpf
    by (apply (is_list_live _ _ _ _ Hl); mem_solve).
  assert (live h (List.last k g)) as Lpg
    by (apply (is_list_live _ _ _ _ Hl); mem_solve).
  assert (live h f) as Lf by (apply (is_list_live _ _ _ _ Hl); mem_solve).
  assert (live h g) as Lg by (apply (is_list_live _ _ _ _ Hl); mem_solve).
  destruct Hl as [Hnd Hpath].
  apply path_two_blocks in Hpath as (P1 & [L1 L1'] & Pf & [L2 L2'] & Pg
                                      & [L3 L3'] & P3).
  assert (NoDup (a :: l1)) as N1 by (by apply NoDup_front in Hnd).
  assert (NoDup (l3 ++ [a])) as N3.
  { apply (NoDup_back a (l1 ++ (f :: m) ++ (g :: k))).
    by rewrite <- !app_assoc. }
  assert (NoDup (f :: m)) as Nf.
  { apply NoDup_cons in Hnd as [_ Hnd].
    apply NoDup_app in Hnd as (_ & _ & Hnd).
    by apply NoDup_app in Hnd as (Hnd & _ & _). }
  assert (NoDup (g :: k)) as Ng.
  { apply NoDup_cons in Hnd as [_ Hnd].
    apply NoDup_app in Hnd as (_ & _ & Hnd).
    apply NoDup_app in Hnd as (_ & _ & Hnd).
    by apply NoDup_app in Hnd as (Hnd & _ & _). }
  nodup_facts Hnd.
  split; [split|].
  - nodup_goal.
  - apply path_two_blocks. split; [|split; [|split; [|split; [|split; [|split]]]]].
    + apply (path_frame_front h); [done|done|frame_tac|frame_tac].
    + split; frame_tac.
    + apply (path_frame_front h); [done|done|frame_tac|frame_tac].
    + split; frame_tac.
    + apply (path_frame_front h); [done|done|frame_tac|frame_tac].
    + split; frame_tac.
    + apply (path_frame_back h); [done|done|frame_tac|frame_tac].
  - apply same_outside_intro; frame_tac.
Qed.

(** The six assignments of [splice] treat its three iterators alike. *)
Lemma spliced_rotate h pos first last bp bf bl :
  live h pos → live h first → live h last →
  live h bp → live h bf → live h bl →
  pos ≠ first → first ≠ last → pos ≠ last →
  bp ≠ bf → bf ≠ bl → bp ≠ bl →
  spliced first last pos bf bl bp h = spliced pos first last bp bf bl h.
Proof.
  intros. apply heap_eq; intros y;
    rewrite ?nxt_spliced, ?prv_spliced by done;
    repeat case_decide; congruence.
Qed.

Lemma splice_within_exec h a l1 f m g k l3 :
  is_list h a (l1 ++ (f :: m) ++ (g :: k) ++ l3) →
  ilist.splice (hd a l3) f g h
    = Some (tt, spliced (hd a l3) f g (List.last k g) (List.last l1 a)
                  (List.last m f) h) ∧
  ilist.splice f g (hd a l3) h
    = Some (tt, spliced (hd a l3) f g (List.last k g) (List.last l1 a)
                  (List.last m f) h).
Proof.
  intros Hl.
  pose proof (hd_elem a l3) as En. pose proof (last_elem a l1) as Ep.
  pose proof (last_elem f m) as Epf. pose proof (last_elem g k) as Epg.
  assert (live h (hd a l3)) as Ln
    by (apply (is_list_live _ _ _ _ Hl); mem_solve).
  assert (live h (List.last l1 a)) as Lp
    by (apply (is_list_live _ _ _ _ Hl); mem_solve).
  assert (live h (List.last m f)) as Lpf
    by (apply (is_list_live _ _ _ _ Hl); mem_solve).
  assert (live h (List.last k g)) as Lpg
    by (apply (is_list_live _ _ _ _ Hl); mem_solve).
  assert (live h f) as Lf by (apply (is_list_live _ _ _ _ Hl); mem_solve).
  assert (live h g) as Lg by (apply (is_list_live _ _ _ _ Hl); mem_solve).
  destruct Hl as [Hnd Hpath].
  apply path_two_blocks in Hpath as (P1 & [L1 L1'] & Pf & [L2 L2'] & Pg
                                      & [L3 L3'] & P3).
  nodup_facts Hnd.
  assert (f ≠ g) as Hfg by (intros ->; mem_solve).
  assert (hd a l3 ≠ f) as Hpf by (name_ends; intros ->; mem_solve).
  assert (hd a l3 ≠ g) as Hpg by (name_ends; intros ->; mem_solve).
  assert (List.last k g ≠ List.last l1 a) as Hb1
    by (name_ends; intros ->; mem_solve).
  assert (List.last l1 a ≠ List.last m f) as Hb2
    by (name_ends; intros ->; mem_solve).
  assert (List.last k g ≠ List.last m f) as Hb3
    by (name_ends; intros ->; mem_solve).
  split.
  - by apply splice_exec.
  - rewrite <- spliced_rotate by done.
    apply splice_exec; done.
Qed.

End splice_within.

(** X20: inside one list [splice] exchanges two adjacent blocks: with
    the blocks [f..] and [g..] followed by [pos], moving the first block
    in front of [pos] ([splice(pos, f, g)]) and moving the second block in
    front of [f] ([splice(f, g, pos)]) return the same heap, in which the
    second block stands before the first and the rest of the list is as
    it was. *)
Theorem splice_exchanges_adjacent_blocks h this l1 f m g k l3 :
  is_list h this (l1 ++ (f :: m) ++ (g :: k) ++ l3) →
  ∃ h', ilist.splice (hd this l3) f g h = Some (tt, h') ∧
        ilist.splice f g (hd this l3) h = Some (tt, h') ∧
        is_list h' this (l1 ++ (g :: k) ++ (f :: m) ++ l3) ∧
        same_outside (this :: l1 ++ (f :: m) ++ (g :: k) ++ l3) h h'.
Proof.
  intros Hl. destruct (splice_within_exec _ _ _ _ _ _ _ _ Hl) as [E1 E2].
  destruct (splice_blocks _ _ _ _ _ _ _ _ Hl) as [Hl' Ho].
  eexists. split; [exact E1|]. split; [exact E2|]. done.
Qed.

Lemma splice_exchanges_adjacent_blocks_witness :
  ∃ h', ilist.splice (hd 0 [4]) 1 2 four_elements = Some (tt, h') ∧
        ilist.splice 1 2 (hd 0 [4]) four_elements = Some (tt, h') ∧
        is_list h' 0 ([] ++ [2; 3] ++ [1] ++ [4]) ∧
        same_outside (0 :: [] ++ [1] ++ [2; 3] ++ [4]) four_elements h'.
Proof.
  apply (splice_exchanges_adjacent_blocks four_elements 0 [] 1 [] 2 [3] [4]).
  list_eval.
Defined.

(** ** [merge], [sort] and [unique] where there is nothing to do *)

Section fixed_points.
Implicit Types (h : gmap nat intrusive_list_node) (a b x y : nat).
Implicit Types (l : list nat).

(** A heap that shows the same list, and agrees elsewhere, is the same
    heap. *)
Lemma list_restored h h' a l :
  is_list h a l → is_list h' a l → same_outside (a :: l) h h' → h' = h.
Proof.
  intros Hl Hl' Hout. apply (same_outside_eq _ _ _ Hout).
  intros y Hy. by apply (is_list_agree h h' a l).
Qed.

Lemma Sorted_mid (R : nat → nat → Prop) l1 (u v : nat) l2 :
  Sorted R (l1 ++ u :: v :: l2) → R u v.
Proof.
  induction l1 as [|w l1 IH]; simpl; intros Hs.
  - apply Sorted_inv in Hs as [_ Hr]. by apply HdRel_inv in Hr.
  - apply Sorted_inv in Hs as [Hs _]. by apply IH.
Qed.

Section sort_fixed.
Variable compare : nat → nat → bool.

Lemma place_at_the_end i pre e :
  compare i e = false → place compare i (pre ++ [e]) = (pre ++ [e]) ++ [i].
Proof.
  intros E. unfold place. rewrite rev_unit. simpl. rewrite E. simpl.
  by rewrite rev_involutive.
Qed.

Lemma sort_from_sorted rest :
  ∀ pre, sorted compare (pre ++ rest) →
  sort_from compare pre rest = pre ++ rest.
Proof.
  induction rest as [|i rest IH]; intros pre Hs; simpl.
  - by rewrite app_nil_r.
  - assert (place compare i pre = pre ++ [i]) as ->.
    { destruct pre as [|w pre]; [done|].
      destruct (snoc_view w pre) as (p & e & E). rewrite E in *.
      apply place_at_the_end. rewrite <- app_assoc in Hs.
      by apply Sorted_mid in Hs. }
    rewrite IH; rewrite <- app_assoc; done.
Qed.

Lemma sort_seq_sorted l : sorted compare l → sort_seq compare l = l.
Proof. intros Hs. by apply (sort_from_sorted l []). Qed.

Lemma sort_sorted_noop fuel h a l :
  is_list h a l → sorted compare l → length l < fuel →
  ilist.sort compare fuel a h = Some (tt, h).
Proof.
  intros Hl Hs Hf.
  destruct (sort_spec compare fuel h a l) as (h' & E & Hl' & Ho); [done..|].
  rewrite sort_seq_sorted in Hl' by done.
  rewrite E. do 2 f_equal. by apply (list_restored h h' a l).
Qed.

End sort_fixed.

Section unique_fixed.
Variable pred : nat → nat → bool.

Lemma unique_from_again x rest :
  ∀ t, unique_from pred x rest = x :: t → unique_from pred x t = x :: t.
Proof.
  revert x. induction rest as [|y rest IH]; intros x t; simpl.
  - by intros [= <-].
  - destruct (pred x y) eqn:E; [by apply IH|].
    intros [= <-].
    destruct (unique_from_hd pred y rest) as (t' & Et). rewrite Et.
    simpl. rewrite E. f_equal. by apply IH.
Qed.

Lemma unique_seq_again l :
  unique_seq pred (unique_seq pred l) = unique_seq pred l.
Proof.
  destruct l as [|x rest]; [done|]. simpl.
  destruct (unique_from_hd pred x rest) as (t & Et). rewrite Et. simpl.
  by apply (unique_from_again x rest).
Qed.

End unique_fixed.

End fixed_points.

(** X21: [merge] with an empty list needs no comparison: an empty
    [other] leaves every node as it was, and an empty [this] takes over
    the elements of [other] in their order, whether sorted or not. *)
Theorem merge_with_an_empty_list compare fuel h this la other lb :
  is_list h this la → is_list h other lb →
  disj (this :: la) (other :: lb) →
  length la + length lb < fuel → la = [] ∨ lb = [] →
  ∃ h', ilist.merge compare fuel this other h = Some (tt, h') ∧
        is_list h' this (la ++ lb) ∧ is_list h' other [] ∧
        (lb = [] → h' = h).
Proof.
  intros Ha Hb Hd Hf Hem.
  destruct (merge_spec compare fuel h this la other lb)
    as (h' & E & Ha' & Hb' & Ho); [done..|].
  assert (merge_seq compare la lb = la ++ lb) as Em.
  { destruct Hem as [->| ->].
    - apply merge_seq_nil_l.
    - rewrite app_nil_r. apply merge_seq_nil_r. }
  rewrite Em in Ha'. exists h'. split; [done|]. split; [done|].
  split; [done|]. intros ->. rewrite app_nil_r in Ha'.
  by apply (two_lists_restored h h' this la other []).
Qed.

Lemma merge_with_an_empty_list_witness :
  ∃ h', ilist.merge (by_value all_five) 2 0 10 empty_and_singleton
          = Some (tt, h') ∧
        is_list h' 0 ([] ++ [11]) ∧ is_list h' 10 [] ∧
        ([11] = [] → h' = empty_and_singleton).
Proof.
  apply (merge_with_an_empty_list (by_value all_five) 2 empty_and_singleton
           0 [] 10 [11]).
  - list_eval.
  - list_eval.
  - disj_eval.
  - simpl. lia.
  - by left.
Defined.

(** X22: [sort] leaves a list that is already in order exactly as it is:
    no node of the heap changes.  No property of the comparator is
    needed. *)
Theorem sort_leaves_a_sorted_list_alone compare fuel h this l :
  is_list h this l → sorted compare l → length l < fuel →
  ilist.sort compare fuel this h = Some (tt, h).
Proof. apply sort_sorted_noop. Qed.

(** The objects 1, 2, 3 carry 1, 1, 2. *)
Definition ascending_values : nat → nat := value_in [0; 1; 1; 2].

Definition three_elements : gmap nat intrusive_list_node :=
  heap_of (build 0 [1; 2; 3]).

Lemma sort_leaves_a_sorted_list_alone_witness :
  ilist.sort (by_value ascending_values) 4 0 three_elements
    = Some (tt, three_elements).
Proof.
  apply (sort_leaves_a_sorted_list_alone (by_value ascending_values) 4
           three_elements 0 [1; 2; 3]).
  - list_eval.
  - repeat constructor.
  - simpl. lia.
Defined.

(** X23: under a strict weak order, sorting a second time changes no
    node of the heap. *)
Theorem sort_twice_is_sort_once compare fuel h this l :
  strict_weak_order compare → is_list h this l → length l < fuel →
  ∃ h', ilist.sort compare fuel this h = Some (tt, h') ∧
        ilist.sort compare fuel this h' = Some (tt, h').
Proof.
  intros Hswo Hl Hf.
  destruct (sort_spec compare fuel h this l) as (h' & E & Hl' & _); [done..|].
  exists h'. split; [done|].
  apply (sort_sorted_noop compare fuel h' this (sort_seq compare l)).
  - done.
  - apply sorted_fully_sorted; [done|]. by apply sort_seq_fully_sorted.
  - by rewrite (sort_seq_perm compare l).
Qed.

Lemma sort_twice_is_sort_once_witness :
  ∃ h', ilist.sort (by_value sort_values) 6 0 pushed_5_3_5_1_4
          = Some (tt, h') ∧
        ilist.sort (by_value sort_values) 6 0 h' = Some (tt, h').
Proof.
  apply (sort_twice_is_sort_once (by_value sort_values) 6 pushed_5_3_5_1_4
           0 [1; 2; 3; 4; 5]).
  - apply by_value_swo.
  - list_eval.
  - simpl. lia.
Defined.

(** X24: for any predicate, [unique] leaves no work for a second
    [unique], which changes no node of the heap; and a list in which
    [unique] finds nothing to remove is left exactly as it is. *)
Theorem unique_twice_is_unique_once pred fuel h this l :
  is_list h this l → length l ≤ fuel →
  ∃ h', ilist.unique pred fuel this h = Some (tt, h') ∧
        ilist.unique pred fuel this h' = Some (tt, h') ∧
        (unique_seq pred l = l → h' = h).
Proof.
  intros Hl Hf.
  destruct (unique_spec pred fuel h this l) as (h' & E & Hl' & _ & Ho);
    [done..|].
  exists h'. split; [done|]. split.
  - destruct (unique_spec pred fuel h' this (unique_seq pred l))
      as (h'' & E' & Hl'' & _ & Ho'); [done| |].
    { pose proof (sublist_length _ _ (unique_seq_sublist pred l)). lia. }
    rewrite unique_seq_again in Hl''. rewrite E'. do 2 f_equal.
    by apply (list_restored h' h'' this (unique_seq pred l)).
  - intros Eq. rewrite Eq in Hl'. by apply (list_restored h h' this l).
Qed.

Lemma unique_twice_is_unique_once_witness :
  ∃ h', ilist.unique (same_value unique_values) 6 0 pushed_1_1_2_2_2_3
          = Some (tt, h') ∧
        ilist.unique (same_value unique_values) 6 0 h' = Some (tt, h') ∧
        (unique_seq (same_value unique_values) [1; 2; 3; 4; 5; 6]
           = [1; 2; 3; 4; 5; 6] → h' = pushed_1_1_2_2_2_3).
Proof.
  apply (unique_twice_is_unique_once (same_value unique_values) 6
           pushed_1_1_2_2_2_3 0 [1; 2; 3; 4; 5; 6]).
  - list_eval.
  - simpl. lia.
Defined.

(** ** Moving from a loose field, and the end of a list *)

Section loose.
Implicit Types (h : gmap nat intrusive_list_node) (a x y o t : nat).
Implicit Types (l : list nat).

Lemma nxt_delete_ne h x y : y ≠ x → nxt (delete x h) y = nxt h y.
Proof. intros. unfold nxt. by rewrite lookup_delete_ne. Qed.

Lemma prv_delete_ne h x y : y ≠ x → prv (delete x h) y = prv h y.
Proof. intros. unfold prv. by rewrite lookup_delete_ne. Qed.

Lemma self_linked_not_header h a x l :
  is_list h a (x :: l) → ¬ self_linked h a.
Proof.
  intros Hl Ha%is_list_nil. by pose proof (is_list_unique _ _ _ _ Hl Ha).
Qed.

End loose.

(** X25: move assignment from a field that is in no list takes the
    target out of its list: it leaves the heap that [remove] on the
    target leaves, with both fields self-linked. *)
Theorem move_assign_from_a_loose_field_unlinks h this l1 t l2 o :
  is_list h this (l1 ++ t :: l2) → self_linked h o →
  ∃ h', node.move_assign t o h = Some (tt, h') ∧
        node.remove t h = Some (t, h') ∧
        is_list h' this (l1 ++ l2) ∧
        self_linked h' t ∧ self_linked h' o.
Proof.
  intros Hl Ho.
  pose proof (is_list_nxt _ _ _ _ _ Hl) as Hn.
  pose proof (is_list_prv _ _ _ _ _ Hl) as Hp.
  assert (live h t) as Lt by eauto with heap.
  assert (live h (hd this l2)) as Ln.
  { apply (is_list_live _ _ _ _ Hl). generalize (hd_elem this l2). mem_tauto. }
  assert (live h (List.last l1 this)) as Lp.
  { apply (is_list_live _ _ _ _ Hl). generalize (last_elem this l1). mem_tauto. }
  assert (o ∉ this :: l1 ++ t :: l2) as Hol.
  { intros [->|Hin]%elem_of_cons.
    - destruct l1; by apply (self_linked_not_header h this _ _ Hl).
    - by apply (self_linked_not_elem h this (l1 ++ t :: l2) o). }
  assert (o ≠ List.last l1 this) as Hop.
  { intros ->. apply Hol. generalize (last_elem this l1). mem_tauto. }
  destruct (remove_elem h this l1 t l2 Hl) as (h' & E & Hl' & Ht' & Ho').
  pose proof (remove_exec h t _ _ Hn Hp Ln Lp) as E'.
  rewrite E' in E. injection E as <-.
  exists (removed t (hd this l2) (List.last l1 this) h).
  split; [|split; [done|split; [done|split; [done|]]]].
  - unfold node.move_assign.
    rewrite (unlink_exec h t (hd this l2) (List.last l1 this)) by done.
    rewrite (move_exec_not_in_list _ t o); [done|by apply live_unlinked|].
    rewrite nxt_unlinked by done. rewrite decide_False by done.
    by apply self_linked_nxt_prv in Ho as [? _].
  - unfold self_linked. by rewrite (Ho' o Hol).
Qed.

Lemma move_assign_from_a_loose_field_unlinks_witness :
  ∃ h', node.move_assign 1 5 list_and_loose_node = Some (tt, h') ∧
        node.remove 1 list_and_loose_node = Some (1, h') ∧
        is_list h' 0 ([] ++ [2]) ∧
        self_linked h' 1 ∧ self_linked h' 5.
Proof.
  apply (move_assign_from_a_loose_field_unlinks list_and_loose_node
           0 [] 1 [2] 5).
  - list_eval.
  - by_eval.
Defined.

(** X26: the destructor of a list takes only the header out of the
    chain: the storage of the header goes, and the former elements stay
    linked to one another in a ring, in their order; a single former
    element is left self-linked.  No other node is written. *)
Theorem destroying_a_list_keeps_the_elements_linked h this x l :
  is_list h this (x :: l) →
  ∃ h', ilist.destroy this h = Some (tt, h') ∧
        h' !! this = None ∧
        path h' (x :: l ++ [x]) ∧
        (l = [] → self_linked h' x) ∧
        same_outside [this; x; List.last l x] h h'.
Proof.
  intros Hl.
  pose proof (is_list_begin _ _ _ Hl) as Hn. cbn [hd] in Hn.
  pose proof (is_list_back _ _ _ Hl) as Hp.
  rewrite last_cons_default in Hp.
  assert (live h this) as Lt by eauto with heap.
  assert (live h x) as Lx.
  { apply (is_list_live _ _ _ _ Hl). mem_tauto. }
  assert (live h (List.last l x)) as Lp.
  { apply (is_list_live _ _ _ _ Hl). generalize (last_elem x l). mem_tauto. }
  pose proof (remove_exec h this _ _ Hn Hp Lx Lp) as E.
  destruct Hl as [Hnd Hpath].
  apply path_inner in Hpath as (L1 & P & L2).
  apply NoDup_cons in Hnd as [Hth Hnd].
  assert (x ≠ this) as Hxt.
  { intros ->. apply Hth, list_elem_of_here. }
  assert (List.last l x ≠ this) as Hpt.
  { intros E'. apply Hth. rewrite <- E'. apply last_elem. }
  set (h1 := removed this x (List.last l x) h) in *.
  assert (path (delete this h1) (x :: l ++ [x])) as Hring.
  { apply path_snoc_last. split.
    - apply (path_frame h); [done|..].
      + intros y Hy. apply (removelast_elem _ _ x) in Hy as [Hy Hne]; [|done].
        rewrite last_cons_default in Hne.
        rewrite nxt_delete_ne by (intros ->; done).
        unfold h1. rewrite nxt_removed by done.
        rewrite !decide_False; [done|done|by intros ->].
      + intros y Hy. cbn [tail] in Hy.
        assert (y ≠ this) by (intros ->; apply Hth; by apply list_elem_of_further).
        rewrite prv_delete_ne by done.
        unfold h1. rewrite prv_removed by done.
        rewrite !decide_False; [done| |done].
        intros ->. by apply NoDup_cons in Hnd as [? _].
    - split.
      + rewrite nxt_delete_ne by done. unfold h1.
        rewrite nxt_removed by done.
        rewrite decide_False by done. by rewrite decide_True.
      + rewrite prv_delete_ne by done. unfold h1.
        rewrite prv_removed by done.
        rewrite decide_False by done. by rewrite decide_True. }
  exists (delete this h1). split; [|split; [|split; [|split]]].
  - unfold ilist.destroy, node.destroy. by rewrite (bind_Some _ _ _ _ _ E).
  - apply lookup_delete_eq.
  - done.
  - intros ->. destruct Hring as [[? ?] _]. by apply self_linked_nxt_prv.
  - apply same_outside_intro; intros y Hy;
      apply not_elem_of_cons in Hy as [? Hy];
      apply not_elem_of_cons in Hy as [? Hy];
      apply not_elem_of_cons in Hy as [? _];
      rewrite ?nxt_delete_ne, ?prv_delete_ne by done; unfold h1;
      rewrite ?nxt_removed, ?prv_removed by done;
      by rewrite !decide_False.
Qed.

Lemma destroying_a_list_keeps_the_elements_linked_witness :
  ∃ h', ilist.destroy 0 two_elements = Some (tt, h') ∧
        h' !! 0 = None ∧
        path h' (1 :: [2] ++ [1]) ∧
        ([2] = [] → self_linked h' 1) ∧
        same_outside [0; 1; List.last [2] 1] two_elements h'.
Proof.
  apply (destroying_a_list_keeps_the_elements_linked two_elements 0 1 [2]).
  list_eval.
Defined.

(** ** Consistency under [clear] and the range operations *)

Section consistency_ranges.
Implicit Types (h : gmap nat intrusive_list_node) (a x y : nat).
Implicit Types (l vs : list nat).

Lemma closed_loose h vs : (∀ v, v ∈ vs → self_linked h v) → closed h vs.
Proof.
  intros Hs f nd Hf Hnd. specialize (Hs f Hf). unfold self_linked in Hs.
  rewrite Hs in Hnd. by injection Hnd as <-.
Qed.

Lemma consistent_clear h this l fuel :
  consistent h → is_list h this l → length l < fuel →
  ∃ h', ilist.clear fuel this h = Some (tt, h') ∧ consistent h'.
Proof.
  intros Hc Hl Hf.
  destruct (clear_spec h this l fuel Hl Hf) as (h' & E & Hl' & Hself & Ho).
  exists h'. split; [done|].
  apply (consistent_update h h' (this :: l)); [done|done|..].
  - by apply is_list_closed.
  - intros f [->|Hin]%elem_of_cons; apply consistent_at_self.
    + by apply is_list_nil.
    + by apply Hself.
Qed.

Lemma loose_live h vs v :
  (∀ v, v ∈ vs → self_linked h v) → v ∈ vs → live h v.
Proof.
  intros Hs Hv. specialize (Hs v Hv).
  apply self_linked_nxt_prv in Hs as [? _]. eauto with heap.
Qed.

Lemma consistent_insert_range h this l1 l2 vs :
  consistent h → is_list h this (l1 ++ l2) →
  NoDup vs → (∀ v, v ∈ vs → self_linked h v) → this ∉ vs →
  ∃ h', ilist.insert_range (hd this l2) vs h = Some (hd this l2, h') ∧
        consistent h'.
Proof.
  intros Hc Hl Hnd Hs Ht.
  destruct (insert_range_spec h this l1 l2 vs) as (h' & E & Hl' & Ho);
    [done|done|by intros v Hv; apply (loose_live h vs)| |].
  { apply disj_intro. intros v Hv [->|Hin]%elem_of_cons; [done|].
    by apply (self_linked_not_elem h this (l1 ++ l2) v); [|apply Hs|]. }
  exists h'. split; [done|].
  apply (consistent_update h h' (vs ++ this :: l1 ++ l2)); [done|done|..].
  - apply closed_app; [by apply closed_loose|by apply is_list_closed].
  - intros f Hf. apply (is_list_consistent_at h' this (l1 ++ vs ++ l2)); [done|].
    revert Hf. mem_tauto.
Qed.

Lemma consistent_construct_range h vs fresh :
  consistent h → NoDup vs → (∀ v, v ∈ vs → self_linked h v) →
  h !! fresh = None →
  ∃ h', ilist.construct_range fresh vs h = Some (tt, h') ∧ consistent h'.
Proof.
  intros Hc Hnd Hs Hfresh.
  destruct (construct_range_spec h vs fresh) as (h' & E & Hl' & Ho);
    [done|by intros v Hv; apply (loose_live h vs)|done|].
  exists h'. split; [done|].
  apply (consistent_update h h' (fresh :: vs)); [done|done|..].
  - intros f nd [->|Hf]%elem_of_cons Hnd'; [by rewrite Hfresh in Hnd'|].
    destruct (closed_loose h vs Hs f nd Hf Hnd') as [? ?].
    split; by apply list_elem_of_further.
  - intros f Hf. by apply (is_list_consistent_at h' fresh vs).
Qed.

End consistency_ranges.

(** X27: [clear], the range [insert] and the range constructor keep
    doubly-linked consistency: from a consistent heap, with the objects
    of the range distinct and in no list, each of them returns and
    leaves a consistent heap. *)
Theorem clear_and_range_insert_keep_consistency h this l1 l2 vs fresh fuel :
  consistent h → is_list h this (l1 ++ l2) → length (l1 ++ l2) < fuel →
  NoDup vs → (∀ v, v ∈ vs → self_linked h v) → this ∉ vs →
  h !! fresh = None →
  (∃ h', ilist.clear fuel this h = Some (tt, h') ∧ consistent h') ∧
  (∃ h', ilist.insert_range (hd this l2) vs h = Some (hd this l2, h') ∧
         consistent h') ∧
  (∃ h', ilist.construct_range fresh vs h = Some (tt, h') ∧ consistent h').
Proof.
  intros Hc Hl Hf Hnd Hs Ht Hfresh. split; [|split].
  - by apply (consistent_clear h this (l1 ++ l2)).
  - by apply (consistent_insert_range h this l1 l2).
  - by apply consistent_construct_range.
Qed.

Lemma clear_and_range_insert_keep_consistency_witness :
  (∃ h', ilist.clear 3 0 list_and_three_nodes = Some (tt, h') ∧
         consistent h') ∧
  (∃ h', ilist.insert_range (hd 0 [2]) [5; 6; 7] list_and_three_nodes
           = Some (hd 0 [2], h') ∧
         consistent h') ∧
  (∃ h', ilist.construct_range 20 [5; 6; 7] list_and_three_nodes
           = Some (tt, h') ∧ consistent h').
Proof.
  apply (clear_and_range_insert_keep_consistency list_and_three_nodes
           0 [1] [2] [5; 6; 7] 20 3).
  - apply consistentb_spec. by_eval.
  - list_eval.
  - simpl. lia.
  - decide_eval.
  - unfold self_linked. apply Forall_forall. decide_eval.
  - decide_eval.
  - by_eval.
Defined.

(** ** The algorithms under an arbitrary comparator *)

(** A comparator that calls every object smaller than every other,
    itself included. *)
Definition always_less : nat → nat → bool := λ _ _, true.

(** X28: whatever the comparator or predicate, and whatever the order
    of the elements, [sort], [merge] and [unique] return without touching
    a dead node; [sort] leaves a permutation of the list and keeps its
    hands off another list, [merge] leaves a permutation of the elements
    of both lists in [this] and empties [other], and [unique] leaves a
    sublist of the list. *)
Theorem algorithms_keep_the_elements compare fuel h this l other lb :
  is_list h this l → is_list h other lb →
  disj (this :: l) (other :: lb) → length l + length lb < fuel →
  (∃ h' l', ilist.sort compare fuel this h = Some (tt, h') ∧
            is_list h' this l' ∧ l' ≡ₚ l ∧ is_list h' other lb) ∧
  (∃ h' l', ilist.merge compare fuel this other h = Some (tt, h') ∧
            is_list h' this l' ∧ l' ≡ₚ l ++ lb ∧ is_list h' other []) ∧
  (∃ h' l', ilist.unique compare fuel this h = Some (tt, h') ∧
            is_list h' this l' ∧ l' `sublist_of` l ∧ is_list h' other lb).
Proof.
  intros Hl Hb Hd Hf.
  assert (∀ y, y ∈ other :: lb → y ∉ this :: l) as Hd'.
  { intros y Hy Hin. by apply (Hd y). }
  split; [|split].
  - destruct (sort_spec compare fuel h this l) as (h' & E & Hl' & Ho);
      [done|lia|].
    exists h', (sort_seq compare l). split; [done|]. split; [done|].
    split; [apply sort_seq_perm|]. by apply (is_list_frame _ h _ _ _ Hb Ho).
  - destruct (merge_spec compare fuel h this l other lb)
      as (h' & E & Hl' & Hb' & _); [done..|].
    exists h', (merge_seq compare l lb). split; [done|]. split; [done|].
    split; [apply merge_seq_perm|done].
  - destruct (unique_spec compare fuel h this l) as (h' & E & Hl' & _ & Ho);
      [done|lia|].
    exists h', (unique_seq compare l). split; [done|]. split; [done|].
    split; [apply unique_seq_sublist|].
    by apply (is_list_frame _ h _ _ _ Hb Ho).
Qed.

Lemma algorithms_keep_the_elements_witness :
  (∃ h' l', ilist.sort always_less 4 0 two_lists = Some (tt, h') ∧
            is_list h' 0 l' ∧ l' ≡ₚ [1; 2] ∧ is_list h' 10 [11]) ∧
  (∃ h' l', ilist.merge always_less 4 0 10 two_lists = Some (tt, h') ∧
            is_list h' 0 l' ∧ l' ≡ₚ [1; 2] ++ [11] ∧ is_list h' 10 []) ∧
  (∃ h' l', ilist.unique always_less 4 0 two_lists = Some (tt, h') ∧
            is_list h' 0 l' ∧ l' `sublist_of` [1; 2] ∧ is_list h' 10 [11]).
Proof.
  apply (algorithms_keep_the_elements always_less 4 two_lists 0 [1; 2]
           10 [11]).
  - list_eval.
  - list_eval.
  - disj_eval.
  - simpl. lia.
Defined.
